(** * dpsia-lambda: the parallel multi-provider research orchestrator

    A shallow embedding of [src/research/queries.ts], the three provider
    clients ([perplexity.ts], [gemini.ts], [grok.ts]), [orchestrator.ts]
    and [types.ts], with the properties the specification states about
    them.

    Conventions.
    - A JavaScript string is a [string]: a sequence of 8-bit code units.
      [trim], [toLowerCase] and the regular expression of the query
      generator are modelled on the ASCII range (white space is
      U+0009..U+000D and U+0020, letters are A-Z and a-z); code units
      above 127 are carried through unchanged.
    - [Date.now()] readings, the replies of [fetch] and the order in which
      promises settle are inputs: they are fields of a "world" value that
      every theorem quantifies over.
    - A value typed by a TypeScript interface is a record with the same
      fields; an optional field [f?: T] is a field of type [option T]. *)

From Stdlib Require Import Ascii String ZArith Lia DecimalString.
From stdpp Require Import base decidable option list gmap strings.

Set Warnings "-clear-no-such-hyp,-register-all".

Open Scope Z_scope.
Open Scope nat_scope.

(** ** JavaScript strings ************************************************)

Module Js.

(** White space as [String.prototype.trim] and the class [\s] see it, on
    the ASCII range. *)
Definition isSpace (c : ascii) : bool :=
  match c with
  | "009" | "010" | "011" | "012" | "013" | " " => true
  | _ => false
  end%char.

Definition lowerChar (c : ascii) : ascii :=
  let n := nat_of_ascii c in
  if (65 <=? n) && (n <=? 90) then ascii_of_nat (n + 32) else c.

(** [s.toLowerCase()] *)
Fixpoint toLowerCase (s : string) : string :=
  match s with
  | EmptyString => EmptyString
  | String c r => String (lowerChar c) (toLowerCase r)
  end.

Fixpoint trimStart (s : string) : string :=
  match s with
  | EmptyString => EmptyString
  | String c r => if isSpace c then trimStart r else s
  end.

Fixpoint trimEnd (s : string) : string :=
  match s with
  | EmptyString => EmptyString
  | String c r =>
      match trimEnd r with
      | EmptyString => if isSpace c then EmptyString else String c EmptyString
      | r' => String c r'
      end
  end.

(** [s.trim()] *)
Definition trim (s : string) : string := trimEnd (trimStart s).

(** [hay.includes(needle)], the reading of "appears in" for texts. *)
Fixpoint startsWith (needle hay : string) : bool :=
  match needle, hay with
  | EmptyString, _ => true
  | String _ _, EmptyString => false
  | String a n', String b h' => if decide (a = b) then startsWith n' h' else false
  end.

Fixpoint includes (needle hay : string) : bool :=
  startsWith needle hay ||
  match hay with
  | EmptyString => false
  | String _ h' => includes needle h'
  end.

(** Truthiness of a string: only the empty string is falsy. *)
Definition truthy (s : string) : bool :=
  match s with EmptyString => false | _ => true end.

(** [parts.join(sep)] *)
Fixpoint join (sep : string) (parts : list string) : string :=
  match parts with
  | [] => ""
  | [p] => p
  | p :: rest => p +:+ sep +:+ join sep rest
  end.

End Js.

(** The operations above are those of JavaScript on texts whose
    characters are all below 128: there a character of the model is a
    character of the JavaScript string, [trim] and [\s] take the six
    white-space characters of [Js.isSpace], and [toLowerCase] changes the
    letters A to Z only.  A property that rests on [trim], [\s],
    [toLowerCase] or on counting characters is stated for such texts. *)
Definition isAscii (s : string) : bool :=
  forallb (fun c => (nat_of_ascii c <? 128)%nat) (list_ascii_of_string s).

(** ** Regular expressions ***********************************************)

(** The fragment of the regular-expression language that the suffix
    pattern of the query generator uses.  Matching is by derivatives.  The
    pattern ends in [$] and carries no [m] flag, so a match that starts at
    position [i] always runs to the end of the input: "the pattern matches
    at [i]" is "the rest of the input from [i] is in the language". *)
Module Regex.

Inductive regex : Type :=
| Void                       (* matches nothing *)
| Eps                        (* matches the empty string *)
| Chr (c : ascii)            (* one literal, compared under the [i] flag *)
| Space                      (* \s *)
| Seq (r1 r2 : regex)
| Alt (r1 r2 : regex)
| Opt (r : regex)            (* r? *)
| Star (r : regex).          (* r* *)

Fixpoint Lit (s : string) : regex :=
  match s with
  | EmptyString => Eps
  | String c r => Seq (Chr c) (Lit r)
  end.

Fixpoint nullable (r : regex) : bool :=
  match r with
  | Void => false
  | Eps => true
  | Chr _ => false
  | Space => false
  | Seq r1 r2 => nullable r1 && nullable r2
  | Alt r1 r2 => nullable r1 || nullable r2
  | Opt _ => true
  | Star _ => true
  end.

Fixpoint deriv (a : ascii) (r : regex) : regex :=
  match r with
  | Void => Void
  | Eps => Void
  | Chr c => if decide (Js.lowerChar c = Js.lowerChar a) then Eps else Void
  | Space => if Js.isSpace a then Eps else Void
  | Seq r1 r2 =>
      if nullable r1
      then Alt (Seq (deriv a r1) r2) (deriv a r2)
      else Seq (deriv a r1) r2
  | Alt r1 r2 => Alt (deriv a r1) (deriv a r2)
  | Opt r1 => deriv a r1
  | Star r1 => Seq (deriv a r1) (Star r1)
  end.

(** The whole of [s] is in the language of [r]. *)
Fixpoint matchesToEnd (r : regex) (s : string) : bool :=
  match s with
  | EmptyString => nullable r
  | String a s' => matchesToEnd (deriv a r) s'
  end.

End Regex.

(** ** queries.ts ********************************************************)

(** The alternation [(Inc\.|LLC|Ltd\.?|Corp\.?|GmbH|B\.V\.)]. *)
Definition legalSuffix : Regex.regex :=
  let Lit := Regex.Lit in
  let dot := Regex.Opt (Regex.Chr ".") in
  Regex.Alt (Lit "Inc.")
    (Regex.Alt (Lit "LLC")
      (Regex.Alt (Regex.Seq (Lit "Ltd") dot)
        (Regex.Alt (Regex.Seq (Lit "Corp") dot)
          (Regex.Alt (Lit "GmbH") (Lit "B.V."))))).

(** [/,?\s*(Inc\.|LLC|Ltd\.?|Corp\.?|GmbH|B\.V\.)$/i] without its [$]. *)
Definition suffixPattern : Regex.regex :=
  Regex.Seq (Regex.Opt (Regex.Chr ","))
    (Regex.Seq (Regex.Star Regex.Space) legalSuffix).

(** [vendorName.replace(suffixPattern, '')]: the pattern is not global, so
    the leftmost match alone is replaced; it runs to the end of the input,
    so what is left is the text before the first position it matches at. *)
Fixpoint replaceSuffix (vendorName : string) : string :=
  if Regex.matchesToEnd suffixPattern vendorName then EmptyString
  else match vendorName with
       | EmptyString => EmptyString
       | String c rest => String c (replaceSuffix rest)
       end.

Definition shortNameOf (vendorName : string) : string :=
  Js.trim (replaceSuffix vendorName).

(** [servicesUsed ? ` ${servicesUsed}` : ''] : an absent and an empty
    [servicesUsed] are both falsy. *)
Definition serviceContextOf (servicesUsed : option string) : string :=
  match servicesUsed with
  | Some s => if Js.truthy s then " " +:+ s else ""
  | None => ""
  end.

(** [interface DPSIAQueries]; each field is a triple in the source. *)
Record DPSIAQueries : Type := mkQueries {
  perplexity : string * string * string;
  gemini : string * string * string;
  grok : string * string * string;
}.

Definition generateQueries (vendorName : string) (servicesUsed : option string)
  : DPSIAQueries :=
  let shortName := shortNameOf vendorName in
  let serviceContext := serviceContextOf servicesUsed in
  {| perplexity :=
       (shortName +:+ " security certifications ISO 27001 SOC 2 Type II 2025 2026",
        shortName +:+ " data breach incidents security vulnerabilities CVE history",
        shortName +:+ " GDPR compliance data processing agreement privacy policy"
                  +:+ serviceContext);
     gemini :=
       (shortName +:+ " security posture assessment encryption access controls infrastructure. Analyse their security architecture, encryption standards, and access control mechanisms.",
        shortName +:+ " vendor risk compliance status regulatory actions enforcement. Evaluate their compliance posture across ISO 27001, SOC 2, GDPR, and any regulatory enforcement actions.",
        shortName +:+ " service availability SLA disaster recovery redundancy architecture"
                  +:+ serviceContext
                  +:+ ". Assess their availability guarantees, redundancy, and disaster recovery capabilities.");
     grok :=
       (shortName +:+ " security incidents criticism concerns vulnerabilities 2024 2025 2026. What are the most significant security concerns, incidents, or criticisms? Be thorough and unbiased.",
        shortName +:+ " enforcement actions fines regulatory investigations GDPR ICO FTC. Has this company faced any regulatory enforcement, fines, or investigations?",
        shortName +:+ " alternatives comparison security weaknesses limitations"
                  +:+ serviceContext
                  +:+ ". What are the known security weaknesses or limitations compared to alternatives?") |}.

(** The array a triple of queries is iterated as. *)
Definition queryList (t : string * string * string) : list string :=
  let '(q1, q2, q3) := t in [q1; q2; q3].

Definition allQueries (qs : DPSIAQueries) : list string :=
  queryList (perplexity qs) ++ queryList (gemini qs) ++ queryList (grok qs).


(** ** types.ts **********************************************************)

Record ResearchResult : Type := mkResult {
  provider : string;
  query : string;
  content : string;
  sources : list string;
  success : bool;
  error : option string;          (* error?: string *)
  durationMs : Z;
}.

Record AggregatedResults : Type := mkAggregated {
  results : list ResearchResult;
  totalDurationMs : Z;
  providersUsed : list string;
  allSources : list string;
  successCount : nat;
  failureCount : nat;
}.

(** ** Exceptions and promises *******************************************)

(** What a [throw] or a rejection carries: an [Error] object with its
    [message], or any other value with the text [String(value)] gives. *)
Inductive Thrown : Type :=
| ErrorObject (message : string)
| NonError (asString : string).

(** [err instanceof Error ? err.message : String(err)] *)
Definition messageOf (err : Thrown) : string :=
  match err with
  | ErrorObject message => message
  | NonError asString => asString
  end.

(** A settled promise ([PromiseSettledResult]); also the result of a block
    of code that either completes with a value or throws. *)
Inductive Settled (A : Type) : Type :=
| fulfilled (value : A)
| rejected (reason : Thrown).
Arguments fulfilled {A} value.
Arguments rejected {A} reason.

(** The promise an [async] function returns, seen from its caller. *)
Inductive Promise (A : Type) : Type :=
| Pending                  (* never settles *)
| Resolves (value : A)
| Rejects (reason : Thrown).
Arguments Pending {A}.
Arguments Resolves {A} value.
Arguments Rejects {A} reason.

(** [await] inside a [try] block: a rejection leaves the block. *)
Definition await {A B : Type} (p : Settled A) (k : A -> Settled B) : Settled B :=
  match p with
  | fulfilled v => k v
  | rejected e => rejected e
  end.

#[global] Instance Settled_bind : MBind Settled := fun _ _ k p => await p k.

(** The promise of an [async] function whose body has run to its end: it
    resolves with what the body returned, or rejects with what it threw. *)
Definition settle {A : Type} (outcome : Settled A) : Promise A :=
  match outcome with
  | fulfilled value => Resolves value
  | rejected reason => Rejects reason
  end.

(** [try { body } catch (err) { handler }] *)
Definition tryCatch {A : Type} (body : Settled A) (handler : Thrown -> Settled A)
  : Settled A :=
  match body with
  | fulfilled v => fulfilled v
  | rejected err => handler err
  end.

(** ** The network a provider client talks to ****************************)

Module Api.

(** The shapes the clients cast [await response.json()] to.  One record
    carries the fields of all three casts, as one reply object may.  The
    casts are taken at their word: [citations] is absent or an array of
    strings.  The cast checks nothing at run time; a reply whose
    [citations] is any other value is outside these shapes (the
    aggregation loop of [conductResearch] throws on it), and what is
    proved of the orchestrator's value is proved of the runs that resolve. *)
Record Message : Type := { content : option string }.
Record Choice : Type := { message : option Message }.
Record Part : Type := { text : option string }.
Record Content : Type := { parts : option (list Part) }.
Record Candidate : Type := { candidateContent : option Content }.

Record Data : Type := {
  choices : option (list Choice);
  citations : option (list string);
  candidates : option (list Candidate);
}.

(** A [Response]: [text()] and [json()] are promises of their own and
    may reject (a body that cannot be read, or is not JSON).  A body that
    is JSON is an object of the shape above or the value [null], here
    [None]. *)
Record Response : Type := {
  ok : bool;
  status : Z;
  bodyText : Settled string;
  bodyJson : Settled (option Data);
}.

(** [data.field] for the first field a client reads: reading a property
    of [null] throws a [TypeError]. *)
Definition read (field : string) (data : option Data) : Settled Data :=
  match data with
  | Some d => fulfilled d
  | None =>
      rejected (ErrorObject ("Cannot read properties of null (reading '"
                             +:+ field +:+ "')"))
  end.

(** What one call of [search] meets: two clock readings, the time the
    reply takes and the reply (a rejection is a network error). *)
Record Call : Type := {
  startedAt : Z;              (* Date.now() on entry *)
  finishedAt : Z;             (* Date.now() when the result is built *)
  latencyMs : Z;
  reply : Settled Response;
}.

Definition abortError : Thrown := ErrorObject "This operation was aborted".

(** [fetch(url, { ..., signal })] with [setTimeout(() => controller.abort(),
    timeoutMs)] pending: the timer wins when the reply takes [timeoutMs]
    or longer, and [fetch] then rejects with an [AbortError].  This is
    the timer for a delay from 1 to 2^31 - 1 ms; [setTimeout] sets any
    other delay to 1 ms. *)
Definition fetch (timeoutMs : Z) (c : Call) : Settled Response :=
  if (timeoutMs <=? latencyMs c)%Z then rejected abortError else reply c.

End Api.

(** Optional chaining, [o?.f], is [o ≫= f], bracketed to the left as a
    chain of [?.] is read; [arr?.[0]] is [first arr]. *)
Definition first {A : Type} (arr : option (list A)) : option A :=
  match arr with
  | Some l => l !! 0
  | None => None
  end.

(** Template-literal rendering of an integer. *)
Definition showZ (z : Z) : string :=
  DecimalString.NilZero.string_of_int (Z.to_int z).

(** [interface ResearchProvider] *)
Record ResearchProvider : Type := mkProvider {
  name : string;
  search : string -> option Z -> Api.Call -> Settled ResearchResult;
}.

(** The result every client builds in its [!response.ok] branch and in its
    [catch] block. *)
Definition failed (providerName q : string) (msg : string) (c : Api.Call)
  : ResearchResult :=
  {| provider := providerName; query := q; content := ""; sources := [];
     success := false; error := Some msg;
     durationMs := (Api.finishedAt c - Api.startedAt c)%Z |}.

Definition httpError (response : Api.Response) (errorText : string) : string :=
  "HTTP " +:+ showZ (Api.status response) +:+ ": " +:+ errorText.

(** [search(query, timeoutMs = 60_000)] *)
Definition defaultTimeout (timeoutMs : option Z) : Z := default 60000%Z timeoutMs.

(** The three client classes.  A client's key travels in the request, as
    the query and the model parameters do; the reply that comes back is
    the world's ([Api.Call]), so [apiKey] does not occur in the body of
    [search]. *)

(** *** perplexity.ts *)
Module PerplexityProvider.

Definition name : string := "Perplexity".

Definition search (apiKey : string) (q : string) (timeoutMs : option Z)
    (c : Api.Call) : Settled ResearchResult :=
  let timeoutMs := defaultTimeout timeoutMs in
  tryCatch
    (response ← Api.fetch timeoutMs c;
     if negb (Api.ok response) then
       errorText ← Api.bodyText response;
       fulfilled (failed name q (httpError response errorText) c)
     else
       data ← Api.bodyJson response;
       data ← Api.read "choices" data;
       (* data.choices?.[0]?.message?.content ?? '' *)
       let content :=
         default "" ((first (Api.choices data) ≫= Api.message) ≫= Api.content) in
       (* data.citations ?? [] *)
       let sources := default [] (Api.citations data) in
       fulfilled
         {| provider := name; query := q; content := content;
            sources := sources; success := true; error := None;
            durationMs := (Api.finishedAt c - Api.startedAt c)%Z |})
    (fun err => fulfilled (failed name q (messageOf err) c)).

Definition new (apiKey : string) : ResearchProvider :=
  mkProvider name (search apiKey).

End PerplexityProvider.

(** *** gemini.ts *)
Module GeminiProvider.

Definition name : string := "Gemini".

Definition search (apiKey : string) (q : string) (timeoutMs : option Z)
    (c : Api.Call) : Settled ResearchResult :=
  let timeoutMs := defaultTimeout timeoutMs in
  tryCatch
    (response ← Api.fetch timeoutMs c;
     if negb (Api.ok response) then
       errorText ← Api.bodyText response;
       fulfilled (failed name q (httpError response errorText) c)
     else
       data ← Api.bodyJson response;
       data ← Api.read "candidates" data;
       (* data.candidates?.[0]?.content?.parts?.[0]?.text ?? '' *)
       let content :=
         default "" (first ((first (Api.candidates data)
                               ≫= Api.candidateContent) ≫= Api.parts)
                       ≫= Api.text) in
       fulfilled
         {| provider := name; query := q; content := content;
            sources := []; success := true; error := None;
            durationMs := (Api.finishedAt c - Api.startedAt c)%Z |})
    (fun err => fulfilled (failed name q (messageOf err) c)).

Definition new (apiKey : string) : ResearchProvider :=
  mkProvider name (search apiKey).

End GeminiProvider.

(** *** grok.ts *)
Module GrokProvider.

Definition name : string := "Grok".

Definition search (apiKey : string) (q : string) (timeoutMs : option Z)
    (c : Api.Call) : Settled ResearchResult :=
  let timeoutMs := defaultTimeout timeoutMs in
  tryCatch
    (response ← Api.fetch timeoutMs c;
     if negb (Api.ok response) then
       errorText ← Api.bodyText response;
       fulfilled (failed name q (httpError response errorText) c)
     else
       data ← Api.bodyJson response;
       data ← Api.read "choices" data;
       (* data.choices?.[0]?.message?.content ?? '' *)
       let content :=
         default "" ((first (Api.choices data) ≫= Api.message) ≫= Api.content) in
       fulfilled
         {| provider := name; query := q; content := content;
            sources := []; success := true; error := None;
            durationMs := (Api.finishedAt c - Api.startedAt c)%Z |})
    (fun err => fulfilled (failed name q (messageOf err) c)).

Definition new (apiKey : string) : ResearchProvider :=
  mkProvider name (search apiKey).

End GrokProvider.

(** ** orchestrator.ts ***************************************************)

(** [interface ResearchConfig] *)
Record ResearchConfig : Type := mkConfig {
  perplexityApiKey : string;
  googleApiKey : string;
  xaiApiKey : string;
  timeoutMs : option Z;           (* timeoutMs?: number *)
}.

(** An element of [tasks]. *)
Record Task : Type := mkTask {
  taskProvider : ResearchProvider;
  taskQuery : string;
}.

(** What one run of [conductResearch] meets. *)
Record World : Type := mkWorld {
  clockStart : Z;                 (* Date.now() on entry *)
  calls : nat -> Api.Call;        (* what the task dispatched i-th meets *)
  completion : list nat;          (* the tasks in the order they settle *)
  clockCollect : nat -> Z;        (* Date.now() read for outcome i *)
  clockEnd : Z;                   (* Date.now() when the value is built *)
}.

(** [Promise.allSettled(promises)]: every promise, when it settles, stores
    its outcome in the slot of its own index (once: a promise settles one
    time); the combined promise resolves with the slots when none is empty
    any more. *)
Definition settleSlot {A : Type} (promises : list (Settled A))
    (slots : list (option (Settled A))) (i : nat) : list (option (Settled A)) :=
  match promises !! i, slots !! i with
  | Some outcome, Some None => <[i := Some outcome]> slots
  | _, _ => slots
  end.

Definition allSettled {A : Type} (promises : list (Settled A))
    (completion : list nat) : Promise (list (Settled A)) :=
  let slots := foldl (settleSlot promises) (replicate (length promises) None)
                 completion in
  match mapM id slots with
  | Some outcomes => Resolves outcomes
  | None => Pending
  end.

(** The two nested [for ... of] loops that fill [tasks]. *)
Definition buildTasks (providers : list (ResearchProvider * list string))
  : list Task :=
  foldl (fun tasks '(p, providerQueries) =>
           foldl (fun tasks q => tasks ++ [mkTask p q]) tasks providerQueries)
        [] providers.

(** The callback of [settled.map((outcome, i) => ...)].  [tasks[i]] is
    [undefined] past the end of [tasks], and reading [.provider] of it
    throws. *)
Definition collectOutcome (tasks : list Task) (w : World)
    (i : nat) (outcome : Settled ResearchResult) : Settled ResearchResult :=
  match outcome with
  | fulfilled value => fulfilled value
  | rejected reason =>
      match tasks !! i with
      | Some t =>
          fulfilled
            {| provider := name (taskProvider t);
               query := taskQuery t;
               content := "";
               sources := [];
               success := false;
               error := Some (messageOf reason);
               durationMs := (clockCollect w i - clockStart w)%Z |}
      | None =>
          rejected (ErrorObject "Cannot read properties of undefined (reading 'provider')")
      end
  end.

(** [arr.map(f)] for a callback that may throw: the first throw leaves. *)
Fixpoint mapThrowing {A B : Type} (f : nat -> A -> Settled B) (i : nat)
    (l : list A) : Settled (list B) :=
  match l with
  | [] => fulfilled []
  | x :: l' =>
      y ← f i x;
      ys ← mapThrowing f (S i) l';
      fulfilled (y :: ys)
  end.

(** [src.trim().toLowerCase()] *)
Definition normalise (src : string) : string := Js.toLowerCase (Js.trim src).

(** The body of the inner loop over [r.sources]. *)
Definition addSource (st : list string * gset string) (src : string)
  : list string * gset string :=
  let '(allSources, seen) := st in
  let normalised := normalise src in
  if decide (normalised ∈ seen) then st
  else (allSources ++ [src], {[ normalised ]} ∪ seen).

Definition collectSources (results : list ResearchResult) : list string :=
  fst (foldl (fun st r => foldl addSource st (sources r)) ([], ∅) results).

(** [[...new Set(xs)]]: a [Set] keeps its members in insertion order. *)
Definition spreadSet (xs : list string) : list string :=
  foldl (fun members x => if decide (x ∈ members) then members
                          else members ++ [x]) [] xs.

Definition aggregate (results : list ResearchResult) (w : World)
  : AggregatedResults :=
  {| results := results;
     totalDurationMs := (clockEnd w - clockStart w)%Z;
     providersUsed :=
       spreadSet (map provider (List.filter success results));
     allSources := collectSources results;
     successCount := length (List.filter success results);
     failureCount := length (List.filter (fun r => negb (success r)) results) |}.

(** [tasks.map(({ provider, query }) => provider.search(query, timeoutMs))]:
    the promises, each with the outcome its call will have. *)
Definition dispatch (tasks : list Task) (timeoutMs : Z) (w : World)
  : list (Settled ResearchResult) :=
  imap (fun i t => search (taskProvider t) (taskQuery t) (Some timeoutMs)
                     (calls w i)) tasks.

(** [conductResearch] from the task loop on, for any table of providers
    and their queries. *)
Definition runResearch (providers : list (ResearchProvider * list string))
    (timeoutMs : Z) (w : World) : Promise AggregatedResults :=
  let tasks := buildTasks providers in
  let promises := dispatch tasks timeoutMs w in
  match allSettled promises (completion w) with
  | Pending => Pending
  | Rejects reason => Rejects reason
  | Resolves settled =>
      match mapThrowing (collectOutcome tasks w) 0 settled with
      | rejected reason => Rejects reason
      | fulfilled results => Resolves (aggregate results w)
      end
  end.

(** The [providers] array of [conductResearch]. *)
Definition providerTable (config : ResearchConfig) (queries : DPSIAQueries)
  : list (ResearchProvider * list string) :=
  [ (PerplexityProvider.new (perplexityApiKey config), queryList (perplexity queries));
    (GeminiProvider.new (googleApiKey config), queryList (gemini queries));
    (GrokProvider.new (xaiApiKey config), queryList (grok queries)) ].

Definition conductResearch (vendorName : string) (config : ResearchConfig)
    (servicesUsed : option string) (w : World) : Promise AggregatedResults :=
  let timeoutMs := default 90000%Z (timeoutMs config) in
  let queries := generateQueries vendorName servicesUsed in
  runResearch (providerTable config queries) timeoutMs w.

(** *** formatResearchForPrompt *)

(** A [Map<string, V>]: keys in insertion order; [set] on a key that is
    present keeps its place. *)
Fixpoint mapGet {V : Type} (m : list (string * V)) (k : string) : option V :=
  match m with
  | [] => None
  | (k', v) :: m' => if decide (k' = k) then Some v else mapGet m' k
  end.

Fixpoint mapSet {V : Type} (m : list (string * V)) (k : string) (v : V)
  : list (string * V) :=
  match m with
  | [] => [(k, v)]
  | (k', v') :: m' =>
      if decide (k' = k) then (k, v) :: m' else (k', v') :: mapSet m' k v
  end.

Definition groupByProvider (rs : list ResearchResult)
  : list (string * list ResearchResult) :=
  foldl (fun byProvider r =>
           let existing := default [] (mapGet byProvider (provider r)) in
           mapSet byProvider (provider r) (existing ++ [r]))
        [] rs.

Definition providerLabel (p : string) : string :=
  if decide (p = "Perplexity") then "Perplexity (Web Search with Citations)"
  else if decide (p = "Gemini") then "Gemini (Multi-Perspective Analysis)"
  else if decide (p = "Grok") then "Grok (Contrarian Analysis)"
  else p.

Definition newline : string := String "010" EmptyString.

(** [`${r.error}`]: an absent field renders as the text "undefined". *)
Definition showError (e : option string) : string := default "undefined" e.

(** The body of the loop over the results of one provider. *)
Definition pushResult (sections : list string) (r : ResearchResult)
  : list string :=
  if success r && Js.truthy (content r) then
    let sections := sections ++ ["**Query:** " +:+ query r +:+ newline] in
    let sections := sections ++ [content r] in
    let sections :=
      if (0 <? length (sources r))%nat then
        foldl (fun sections src => sections ++ ["- " +:+ src])
              (sections ++ [newline +:+ "**Sources:**"]) (sources r)
      else sections in
    sections ++ [""]
  else if negb (success r) then
    let sections := sections ++ ["**Query:** " +:+ query r] in
    sections ++ ["*Failed: " +:+ showError (error r) +:+ "*" +:+ newline]
  else sections.

Definition pushProvider (sections : list string)
    (entry : string * list ResearchResult) : list string :=
  let '(p, rs) := entry in
  foldl pushResult (sections ++ ["### " +:+ providerLabel p +:+ newline]) rs.

Definition formatResearchForPrompt (aggregated : AggregatedResults) : string :=
  let byProvider := groupByProvider (results aggregated) in
  Js.join newline (foldl pushProvider [] byProvider).

(** ** Definitions the properties are stated with ***********************)

(** The slots once the promises listed in [done] have settled. *)
Definition slotsAfter {A : Type} (promises : list (Settled A)) (done : list nat)
  : list (option (Settled A)) :=
  imap (fun i outcome => if decide (i ∈ done) then Some outcome else None)
       promises.

(** Every task settles at some point. *)
Definition everySettles (n : nat) (completion : list nat) : Prop :=
  Forall (fun i => i ∈ completion) (seq 0 n).

#[global] Instance everySettles_dec (n : nat) (completion : list nat) :
  Decision (everySettles n completion).
Proof. unfold everySettles. apply _. Defined.

(** The tasks of one provider, in the order of its queries. *)
Definition tasksOf (entry : ResearchProvider * list string) : list Task :=
  map (mkTask entry.1) entry.2.

(** The Research Result of the task dispatched [i]-th: what its client
    returned or, when its promise rejected, what the orchestrator puts in
    its place. *)
Definition resultFor (timeoutMs : Z) (w : World) (i : nat) (t : Task)
  : ResearchResult :=
  match search (taskProvider t) (taskQuery t) (Some timeoutMs) (calls w i) with
  | fulfilled value => value
  | rejected reason =>
      {| provider := name (taskProvider t);
         query := taskQuery t;
         content := "";
         sources := [];
         success := false;
         error := Some (messageOf reason);
         durationMs := (clockCollect w i - clockStart w)%Z |}
  end.

Definition resultsFor (timeoutMs : Z) (w : World) (tasks : list Task)
  : list ResearchResult :=
  imap (resultFor timeoutMs w) tasks.


(** The same world with another completion order. *)
Definition withCompletion (w : World) (completion' : list nat) : World :=
  mkWorld (clockStart w) (calls w) completion' (clockCollect w) (clockEnd w).

(** ** Concrete runs *****************************************************)

Definition demoConfig : ResearchConfig :=
  mkConfig "pplx-key" "google-key" "xai-key" (Some 5000%Z).

(** A call whose [fetch] rejects: the network is down. *)
Definition networkDown : Api.Call :=
  {| Api.startedAt := 1000; Api.finishedAt := 1040; Api.latencyMs := 40;
     Api.reply := rejected (ErrorObject "Network error") |}.

(** A reply that carries the fields all three clients look for. *)
Definition demoData : Api.Data :=
  {| Api.choices :=
       Some [ {| Api.message := Some {| Api.content := Some "Test research content" |} |} ];
     Api.citations := Some ["https://example.com"; " HTTPS://Example.COM "; "https://b.example"];
     Api.candidates :=
       Some [ {| Api.candidateContent :=
                   Some {| Api.parts := Some [ {| Api.text := Some "Gemini content" |} ] |} |} ] |}.

Definition demoCall : Api.Call :=
  {| Api.startedAt := 1000; Api.finishedAt := 1300; Api.latencyMs := 300;
     Api.reply :=
       fulfilled {| Api.ok := true; Api.status := 200; Api.bodyText := fulfilled "";
                    Api.bodyJson := fulfilled (Some demoData) |} |}.

Definition serverError : Api.Call :=
  {| Api.startedAt := 1000; Api.finishedAt := 1100; Api.latencyMs := 100;
     Api.reply :=
       fulfilled {| Api.ok := false; Api.status := 503;
                    Api.bodyText := fulfilled "Service Unavailable";
                    Api.bodyJson := rejected (ErrorObject "Unexpected token S in JSON") |} |}.

(** Every call fails; the promises settle in no particular order. *)
Definition offlineWorld : World :=
  {| clockStart := 1000;
     calls := fun i => if Nat.even i then networkDown else serverError;
     completion := [4; 0; 8; 2; 6; 1; 7; 3; 5];
     clockCollect := fun _ => 1100%Z;
     clockEnd := 1101 |}.

(** Two calls in three succeed. *)
Definition onlineWorld : World :=
  {| clockStart := 1000;
     calls := fun i => if decide (i `mod` 3 = 1) then networkDown else demoCall;
     completion := [8; 7; 6; 5; 4; 3; 2; 1; 0];
     clockCollect := fun _ => 1300%Z;
     clockEnd := 1301 |}.

(** A provider outside the three clients, whose promise rejects. *)
Definition rejectingProvider : ResearchProvider :=
  mkProvider "Flaky" (fun _ _ _ => rejected (NonError "socket hang up")).

Definition demoTable : list (ResearchProvider * list string) :=
  [ (rejectingProvider, ["first"; "second"; "third"]);
    (GrokProvider.new "xai-key", ["fourth"; "fifth"; "sixth"]) ].

(** ** The failure modes of one call *************************************)

(** What can go wrong between a client and its provider. *)
Inductive FailureMode (timeoutMs : Z) (c : Api.Call) : Prop :=
| timedOut :                          (* the abort timer fires first *)
    (timeoutMs <= Api.latencyMs c)%Z → FailureMode timeoutMs c
| networkError reason :               (* [fetch] rejects *)
    Api.reply c = rejected reason → FailureMode timeoutMs c
| httpStatus response :               (* a non-2xx response *)
    Api.reply c = fulfilled response → Api.ok response = false →
    FailureMode timeoutMs c
| malformedBody response reason :     (* [response.json()] rejects *)
    Api.reply c = fulfilled response → Api.ok response = true →
    Api.bodyJson response = rejected reason →
    FailureMode timeoutMs c
| nullBody response :                 (* the body is the JSON value null *)
    Api.reply c = fulfilled response → Api.ok response = true →
    Api.bodyJson response = fulfilled None →
    FailureMode timeoutMs c.

(** The [search] method of a client class, before it is given its key. *)
Definition SearchMethod : Type :=
  string → string → option Z → Api.Call → Settled ResearchResult.

(** [search] always returns a fulfilled promise, and in every failure mode
    the result it carries is a normalized failure. *)
Definition NeverRaises (search : SearchMethod) : Prop :=
  ∀ apiKey q timeoutMs c,
    ∃ r, search apiKey q timeoutMs c = fulfilled r
         ∧ (FailureMode (defaultTimeout timeoutMs) c →
            success r = false ∧ content r = "" ∧ sources r = []
            ∧ ∃ msg, error r = Some msg).

(** Whatever a provider's promise fulfils with names the provider and
    repeats the query it was given. *)
Definition Echoes (p : ResearchProvider) : Prop :=
  ∀ q timeoutMs c r,
    search p q timeoutMs c = fulfilled r → provider r = name p ∧ query r = q.

(** A provider whose results never carry sources. *)
Definition Sourceless (p : ResearchProvider) : Prop :=
  ∀ q timeoutMs c,
    ∃ r, search p q timeoutMs c = fulfilled r ∧ sources r = [].

(** ** Source deduplication, as the specification words it ***************)

(** Every citation of the results, in dispatch order. *)
Definition citedSources (rs : list ResearchResult) : list string :=
  concat (map sources rs).

(** The strings of [srcs] that are first seen: a string is kept when no
    string before it (in [before] or earlier in [srcs]) has the same
    normal form; the string kept is the literal one. *)
Fixpoint firstSeen (before srcs : list string) : list string :=
  match srcs with
  | [] => []
  | src :: rest =>
      if decide (normalise src ∈ normalise <$> before)
      then firstSeen (before ++ [src]) rest
      else src :: firstSeen (before ++ [src]) rest
  end.

(** [e] is the first string of [l] whose normal form is [k]. *)
Definition FirstWith (l : list string) (k : string) (e : string) : Prop :=
  ∃ pre post, l = pre ++ e :: post ∧ normalise e = k
              ∧ k ∉ normalise <$> pre.

(** ** The formatter, as the specification words it **********************)

(** The bulleted list of the sources of a result, under its heading;
    nothing when the result has no sources. *)
Definition sourcesBlock (srcs : list string) : list string :=
  match srcs with
  | [] => []
  | _ => (newline +:+ "**Sources:**") :: map (fun src => "- " +:+ src) srcs
  end.

(** What one result contributes to the text. *)
Definition emittedFor (r : ResearchResult) : list string :=
  match success r, content r with
  | true, EmptyString => []
  | true, _ =>
      ["**Query:** " +:+ query r +:+ newline; content r]
        ++ sourcesBlock (sources r) ++ [""]
  | false, _ =>
      ["**Query:** " +:+ query r;
       "*Failed: " +:+ showError (error r) +:+ "*" +:+ newline]
  end.

(** The section of one provider: its header, then its results in order. *)
Definition sectionFor (entry : string * list ResearchResult) : list string :=
  ("### " +:+ providerLabel entry.1 +:+ newline)
    :: concat (map emittedFor entry.2).

(** The provider groups: the provider names in the order first seen, each
    with its results in their order. *)
Definition groupsOf (rs : list ResearchResult)
  : list (string * list ResearchResult) :=
  map (fun p => (p, filter (fun r => provider r = p) rs))
      (spreadSet (map provider rs)).

Definition failedDemo : ResearchResult :=
  {| provider := "Perplexity"; query := "test"; content := ""; sources := [];
     success := false; error := Some "API timeout"; durationMs := 5000 |}.

Definition citedDemo : ResearchResult :=
  {| provider := "Perplexity"; query := "test query 1";
     content := "Found certifications"; sources := ["https://example.com"];
     success := true; error := None; durationMs := 1000 |}.

Definition hollowDemo : ResearchResult :=
  {| provider := "Gemini"; query := "test query 2"; content := "";
     sources := []; success := true; error := None; durationMs := 2000 |}.

Definition formatterDemo : AggregatedResults :=
  {| results := [citedDemo; hollowDemo; failedDemo];
     totalDurationMs := 5000;
     providersUsed := ["Perplexity"; "Gemini"];
     allSources := ["https://example.com"];
     successCount := 2;
     failureCount := 1 |}.

(** ** The services clause, as the specification words it ****************)

(** A provider's triple has the services text in one slot: its first two
    queries are the same whatever [servicesUsed] is; its third is a fixed
    text with " " and the services text put in at one place when services
    are given, and the same text with nothing at that place when they are
    not (so the two differ). *)
Definition ServicesInOneSlot (field : DPSIAQueries → string * string * string)
    (vendorName : string) : Prop :=
  ∃ q1 q2 pre post,
    (∀ servicesUsed,
       ∃ q3, field (generateQueries vendorName servicesUsed) = (q1, q2, q3))
    ∧ (∀ s, s ≠ "" →
         field (generateQueries vendorName (Some s))
         = (q1, q2, pre +:+ " " +:+ s +:+ post))
    ∧ field (generateQueries vendorName None) = (q1, q2, pre +:+ post)
    ∧ (∀ s, s ≠ "" → pre +:+ " " +:+ s +:+ post ≠ pre +:+ post)
    ∧ pre ≠ "".

(** ** The suffix rule, as the specification words it ********************)

(** The texts the alternation of the suffix pattern admits, in lower
    case. *)
Definition suffixTokens : list string :=
  ["inc."; "llc"; "ltd"; "ltd."; "corp"; "corp."; "gmbh"; "b.v."].

(** A suffix text: a text the alternation of the pattern matches. *)
Definition isSuffixText (tok : string) : Prop :=
  Regex.matchesToEnd legalSuffix tok = true.

(** The words a pattern without [*] admits, letters in lower case. *)
Fixpoint starFree (r : Regex.regex) : bool :=
  match r with
  | Regex.Star _ => false
  | Regex.Seq r1 r2 | Regex.Alt r1 r2 => starFree r1 && starFree r2
  | Regex.Opt r1 => starFree r1
  | _ => true
  end.

Definition spaces : list string :=
  map (fun c => String c EmptyString)
      ["009"; "010"; "011"; "012"; "013"; " "]%char.

Fixpoint wordsOf (r : Regex.regex) : list string :=
  match r with
  | Regex.Void => []
  | Regex.Eps => [""]
  | Regex.Chr c => [String (Js.lowerChar c) ""]
  | Regex.Space => spaces
  | Regex.Seq r1 r2 => x ← wordsOf r1; (fun y => x +:+ y) <$> wordsOf r2
  | Regex.Alt r1 r2 => wordsOf r1 ++ wordsOf r2
  | Regex.Opt r1 => "" :: wordsOf r1
  | Regex.Star _ => []
  end.


(** ** What a pattern matches ********************************************)

(** The texts a pattern matches in full, by the structure of the pattern;
    [Regex.matchesToEnd] decides it. *)
Inductive Matches : Regex.regex → string → Prop :=
| MatchesEps : Matches Regex.Eps ""
| MatchesChr c a :
    Js.lowerChar c = Js.lowerChar a → Matches (Regex.Chr c) (String a "")
| MatchesSpace a :
    Js.isSpace a = true → Matches Regex.Space (String a "")
| MatchesSeq r1 r2 s1 s2 :
    Matches r1 s1 → Matches r2 s2 → Matches (Regex.Seq r1 r2) (s1 +:+ s2)
| MatchesAltL r1 r2 s : Matches r1 s → Matches (Regex.Alt r1 r2) s
| MatchesAltR r1 r2 s : Matches r2 s → Matches (Regex.Alt r1 r2) s
| MatchesOptNone r : Matches (Regex.Opt r) ""
| MatchesOptSome r s : Matches r s → Matches (Regex.Opt r) s
| MatchesStarNil r : Matches (Regex.Star r) ""
| MatchesStarCons r s1 s2 :
    Matches r s1 → Matches (Regex.Star r) s2 →
    Matches (Regex.Star r) (s1 +:+ s2).

(** A text of white space only. *)
Fixpoint allSpace (s : string) : bool :=
  match s with
  | EmptyString => true
  | String c r => Js.isSpace c && allSpace r
  end.

(** The delays [setTimeout] keeps as they are given: from 1 to 2^31 - 1
    milliseconds.  Any other delay is set to 1, so that the abort timer
    of a client is no longer the [timeoutMs] it was called with; the
    properties of the clients that tell a timeout from the other outcomes
    are stated for delays in this range. *)
Definition timerDelay (ms : Z) : Prop := (1 ≤ ms ≤ 2147483647)%Z.

(** A successful result of a client that reads [choices]: the call met no
    failure mode, the result carries no error, and its content, when not
    empty, is the content of the message of the first choice. *)
Definition ReadsFirstChoice (search : SearchMethod) : Prop :=
  ∀ apiKey q timeoutMs c r,
    timerDelay (defaultTimeout timeoutMs) →
    search apiKey q timeoutMs c = fulfilled r →
    (success r = true ↔ ¬ FailureMode (defaultTimeout timeoutMs) c)
    ∧ (success r = true →
       error r = None
       ∧ durationMs r = (Api.finishedAt c - Api.startedAt c)%Z
       ∧ ∃ response data,
           Api.reply c = fulfilled response
           ∧ Api.bodyJson response = fulfilled (Some data)
           ∧ (content r ≠ "" →
              ∃ choice rest msg,
                Api.choices data = Some (choice :: rest)
                ∧ Api.message choice = Some msg
                ∧ Api.content msg = Some (content r))).

(** ** handler.ts: the request ********************************************)

(** A JSON value.  A number is kept as its text: the code never computes
    with one. *)
Inductive Json : Type :=
| JNull
| JBool (b : bool)
| JNumber (text : string)
| JString (s : string)
| JArray (items : list Json)
| JObject (entries : list (string * Json)).

(** [JSON.parse], a function of the runtime: it returns a value or throws
    a [SyntaxError]. *)
Definition JsonParser : Type := string → Settled Json.

(** [APIGatewayProxyEvent], of which [body] alone is read. *)
Record Event : Type := mkEvent { body : option string }.

Module Input.
(** [interface AssessmentInput] *)
Record t : Type := mk {
  vendorName : string;
  vendorDescription : string;
  clientName : string;
  assessmentType : string;
  servicesUsed : string;
  dataRole : string;
  supplierFormContent : option string;     (* string | null *)
  additionalContext : option string;       (* string | null *)
}.
End Input.

Definition VALID_ASSESSMENT_TYPES : list string := ["new"; "annual-review"; "adhoc"].
Definition VALID_DATA_ROLES : list string := ["Processor"; "Controller"; "Joint Controller"].

(** [arr.includes(x)] for strings. *)
Definition includesString (arr : list string) (x : string) : bool :=
  bool_decide (x ∈ arr).

(** [obj[key]] on a [Record<string, unknown>]: [None] is [undefined]. *)
Definition property (obj : list (string * Json)) (key : string) : option Json :=
  mapGet obj key.

Definition requireString (obj : list (string * Json)) (key : string)
  : Settled string :=
  match property obj key with
  | Some (JString value) =>
      if (String.length (Js.trim value) =? 0)%nat
      then rejected (ErrorObject ("Missing or empty required field: " +:+ key))
      else fulfilled (Js.trim value)
  | _ => rejected (ErrorObject ("Missing or empty required field: " +:+ key))
  end.

Definition optionalString (obj : list (string * Json)) (key : string)
  : option string :=
  match property obj key with
  | None => None                     (* undefined *)
  | Some JNull => None
  | Some (JString value) =>
      (* value.trim() || null *)
      if Js.truthy (Js.trim value) then Some (Js.trim value) else None
  | Some _ => None
  end.

(** The parsed body as the record [parseInput] reads its fields from.
    Reading a property of [null] throws; an array, a string, a number or a
    boolean has none of the properties [parseInput] asks for. *)
Definition asRecord (parsed : Json) : Settled (list (string * Json)) :=
  match parsed with
  | JObject entries => fulfilled entries
  | JNull =>
      rejected (ErrorObject "Cannot read properties of null (reading 'vendorName')")
  | _ => fulfilled []
  end.

Definition parseInput (JSON_parse : JsonParser) (event : Event)
  : Settled Input.t :=
  match body event with
  | None | Some EmptyString =>       (* !event.body *)
      rejected (ErrorObject "Request body is required")
  | Some text =>
      parsed ← tryCatch (JSON_parse text)
                 (fun _ => rejected (ErrorObject "Invalid JSON in request body"));
      obj ← asRecord parsed;
      vendorName ← requireString obj "vendorName";
      vendorDescription ← requireString obj "vendorDescription";
      clientName ← requireString obj "clientName";
      assessmentType ← requireString obj "assessmentType";
      servicesUsed ← requireString obj "servicesUsed";
      dataRole ← requireString obj "dataRole";
      if negb (includesString VALID_ASSESSMENT_TYPES assessmentType) then
        rejected (ErrorObject ("Invalid assessmentType: " +:+ assessmentType
                               +:+ ". Must be one of: "
                               +:+ Js.join ", " VALID_ASSESSMENT_TYPES))
      else if negb (includesString VALID_DATA_ROLES dataRole) then
        rejected (ErrorObject ("Invalid dataRole: " +:+ dataRole
                               +:+ ". Must be one of: "
                               +:+ Js.join ", " VALID_DATA_ROLES))
      else
        fulfilled
          (Input.mk vendorName vendorDescription clientName assessmentType
             servicesUsed dataRole
             (optionalString obj "supplierFormContent")
             (optionalString obj "additionalContext"))
  end.

(** *** The report file name *)

Definition isAlnum (c : ascii) : bool :=
  let n := nat_of_ascii c in
  ((48 <=? n) && (n <=? 57)) || ((65 <=? n) && (n <=? 90))
  || ((97 <=? n) && (n <=? 122)).

(** [s.replace(/[^a-zA-Z0-9]+/g, '-')]: every maximal run of characters
    that are neither letters nor digits becomes one hyphen; [inRun] tells
    that the run the scan is in has been replaced already. *)
Fixpoint hyphenateFrom (inRun : bool) (s : string) : string :=
  match s with
  | EmptyString => EmptyString
  | String c r =>
      if isAlnum c then String c (hyphenateFrom false r)
      else if inRun then hyphenateFrom true r
      else String "-" (hyphenateFrom true r)
  end.

Definition hyphenate (s : string) : string := hyphenateFrom false s.

(** [s.replace(/-+$/, '')]: the hyphens that end the text are removed. *)
Fixpoint stripHyphens (s : string) : string :=
  match s with
  | EmptyString => EmptyString
  | String c r =>
      match stripHyphens r with
      | EmptyString => if decide (c = "-"%char) then EmptyString
                       else String c EmptyString
      | r' => String c r'
      end
  end.

Definition vendorSlugOf (vendorName : string) : string :=
  stripHyphens (hyphenate (Js.trim (replaceSuffix vendorName))).

Definition reportFilenameOf (vendorName today : string) : string :=
  "DPSIA-" +:+ vendorSlugOf vendorName +:+ "-" +:+ today +:+ ".docx".

(** A text of letters, digits and hyphens, with no two hyphens in a row
    and none at its end. *)
Fixpoint slugShape (s : string) : bool :=
  match s with
  | EmptyString => true
  | String c r =>
      (if decide (c = "-"%char)
       then match r with
            | EmptyString => false
            | String d _ => negb (bool_decide (d = "-"%char))
            end
       else isAlnum c)
      && slugShape r
  end.

(** A parser for the examples: it knows one request body. *)
Definition demoBody : list (string * Json) :=
  [ ("vendorName", JString "  TestVendor, Inc. ");
    ("vendorDescription", JString "A test vendor");
    ("clientName", JString "TestClient, LLC");
    ("assessmentType", JString "annual-review");
    ("servicesUsed", JString "SaaS Platform");
    ("dataRole", JString "Processor");
    ("additionalContext", JString "   ") ].

Definition demoParser : JsonParser :=
  fun text => if decide (text = "{demo}") then fulfilled (JObject demoBody)
              else rejected (ErrorObject "Unexpected token").

(** The fields [parseInput] requires, in the order it reads them. *)
Definition requiredKeys : list string :=
  ["vendorName"; "vendorDescription"; "clientName"; "assessmentType";
   "servicesUsed"; "dataRole"].

(** A required field as [parseInput] accepts it: not empty, and with no
    white space around it. *)
Definition Clean (v : string) : Prop := v ≠ "" ∧ Js.trim v = v.

(** A body without its description and its data role. *)
Definition incompleteBody : list (string * Json) :=
  [ ("vendorName", JString "TestVendor");
    ("vendorDescription", JNumber "42");
    ("clientName", JString "TestClient");
    ("assessmentType", JString "invalid") ].

Definition incompleteParser : JsonParser :=
  fun _ => fulfilled (JObject incompleteBody).

(** Letters, digits and hyphens, no two hyphens in a row; [afterHyphen]
    tells that the character before the text is a hyphen. *)
Fixpoint hyphenated (afterHyphen : bool) (s : string) : bool :=
  match s with
  | EmptyString => true
  | String c r =>
      if decide (c = "-"%char) then negb afterHyphen && hyphenated true r
      else isAlnum c && hyphenated false r
  end.

(** ** utils/secrets.ts ***************************************************)

(** [interface DPSIASecrets] *)
Record DPSIASecrets : Type := mkSecrets {
  ANTHROPIC_API_KEY : string;
  PERPLEXITY_API_KEY : string;
  GOOGLE_API_KEY : string;
  XAI_API_KEY : string;
}.

(** The two module-level variables [cached] and [cacheExpiry]. *)
Record SecretsCache : Type := mkCache {
  cached : option DPSIASecrets;
  cacheExpiry : Z;
}.

Definition emptyCache : SecretsCache := mkCache None 0.

Definition CACHE_TTL_MS : Z := 5 * 60 * 1000.

(** What one call of [getSecrets] meets: the clock when the cache is
    checked and when it is filled, [process.env], the [SecretString] of
    the reply of Secrets Manager (the awaited [client.send] may reject or
    never settle, the field may be absent), and [JSON.parse] on that
    string, cast to [Record<string, string>] ([None] is [null]). *)
Record SecretsWorld : Type := mkSecretsWorld {
  nowCheck : Z;
  nowStore : Z;
  env : gmap string string;
  secretString : Promise (option string);
  parseSecret : string → Settled (option (list (string * string)));
}.

(** [a && b && c && d] on values of [process.env]: [undefined] and the
    empty string are falsy. *)
Definition envValue (env : gmap string string) (key : string) : option string :=
  match env !! key with
  | Some v => if Js.truthy v then Some v else None
  | None => None
  end.

Definition getFromEnv (env : gmap string string) : option DPSIASecrets :=
  match envValue env "ANTHROPIC_API_KEY", envValue env "PERPLEXITY_API_KEY",
        envValue env "GOOGLE_API_KEY", envValue env "XAI_API_KEY" with
  | Some anthropic, Some perplexity, Some google, Some xai =>
      Some (mkSecrets anthropic perplexity google xai)
  | _, _, _, _ => None
  end.

Definition requireKey (obj : list (string * string)) (key : string)
  : Settled string :=
  match mapGet obj key with
  | Some value =>
      if Js.truthy value then fulfilled value
      else rejected (ErrorObject ("Missing required secret: " +:+ key))
  | None => rejected (ErrorObject ("Missing required secret: " +:+ key))
  end.

(** [getSecrets] past the cache and the environment: the call to Secrets
    Manager and the reading of its reply. *)
Definition readSecret (w : SecretsWorld) (response : option string)
  : Settled DPSIASecrets :=
  let secretName := default "dpsia-lambda/config" (env w !! "SECRETS_NAME") in
  text ← match response with
         | Some text =>
             if Js.truthy text then fulfilled text
             else rejected (ErrorObject ("Secret " +:+ secretName
                                         +:+ " has no string value"))
         | None => rejected (ErrorObject ("Secret " +:+ secretName
                                          +:+ " has no string value"))
         end;
  parsed ← parseSecret w text;
  obj ← match parsed with
        | Some obj => fulfilled obj
        | None => rejected (ErrorObject
                    "Cannot read properties of null (reading 'ANTHROPIC_API_KEY')")
        end;
  anthropic ← requireKey obj "ANTHROPIC_API_KEY";
  perplexity ← requireKey obj "PERPLEXITY_API_KEY";
  google ← requireKey obj "GOOGLE_API_KEY";
  xai ← requireKey obj "XAI_API_KEY";
  fulfilled (mkSecrets anthropic perplexity google xai).

Definition fetchSecrets (w : SecretsWorld) : Promise DPSIASecrets :=
  match secretString w with
  | Pending => Pending                 (* [client.send] never settles *)
  | Rejects reason => Rejects reason
  | Resolves response => settle (readSecret w response)
  end.

(** [getSecrets], with the module state passed in and out. *)
Definition getSecrets (st : SecretsCache) (w : SecretsWorld)
  : Promise DPSIASecrets * SecretsCache :=
  let miss :=
    match getFromEnv (env w) with
    | Some fromEnv =>
        (Resolves fromEnv, mkCache (Some fromEnv) (nowStore w + CACHE_TTL_MS))
    | None =>
        match fetchSecrets w with
        | Resolves secrets =>
            (Resolves secrets,
             mkCache (Some secrets) (nowStore w + CACHE_TTL_MS))
        | Rejects reason => (Rejects reason, st)
        | Pending => (Pending, st)
        end
    end in
  match cached st with
  | Some secrets =>
      if (nowCheck w <? cacheExpiry st)%Z then (Resolves secrets, st) else miss
  | None => miss
  end.

(** Secrets with none of the four keys empty. *)
Definition Complete (s : DPSIASecrets) : Prop :=
  ANTHROPIC_API_KEY s ≠ "" ∧ PERPLEXITY_API_KEY s ≠ ""
  ∧ GOOGLE_API_KEY s ≠ "" ∧ XAI_API_KEY s ≠ "".

(** A cache that holds nothing or complete secrets. *)
Definition CacheOk (st : SecretsCache) : Prop :=
  match cached st with
  | Some s => Complete s
  | None => True
  end.

Definition demoSecrets : DPSIASecrets :=
  mkSecrets "sk-ant" "pplx-key" "google-key" "xai-key".

(** A Lambda environment: no keys in [process.env], the secret in Secrets
    Manager. *)
Definition lambdaWorld (now : Z) : SecretsWorld :=
  {| nowCheck := now; nowStore := now + 40;
     env := {[ "SECRETS_NAME" := "dpsia-lambda/config" ]};
     secretString := Resolves (Some "{secret}");
     parseSecret := fun _ =>
       fulfilled (Some [ ("ANTHROPIC_API_KEY", "sk-ant");
                         ("PERPLEXITY_API_KEY", "pplx-key");
                         ("GOOGLE_API_KEY", "google-key");
                         ("XAI_API_KEY", "xai-key") ]) |}.

(** The same with Secrets Manager out of reach. *)
Definition unreachableWorld (now : Z) : SecretsWorld :=
  {| nowCheck := now; nowStore := now + 40;
     env := ∅;
     secretString := Rejects (ErrorObject "connect ETIMEDOUT");
     parseSecret := fun _ => rejected (ErrorObject "Unexpected token") |}.


(** The four keys in the order [getSecrets] reads them. *)
Definition secretKeys : list string :=
  [ "ANTHROPIC_API_KEY"; "PERPLEXITY_API_KEY"; "GOOGLE_API_KEY"; "XAI_API_KEY" ].

(** A key that [requireKey] accepts in [obj]. *)
Definition present (obj : list (string * string)) (key : string) : Prop :=
  ∃ value, mapGet obj key = Some value ∧ value ≠ "".

(** Successive calls of [getSecrets] in one container: the module state
    of one call is that left by the call before. *)
Fixpoint getSecretsRun (st : SecretsCache) (ws : list SecretsWorld)
  : list (Promise DPSIASecrets) * SecretsCache :=
  match ws with
  | [] => ([], st)
  | w :: ws' =>
      let '(r, st') := getSecrets st w in
      let '(rs, st'') := getSecretsRun st' ws' in
      (r :: rs, st'')
  end.

(** The cache is not used by a call: it is empty or has expired. *)
Definition Stale (st : SecretsCache) (w : SecretsWorld) : Prop :=
  cached st = None ∨ (cacheExpiry st ≤ nowCheck w)%Z.


(** ** assessment/runner.ts ***********************************************)

(** A block of [message.content]: its [type] and, for a block of type
    [text], its [text]. *)
Record ContentBlock : Type := mkBlock {
  blockType : string;
  blockText : string;
}.

(** [message.content.find(block => block.type === 'text')] *)
Definition findTextBlock (content : list ContentBlock) : option ContentBlock :=
  List.find (fun block => bool_decide (blockType block = "text")) content.

(** [/^```(?:json)?\s*\n?/] replaced by nothing: three backticks at the
    start, [json] when it follows them, and the white space after; [\s*]
    is greedy and takes line feeds too, which leaves [\n?] nothing to
    match.  A text that does not start with three backticks is kept. *)
Definition stripOpeningFence (jsonText : string) : string :=
  match jsonText with
  | String "`"%char (String "`"%char (String "`"%char rest)) =>
      Js.trimStart
        match rest with
        | String "j"%char (String "s"%char (String "o"%char (String "n"%char rest'))) =>
            rest'
        | _ => rest
        end
  | _ => jsonText
  end.

(** [/\n?```\s*$/] without its [$]; none of its characters has a case. *)
Definition closingFence : Regex.regex :=
  Regex.Seq (Regex.Opt (Regex.Chr "010"))
    (Regex.Seq (Regex.Lit "```") (Regex.Star Regex.Space)).

(** [.replace(/\n?```\s*$/, '')]: the text before the leftmost position
    from which the pattern matches to the end. *)
Fixpoint stripClosingFence (jsonText : string) : string :=
  if Regex.matchesToEnd closingFence jsonText then EmptyString
  else match jsonText with
       | EmptyString => EmptyString
       | String c rest => String c (stripClosingFence rest)
       end.

(** The text handed to [JSON.parse]. *)
Definition extractJson (text : string) : string :=
  let jsonText := Js.trim text in
  if Js.startsWith "```" jsonText
  then stripClosingFence (stripOpeningFence jsonText)
  else jsonText.

(** [s.slice(0, n)] *)
Fixpoint slice (n : nat) (s : string) : string :=
  match n, s with
  | S n', String c rest => String c (slice n' rest)
  | _, _ => EmptyString
  end.

(** [report[key]] on what [JSON.parse] returned: reading a property of
    [null] throws, a value that is no object has neither of the two
    properties read. *)
Definition reportField (report : Json) (key : string) : Settled (option Json) :=
  match report with
  | JObject entries => fulfilled (property entries key)
  | JNull =>
      rejected (ErrorObject ("Cannot read properties of null (reading '"
                             +:+ key +:+ "')"))
  | _ => fulfilled None
  end.

(** [value && allowed.includes(value)]: [includes] compares with [===],
    so only a string can pass, whatever the truthiness of other values. *)
Definition oneOf (allowed : list string) (value : option Json) : bool :=
  match value with
  | Some (JString s) => Js.truthy s && includesString allowed s
  | _ => false
  end.

(** [`${value}`]; [render] is [String] on numbers, arrays and objects. *)
Definition templateText (render : Json → string) (value : option Json) : string :=
  match value with
  | None => "undefined"
  | Some JNull => "null"
  | Some (JBool true) => "true"
  | Some (JBool false) => "false"
  | Some (JString s) => s
  | Some other => render other
  end.

Definition RAG_STATUSES : list string := ["RED"; "AMBER"; "GREEN"].
Definition RECOMMENDATIONS : list string :=
  ["APPROVE"; "CONDITIONAL_APPROVAL"; "REJECT"].

(** [runAssessment] once [client.messages.create] has resolved with a
    message of content [content]. *)
Definition readReport (content : list ContentBlock)
    (JSON_parse : JsonParser) (render : Json → string) : Settled Json :=
  textBlock ← match findTextBlock content with
              | Some block => fulfilled block
              | None => rejected (ErrorObject "No text content in Claude response")
              end;
  let jsonText := extractJson (blockText textBlock) in
  report ← tryCatch (JSON_parse jsonText)
             (fun err => rejected (ErrorObject
                ("Failed to parse DPSIA report JSON: " +:+ messageOf err
                 +:+ newline +:+ newline +:+ "Raw response:" +:+ newline
                 +:+ slice 500 jsonText)));
  ragStatus ← reportField report "ragStatus";
  if negb (oneOf RAG_STATUSES ragStatus) then
    rejected (ErrorObject ("Invalid ragStatus: " +:+ templateText render ragStatus))
  else
    recommendation ← reportField report "recommendation";
    if negb (oneOf RECOMMENDATIONS recommendation) then
      rejected (ErrorObject ("Invalid recommendation: "
                             +:+ templateText render recommendation))
    else fulfilled report.

(** [runAssessment]: the awaited [client.messages.create] resolves with a
    message, rejects, or never settles. *)
Definition runAssessment (created : Promise (list ContentBlock))
    (JSON_parse : JsonParser) (render : Json → string) : Promise Json :=
  match created with
  | Pending => Pending
  | Rejects reason => Rejects reason
  | Resolves content => settle (readReport content JSON_parse render)
  end.

Fixpoint lastChar (s : string) : option ascii :=
  match s with
  | EmptyString => None
  | String c rest =>
      match lastChar rest with
      | None => Some c
      | Some d => Some d
      end
  end.

(** A reply in a code fence: white space, the fence with or without its
    language tag, the body on lines of its own, the closing fence. *)
Definition fenced (pre lang body post : string) : string :=
  pre +:+ "```" +:+ lang +:+ newline +:+ body +:+ newline +:+ "```" +:+ post.

(** The first block of type [text] of a reply. *)
Definition FirstTextBlock (content : list ContentBlock) (block : ContentBlock)
  : Prop :=
  ∃ before after,
    content = before ++ block :: after
    ∧ blockType block = "text"
    ∧ Forall (fun b => blockType b ≠ "text") before.

(** A report [runAssessment] lets through. *)
Definition ValidReport (report : Json) : Prop :=
  ∃ entries rag rec,
    report = JObject entries
    ∧ property entries "ragStatus" = Some (JString rag) ∧ rag ∈ RAG_STATUSES
    ∧ property entries "recommendation" = Some (JString rec)
    ∧ rec ∈ RECOMMENDATIONS.


(** ** handler.ts: the handler ********************************************)

Module Output.
(** [interface AssessmentOutput], with [reportJson] as the handler adds
    it.  The fields copied from the report are whatever the report holds
    under their keys ([None] is [undefined]). *)
Record t : Type := mk {
  status : string;
  vendorName : string;
  ragStatus : option Json;
  riskScore : option Json;
  riskLevel : option Json;
  recommendation : option Json;
  executiveSummary : option Json;
  reportMarkdown : string;
  reportDocxBase64 : string;
  reportFilename : string;
  researchSources : list string;
  processingTimeMs : Z;
  error : option string;
  reportJson : option Json;
}.
End Output.

(** [APIGatewayProxyResult]: [body] is [JSON.stringify] of the output kept
    here; the headers are the same in both returns. *)
Record ProxyResult : Type := mkProxyResult {
  statusCode : Z;
  output : Output.t;
}.

(** What one invocation of [handler] meets. *)
Record Invocation : Type := mkInvocation {
  event : Event;
  JSON_parse : JsonParser;
  render : Json → string;
  secretsWorld : SecretsWorld;
  researchWorld : World;
  (* the reply of the model to a request, by input, research text and key *)
  create : Input.t → string → string → Promise (list ContentBlock);
  (* report/markdown.ts and report/docx.ts, the latter with the buffer
     already turned to base64 *)
  generateMarkdown : Input.t → Json → Settled string;
  generateDocx : Input.t → Json → Promise string;
  today : string;               (* new Date().toISOString().split('T')[0] *)
  handlerStart : Z;
  handlerEnd : Z;               (* Date.now() when the output is built *)
}.

(** The output of the [catch] block. *)
Definition errorOutput (processingTimeMs : Z) (err : Thrown) : Output.t :=
  {| Output.status := "error";
     Output.vendorName := "";
     Output.ragStatus := Some (JString "RED");
     Output.riskScore := Some (JNumber "0");
     Output.riskLevel := Some (JString "CRITICAL");
     Output.recommendation := Some (JString "REJECT");
     Output.executiveSummary := Some (JString "");
     Output.reportMarkdown := "";
     Output.reportDocxBase64 := "";
     Output.reportFilename := "";
     Output.researchSources := [];
     Output.processingTimeMs := processingTimeMs;
     Output.error := Some (messageOf err);
     Output.reportJson := None |}.

(** [report[key]] for a report that passed [runAssessment]. *)
Definition reportProperty (report : Json) (key : string) : option Json :=
  match report with
  | JObject entries => property entries key
  | _ => None
  end.

(** The output of the [try] block. *)
Definition completeOutput (input : Input.t) (report : Json)
    (research : AggregatedResults) (reportMarkdown reportDocxBase64 today : string)
    (processingTimeMs : Z) : Output.t :=
  {| Output.status := "complete";
     Output.vendorName := Input.vendorName input;
     Output.ragStatus := reportProperty report "ragStatus";
     Output.riskScore := reportProperty report "inherentRiskScore";
     Output.riskLevel := reportProperty report "inherentRiskLevel";
     Output.recommendation := reportProperty report "recommendation";
     Output.executiveSummary := reportProperty report "executiveSummary";
     Output.reportMarkdown := reportMarkdown;
     Output.reportDocxBase64 := reportDocxBase64;
     Output.reportFilename := reportFilenameOf (Input.vendorName input) today;
     Output.researchSources := allSources research;
     Output.processingTimeMs := processingTimeMs;
     Output.error := None;
     Output.reportJson := Some report |}.

(** [handler], with the secrets cache passed in and out. *)
Definition handler (st : SecretsCache) (inv : Invocation)
  : Promise ProxyResult * SecretsCache :=
  let elapsed := (handlerEnd inv - handlerStart inv)%Z in
  let caught (err : Thrown) := Resolves (mkProxyResult 500 (errorOutput elapsed err)) in
  match parseInput (JSON_parse inv) (event inv) with
  | rejected err => (caught err, st)
  | fulfilled input =>
      match getSecrets st (secretsWorld inv) with
      | (Pending, st') => (Pending, st')
      | (Rejects err, st') => (caught err, st')
      | (Resolves secrets, st') =>
          let config :=
            mkConfig (PERPLEXITY_API_KEY secrets) (GOOGLE_API_KEY secrets)
                     (XAI_API_KEY secrets) (Some 90000%Z) in
          match conductResearch (Input.vendorName input) config
                  (Some (Input.servicesUsed input)) (researchWorld inv) with
          | Pending => (Pending, st')
          | Rejects err => (caught err, st')
          | Resolves research =>
              let researchText := formatResearchForPrompt research in
              match runAssessment
                      (create inv input researchText (ANTHROPIC_API_KEY secrets))
                      (JSON_parse inv) (render inv) with
              | Pending => (Pending, st')
              | Rejects err => (caught err, st')
              | Resolves report =>
                  match generateMarkdown inv input report with
                  | rejected err => (caught err, st')
                  | fulfilled reportMarkdown =>
                      match generateDocx inv input report with
                      | Pending => (Pending, st')
                      | Rejects err => (caught err, st')
                      | Resolves reportDocxBase64 =>
                          (Resolves (mkProxyResult 200
                             (completeOutput input report research reportMarkdown
                                reportDocxBase64 (today inv) elapsed)),
                           st')
                      end
                  end
              end
          end
      end
  end.

(** Every string field of a parsed body is within the ASCII range. *)
Definition AsciiFields (obj : list (string * Json)) : Prop :=
  ∀ key raw, property obj key = Some (JString raw) → isAscii raw = true.

(** Every block of a reply of the model is within the ASCII range. *)
Definition AsciiBlocks (content : list ContentBlock) : Prop :=
  Forall (fun block => isAscii (blockText block) = true) content.

(** Every citation a provider reply carries is within the ASCII range. *)
Definition AsciiCitations (w : World) : Prop :=
  ∀ i response data cited,
    Api.reply (calls w i) = fulfilled response →
    Api.bodyJson response = fulfilled (Some data) →
    Api.citations data = Some cited →
    Forall (fun src => isAscii src = true) cited.

(** An invocation whose request fields, citations and model reply are
    within the ASCII range. *)
Definition AsciiInvocation (inv : Invocation) : Prop :=
  (∀ text obj, body (event inv) = Some text →
               JSON_parse inv text = fulfilled (JObject obj) → AsciiFields obj)
  ∧ AsciiCitations (researchWorld inv)
  ∧ (∀ input researchText key content,
       create inv input researchText key = Resolves content →
       AsciiBlocks content).

(** An input [parseInput] can have returned. *)
Definition ValidInput (input : Input.t) : Prop :=
  Clean (Input.vendorName input) ∧ Clean (Input.servicesUsed input)
  ∧ Input.assessmentType input ∈ VALID_ASSESSMENT_TYPES
  ∧ Input.dataRole input ∈ VALID_DATA_ROLES.


(** A report that passes the checks of [runAssessment]. *)
Definition demoReport : list (string * Json) :=
  [ ("ragStatus", JString "AMBER");
    ("recommendation", JString "CONDITIONAL_APPROVAL");
    ("executiveSummary", JString "Acceptable with conditions");
    ("inherentRiskScore", JNumber "12");
    ("inherentRiskLevel", JString "MEDIUM") ].

(** An invocation that runs to the end: a valid request, the secret in
    Secrets Manager, two provider calls in three answered, a fenced
    reply of the model. *)
Definition demoInvocation : Invocation :=
  {| event := mkEvent (Some "{demo}");
     JSON_parse := fun text =>
       if decide (text = "{demo}") then fulfilled (JObject demoBody)
       else if decide (text = "{report}") then fulfilled (JObject demoReport)
       else rejected (ErrorObject "Unexpected token");
     render := fun _ => "[object Object]";
     secretsWorld := lambdaWorld 1000;
     researchWorld := onlineWorld;
     create := fun _ _ _ =>
       Resolves [ mkBlock "thinking" "";
                   mkBlock "text" (fenced "" "json" "{report}" newline) ];
     generateMarkdown := fun _ _ => fulfilled "# DPSIA";
     generateDocx := fun _ _ => Resolves "UEsDBBQ=";
     today := "2026-02-06";
     handlerStart := 900;
     handlerEnd := 2000 |}.


(** The error a failed result carries says what went wrong: the abort
    message on a timeout, the message of the rejection on a network error
    or a body that is not JSON, and the status with the body text on a
    non-2xx response (or the message of the rejection when the body text
    cannot be read).  The duration is that of the call in every case. *)
Definition ExplainsFailure (search : SearchMethod) : Prop :=
  ∀ apiKey q timeoutMs c r,
    timerDelay (defaultTimeout timeoutMs) →
    search apiKey q timeoutMs c = fulfilled r →
    durationMs r = (Api.finishedAt c - Api.startedAt c)%Z
    ∧ ((defaultTimeout timeoutMs ≤ Api.latencyMs c)%Z →
       error r = Some "This operation was aborted")
    ∧ ((Api.latencyMs c < defaultTimeout timeoutMs)%Z →
       (∀ reason, Api.reply c = rejected reason →
                  error r = Some (messageOf reason))
       ∧ (∀ response, Api.reply c = fulfilled response →
            Api.ok response = false →
            error r = Some match Api.bodyText response with
                           | fulfilled errorText => httpError response errorText
                           | rejected reason => messageOf reason
                           end)
       ∧ (∀ response reason, Api.reply c = fulfilled response →
            Api.ok response = true →
            Api.bodyJson response = rejected reason →
            error r = Some (messageOf reason))).

(** A successful result of the Gemini client: no failure mode, no error,
    and a content that, when not empty, is the text of the first part of
    the content of the first candidate. *)
Definition ReadsFirstCandidate (search : SearchMethod) : Prop :=
  ∀ apiKey q timeoutMs c r,
    timerDelay (defaultTimeout timeoutMs) →
    search apiKey q timeoutMs c = fulfilled r →
    (success r = true ↔ ¬ FailureMode (defaultTimeout timeoutMs) c)
    ∧ (success r = true →
       error r = None
       ∧ ∃ response data,
           Api.reply c = fulfilled response
           ∧ Api.bodyJson response = fulfilled (Some data)
           ∧ (content r ≠ "" →
              ∃ candidate rest cont part rest',
                Api.candidates data = Some (candidate :: rest)
                ∧ Api.candidateContent candidate = Some cont
                ∧ Api.parts cont = Some (part :: rest')
                ∧ Api.text part = Some (content r))).


(** ** scripts/assess.ts: the command line ********************************)

(** A function that may end the process: it returns, or it calls
    [process.exit(code)] after writing [message] to the error stream (the
    usage text, written to the output stream, is left out). *)
Inductive Exit (A : Type) : Type :=
| Returns (value : A)
| Exits (code : Z) (message : option string).
Arguments Returns {A} value.
Arguments Exits {A} code message.

Module CLI.
(** [interface CLIArgs] *)
Record t : Type := mk {
  vendor : string;
  description : string;
  client : string;
  type : string;
  services : string;
  role : string;
  context : option string;
  supplierForm : option string;
  output : string;
}.
End CLI.

(** [arg.slice(2)] *)
Definition sliceFrom2 (arg : string) : string :=
  match arg with
  | String _ (String _ rest) => rest
  | _ => ""
  end.

(** The loop of [parseArgs] over [args] from index [i] on, with [parsed]
    as filled so far: a word that starts with two hyphens and is not the
    last takes the next word as its value, whatever that word is. *)
Fixpoint scanArgs (args : list string) (parsed : list (string * string))
  : Exit (list (string * string)) :=
  match args with
  | [] => Returns parsed
  | arg :: rest =>
      match rest with
      | value :: rest' =>
          if Js.startsWith "--" arg
          then scanArgs rest' (mapSet parsed (sliceFrom2 arg) value)
          else if bool_decide (arg = "-h") || bool_decide (arg = "--help")
               then Exits 0 None
               else scanArgs rest parsed
      | [] =>
          if bool_decide (arg = "-h") || bool_decide (arg = "--help")
          then Exits 0 None
          else scanArgs rest parsed
      end
  end.

Definition requiredArgs : list string :=
  ["vendor"; "description"; "client"; "type"; "services"; "role"].
Definition validTypes : list string := ["new"; "annual-review"; "adhoc"].
Definition validRoles : list string := ["Processor"; "Controller"; "Joint Controller"].

(** [!parsed[k]]: the key is absent or its value is empty. *)
Definition absent (parsed : list (string * string)) (k : string) : bool :=
  match mapGet parsed k with
  | Some value => negb (Js.truthy value)
  | None => true
  end.

Definition red (text : string) : string :=
  String "027" "[31m" +:+ text +:+ String "027" "[0m".

(** [parsed.key] for a key the check on [required] has found present. *)
Definition argOf (parsed : list (string * string)) (k : string) : string :=
  default "" (mapGet parsed k).

Definition parseArgs (args : list string) : Exit CLI.t :=
  match scanArgs args [] with
  | Exits code message => Exits code message
  | Returns parsed =>
      let missing := List.filter (absent parsed) requiredArgs in
      if (0 <? length missing)%nat then
        Exits 1 (Some (red ("Missing required arguments: "
                            +:+ Js.join ", " (map (fun k => "--" +:+ k) missing))
                       +:+ newline))
      else if negb (includesString validTypes (argOf parsed "type")) then
        Exits 1 (Some (red ("Invalid --type: " +:+ argOf parsed "type"
                            +:+ ". Must be: " +:+ Js.join ", " validTypes)))
      else if negb (includesString validRoles (argOf parsed "role")) then
        Exits 1 (Some (red ("Invalid --role: " +:+ argOf parsed "role"
                            +:+ ". Must be: " +:+ Js.join ", " validRoles)))
      else
        Returns {| CLI.vendor := argOf parsed "vendor";
                   CLI.description := argOf parsed "description";
                   CLI.client := argOf parsed "client";
                   CLI.type := argOf parsed "type";
                   CLI.services := argOf parsed "services";
                   CLI.role := argOf parsed "role";
                   CLI.context := mapGet parsed "context";
                   CLI.supplierForm := mapGet parsed "supplier-form";
                   CLI.output := default "." (mapGet parsed "output") |}
  end.



Definition demoArgs : list string :=
  [ "--vendor"; "Acme Corp"; "--description"; "Cloud storage provider";
    "--client"; "Your Company, LLC"; "--type"; "adhoc"; "--type"; "new";
    "--services"; "--help"; "--role"; "Processor" ].


(** ** Where the suffix pattern can start *********************************)

(** A comma or a white-space character: what the suffix pattern lets
    stand before the suffix. *)
Definition isSeparator (c : ascii) : bool :=
  Js.isSpace c || bool_decide (c = ","%char).

Fixpoint allSeparators (s : string) : bool :=
  match s with
  | EmptyString => true
  | String c r => isSeparator c && allSeparators r
  end.

Fixpoint noSeparator (s : string) : bool :=
  match s with
  | EmptyString => true
  | String c r => negb (isSeparator c) && noSeparator r
  end.

(** The text does not end with a comma or with white space. *)
Definition endsInWord (s : string) : Prop :=
  match lastChar s with
  | Some c => isSeparator c = false
  | None => True
  end.

(** * Properties *)

(** ** The query generator on examples ***********************************)

Example shortName_acme : shortNameOf "Acme Corp." = "Acme".
Proof. reflexivity. Qed.

Example shortName_jumpcloud : shortNameOf "JumpCloud, Inc." = "JumpCloud".
Proof. reflexivity. Qed.

Example shortName_upper : shortNameOf "Acme GMBH" = "Acme".
Proof. reflexivity. Qed.

Example shortName_once : shortNameOf "Acme Inc. Inc." = "Acme Inc.".
Proof. reflexivity. Qed.

Example shortName_plain : shortNameOf "  TestVendor " = "TestVendor".
Proof. reflexivity. Qed.


(** ** Promise.allSettled keeps dispatch order ***************************)

Section AllSettled.
Context {A : Type}.
Implicit Types (promises : list (Settled A)) (done completion : list nat).


Lemma slotsAfter_lookup promises done i :
  slotsAfter promises done !! i =
  (fun outcome => if decide (i ∈ done) then Some outcome else None)
    <$> promises !! i.
Proof. apply list_lookup_imap. Qed.

Lemma slotsAfter_nil promises :
  replicate (length promises) None = slotsAfter promises [].
Proof.
  apply list_eq; intros i. rewrite slotsAfter_lookup.
  destruct (promises !! i) as [o|] eqn:E; simpl.
  - apply lookup_replicate_2. by apply lookup_lt_Some in E.
  - apply lookup_ge_None. rewrite length_replicate.
    by apply lookup_ge_None in E.
Qed.

Lemma settleSlot_slotsAfter promises done i :
  settleSlot promises (slotsAfter promises done) i
  = slotsAfter promises (i :: done).
Proof.
  unfold settleSlot. rewrite slotsAfter_lookup.
  destruct (promises !! i) as [o|] eqn:E; simpl.
  - destruct (decide (i ∈ done)) as [Hin|Hnin].
    + apply list_eq; intros j. rewrite !slotsAfter_lookup.
      destruct (promises !! j) as [oj|]; simpl; [|done].
      repeat case_decide; try reflexivity; [set_solver|].
      assert (j = i) as -> by set_solver. done.
    + apply list_eq; intros j.
      destruct (decide (i = j)) as [<-|Hne].
      * rewrite list_lookup_insert_eq.
        2:{ unfold slotsAfter. rewrite length_imap. by apply lookup_lt_Some in E. }
        rewrite slotsAfter_lookup, E. simpl.
        destruct (decide (i ∈ i :: done)); [done | set_solver].
      * rewrite list_lookup_insert_ne by done.
        rewrite !slotsAfter_lookup.
        destruct (promises !! j) as [oj|]; simpl; [|done].
        repeat case_decide; try reflexivity; set_solver.
  - apply list_eq; intros j. rewrite !slotsAfter_lookup.
    destruct (promises !! j) as [oj|] eqn:Ej; simpl; [|done].
    repeat case_decide; try reflexivity; [set_solver|].
    assert (j = i) as -> by set_solver. congruence.
Qed.

Lemma foldl_settleSlot promises completion done :
  foldl (settleSlot promises) (slotsAfter promises done) completion
  = slotsAfter promises (reverse completion ++ done).
Proof.
  revert done. induction completion as [|i completion IH]; intros done; simpl.
  - done.
  - rewrite settleSlot_slotsAfter, IH, reverse_cons, <- app_assoc. done.
Qed.


(** When the combined promise resolves, it resolves with the outcomes in
    the order of the promises it was given. *)
Lemma allSettled_resolves_inv promises completion settled :
  allSettled promises completion = Resolves settled → settled = promises.
Proof.
  unfold allSettled. rewrite slotsAfter_nil, foldl_settleSlot.
  destruct (mapM id _) as [outcomes|] eqn:E; [|done].
  intros [= <-]. apply mapM_Some_1 in E.
  apply list_eq; intros i.
  destruct (outcomes !! i) as [o|] eqn:Eo.
  - destruct (Forall2_lookup_r _ _ _ i o E Eo) as (slot & Hslot & Hid).
    simpl in Hid. subst slot. rewrite slotsAfter_lookup in Hslot.
    destruct (promises !! i) as [p|]; simpl in Hslot; [|done].
    destruct (decide _); congruence.
  - destruct (promises !! i) as [p|] eqn:Ep; [|done].
    apply Forall2_length in E. unfold slotsAfter in E. rewrite length_imap in E.
    apply lookup_lt_Some in Ep. apply lookup_ge_None in Eo. lia.
Qed.

(** It does resolve once every promise has settled, whatever the order. *)
Lemma allSettled_resolves promises completion :
  everySettles (length promises) completion →
  allSettled promises completion = Resolves promises.
Proof.
  intros Hall. unfold allSettled.
  rewrite slotsAfter_nil, foldl_settleSlot, app_nil_r.
  assert (slotsAfter promises (reverse completion) = Some <$> promises) as ->.
  { apply list_eq; intros i. rewrite slotsAfter_lookup, list_lookup_fmap.
    destruct (promises !! i) as [p|] eqn:Ep; simpl; [|done].
    destruct (decide _) as [|Hn]; [done|]. exfalso. apply Hn.
    apply elem_of_reverse. unfold everySettles in Hall.
    rewrite Forall_forall in Hall. apply Hall.
    apply elem_of_seq. apply lookup_lt_Some in Ep. lia. }
  rewrite mapM_fmap_Some by done. done.
Qed.

End AllSettled.

(** ** The task list and the collected results ***************************)


Lemma buildTasks_inner p (qs : list string) (tasks : list Task) :
  foldl (fun tasks q => tasks ++ [mkTask p q]) tasks qs
  = tasks ++ map (mkTask p) qs.
Proof.
  revert tasks. induction qs as [|q qs IH]; intros tasks; simpl.
  - by rewrite app_nil_r.
  - rewrite IH, <- app_assoc. done.
Qed.

Lemma buildTasks_outer providers (acc : list Task) :
  foldl (fun tasks '(p, providerQueries) =>
           foldl (fun tasks q => tasks ++ [mkTask p q]) tasks providerQueries)
        acc providers
  = acc ++ concat (map tasksOf providers).
Proof.
  revert acc. induction providers as [|[p qs] providers IH]; intros acc; simpl.
  - by rewrite app_nil_r.
  - rewrite IH, buildTasks_inner, <- app_assoc. done.
Qed.

(** The loops flatten the table provider by provider, query by query. *)
Lemma buildTasks_flat providers :
  buildTasks providers = concat (map tasksOf providers).
Proof. unfold buildTasks. by rewrite buildTasks_outer. Qed.



(** Every task belongs to a provider of the table. *)
Lemma buildTasks_provider providers t :
  t ∈ buildTasks providers →
  ∃ entry, entry ∈ providers ∧ taskProvider t = entry.1 ∧ taskQuery t ∈ entry.2.
Proof.
  rewrite buildTasks_flat.
  induction providers as [|entry providers IH]; simpl; [by inversion 1|].
  rewrite elem_of_app. intros [Ht|Ht].
  - unfold tasksOf in Ht. apply list_elem_of_fmap in Ht as (q & -> & Hq).
    exists entry. split_and!; [left | done..].
  - destruct (IH Ht) as (entry' & ? & ? & ?).
    exists entry'. split_and!; [by right | done..].
Qed.


(** Collecting never reads past the end of [tasks]. *)
Lemma mapThrowing_collect timeoutMs w (pre suf : list Task) :
  mapThrowing (collectOutcome (pre ++ suf) w) (length pre)
    (imap (fun k t => search (taskProvider t) (taskQuery t) (Some timeoutMs)
                        (calls w (length pre + k))) suf)
  = fulfilled (imap (fun k t => resultFor timeoutMs w (length pre + k) t) suf).
Proof.
  revert pre. induction suf as [|t suf IH]; intros pre; [done|].
  rewrite !imap_cons. cbn [mapThrowing].
  specialize (IH (pre ++ [t])).
  rewrite <- app_assoc, length_app in IH. simpl in IH.
  replace (length pre + 1) with (S (length pre)) in IH by lia.
  erewrite (imap_ext _ (fun k t0 => search _ _ _ (calls w (S (length pre) + k)))),
    (imap_ext (_ ∘ S) (fun k t0 => resultFor timeoutMs w (S (length pre) + k) t0)).
  2:{ intros k x _. simpl. f_equal. lia. }
  2:{ intros k x _. simpl. do 2 f_equal. lia. }
  unfold mbind, Settled_bind. rewrite IH.
  unfold collectOutcome, resultFor. rewrite Nat.add_0_r.
  rewrite lookup_app_r, Nat.sub_diag by lia. simpl.
  by destruct (search _ _ _ _).
Qed.

Lemma collect_all timeoutMs w (tasks : list Task) :
  mapThrowing (collectOutcome tasks w) 0 (dispatch tasks timeoutMs w)
  = fulfilled (resultsFor timeoutMs w tasks).
Proof. exact (mapThrowing_collect timeoutMs w [] tasks). Qed.

(** Whenever [runResearch] resolves, its value is the aggregate of one
    result per task, in task order. *)
Lemma runResearch_resolves_inv providers timeoutMs w aggregated :
  runResearch providers timeoutMs w = Resolves aggregated →
  aggregated = aggregate (resultsFor timeoutMs w (buildTasks providers)) w.
Proof.
  unfold runResearch.
  destruct (allSettled _ _) as [|settled|] eqn:E; [done| |done].
  apply allSettled_resolves_inv in E. subst settled.
  rewrite collect_all. congruence.
Qed.

(** It resolves, and never rejects, once every task has settled. *)
Lemma runResearch_resolves providers timeoutMs w :
  everySettles (length (buildTasks providers)) (completion w) →
  runResearch providers timeoutMs w
  = Resolves (aggregate (resultsFor timeoutMs w (buildTasks providers)) w).
Proof.
  intros Hall. unfold runResearch.
  rewrite allSettled_resolves by (by unfold dispatch; rewrite length_imap).
  by rewrite collect_all.
Qed.


(** ** Counting **********************************************************)

Lemma filter_split_length {A : Type} (f : A → bool) (l : list A) :
  length (List.filter f l) + length (List.filter (fun x => negb (f x)) l)
  = length l.
Proof. induction l as [|x l IH]; simpl; [done|]. destruct (f x); simpl; lia. Qed.


Lemma resultsFor_length timeoutMs w tasks :
  length (resultsFor timeoutMs w tasks) = length tasks.
Proof. unfold resultsFor. apply length_imap. Qed.

Lemma resultsFor_lookup timeoutMs w tasks i :
  resultsFor timeoutMs w tasks !! i = resultFor timeoutMs w i <$> tasks !! i.
Proof. unfold resultsFor. apply list_lookup_imap. Qed.


(** ** The provider clients **********************************************)

(** The three clients share their control flow: case analysis on what the
    call meets settles a goal about any of them. *)
Ltac run_search c :=
  unfold PerplexityProvider.search, GeminiProvider.search, GrokProvider.search,
    tryCatch, Api.fetch, mbind, Settled_bind, await;
  destruct (Z.leb _ (Api.latencyMs c)) eqn:?;
  [ | destruct (Api.reply c) as [response|?] eqn:?;
      [ destruct (Api.ok response) eqn:?; simpl;
        [ destruct (Api.bodyJson response) as [[data|]|?] eqn:?
        | destruct (Api.bodyText response) as [errorText|?] eqn:? ]
      | ] ].

Lemma failureMode_ok timeoutMs c response data :
  (timeoutMs <=? Api.latencyMs c)%Z = false →
  Api.reply c = fulfilled response → Api.ok response = true →
  Api.bodyJson response = fulfilled (Some data) →
  ¬ FailureMode timeoutMs c.
Proof.
  intros Hlat Hreply Hok Hjson
    [Ht|e He|resp Hr Hk|resp e Hr Hk Hj|resp Hr Hk Hj].
  - apply Z.leb_gt in Hlat. lia.
  - congruence.
  - congruence.
  - congruence.
  - congruence.
Qed.

Lemma perplexity_never_raises : NeverRaises PerplexityProvider.search.
Proof.
  intros apiKey q timeoutMs c. run_search c; eexists; (split; [reflexivity|]);
    try solve [intros _; simpl; eauto].
  intros Hf. by eapply failureMode_ok in Hf.
Qed.





(** ** The orchestrator **************************************************)


Lemma providerTable_tasks config queries :
  length (buildTasks (providerTable config queries)) = 9.
Proof.
  unfold providerTable, queryList.
  by destruct queries as [[[? ?] ?] [[? ?] ?] [[? ?] ?]].
Qed.








(** C3 -- the counts.  In every value the orchestrator resolves with
    ([conductResearch] is [runResearch] at the table of the three clients),
    [successCount] is the number of results whose flag is set and
    [failureCount] the number of those whose flag is not; the two are
    natural numbers, they add up to the number of results, and that is the
    number of tasks. *)
Theorem counts_partition_results providers timeoutMs w aggregated :
  runResearch providers timeoutMs w = Resolves aggregated →
  successCount aggregated
  = length (List.filter success (results aggregated))
  ∧ failureCount aggregated
    = length (List.filter (fun r => negb (success r)) (results aggregated))
  ∧ successCount aggregated + failureCount aggregated
    = length (results aggregated)
  ∧ 0 ≤ successCount aggregated ∧ 0 ≤ failureCount aggregated
  ∧ successCount aggregated + failureCount aggregated
    ≤ length (buildTasks providers).
Proof.
  intros ->%runResearch_resolves_inv.
  cbn [results successCount failureCount aggregate].
  pose proof (filter_split_length success
                (resultsFor timeoutMs w (buildTasks providers))) as Hsum.
  pose proof (resultsFor_length timeoutMs w (buildTasks providers)) as Hlen.
  split_and!; try done; lia.
Qed.

Lemma counts_partition_results_witness :
  ∃ aggregated,
    conductResearch "Acme Corp." demoConfig None onlineWorld = Resolves aggregated
    ∧ successCount aggregated = 6 ∧ failureCount aggregated = 3
    ∧ successCount aggregated + failureCount aggregated
      = length (results aggregated).
Proof.
  eexists. split; [vm_compute; reflexivity|].
  split; [reflexivity|]. split; [reflexivity|].
  eapply (counts_partition_results
            (providerTable demoConfig (generateQueries "Acme Corp." None))
            5000 onlineWorld).
  vm_compute. reflexivity.
Defined.

(** ** Source deduplication **********************************************)

Lemma firstSeen_fresh before srcs e :
  e ∈ firstSeen before srcs → normalise e ∉ normalise <$> before.
Proof.
  revert before. induction srcs as [|src rest IH]; intros before; simpl.
  - by inversion 1.
  - case_decide as Hseen.
    + intros He%IH. rewrite fmap_app in He. set_solver.
    + rewrite elem_of_cons. intros [->|He%IH]; [done|].
      rewrite fmap_app in He. set_solver.
Qed.

Lemma firstSeen_NoDup before srcs :
  NoDup (normalise <$> firstSeen before srcs).
Proof.
  revert before. induction srcs as [|src rest IH]; intros before; simpl.
  - constructor.
  - case_decide as Hseen; [apply IH|].
    rewrite fmap_cons. constructor; [|apply IH].
    intros (e & Hk & He%firstSeen_fresh)%list_elem_of_fmap.
    rewrite fmap_app in He. apply He. rewrite elem_of_app. right.
    rewrite <- Hk. set_solver.
Qed.

Lemma firstSeen_sublist before srcs : sublist (firstSeen before srcs) srcs.
Proof.
  revert before. induction srcs as [|src rest IH]; intros before; simpl.
  - constructor.
  - case_decide; [apply sublist_cons | apply sublist_skip]; apply IH.
Qed.

(** Every string of [srcs] with a normal form not seen before is
    represented by the first string of [srcs] with that normal form. *)
Lemma firstSeen_covers before srcs s :
  s ∈ srcs → normalise s ∉ normalise <$> before →
  ∃ e, e ∈ firstSeen before srcs ∧ FirstWith srcs (normalise s) e.
Proof.
  revert before. induction srcs as [|src rest IH]; intros before Hs Hnew.
  - by inversion Hs.
  - simpl. destruct (decide (normalise src = normalise s)) as [Heq|Hne].
    + rewrite decide_False by (by rewrite Heq).
      exists src. split; [left|]. exists [], rest. split_and!; [done|done|].
      simpl. by inversion 1.
    + assert (s ∈ rest) as Hrest.
      { apply elem_of_cons in Hs as [->|?]; done. }
      destruct (IH (before ++ [src]) Hrest) as (e & He & pre & post & -> & Hk & Hpre).
      { rewrite fmap_app, elem_of_app. intros [?|Hin]; [done|].
        simpl in Hin. apply list_elem_of_singleton in Hin. congruence. }
      exists e. split.
      * case_decide; [done | by right].
      * exists (src :: pre), post. split_and!; [done|done|].
        rewrite fmap_cons, elem_of_cons. intros [?|?]; [congruence|done].
Qed.

Lemma filter_key_absent (l : list string) k :
  k ∉ normalise <$> l → filter (fun x => normalise x = k) l = [].
Proof.
  induction l as [|x l IH]; [done|].
  rewrite fmap_cons, not_elem_of_cons. intros [Hx Hl].
  rewrite filter_cons_False by congruence. by apply IH.
Qed.

(** Among entries with pairwise distinct normal forms, exactly one has
    the normal form of a given entry: that entry. *)
Lemma filter_key_singleton (l : list string) e :
  NoDup (normalise <$> l) → e ∈ l →
  filter (fun x => normalise x = normalise e) l = [e].
Proof.
  induction l as [|x l IH]; intros Hnd He; [by inversion He|].
  rewrite fmap_cons in Hnd. apply NoDup_cons in Hnd as [Hx Hnd].
  destruct (decide (normalise x = normalise e)) as [Heq|Hne].
  - rewrite filter_cons_True by done.
    assert (e = x) as ->.
    { apply elem_of_cons in He as [->|He]; [done|]. exfalso. apply Hx.
      rewrite Heq. by apply list_elem_of_fmap_2. }
    f_equal. by apply filter_key_absent.
  - rewrite filter_cons_False by done.
    apply elem_of_cons in He as [->|He]; [done|]. by apply IH.
Qed.

(** The loop with its [seen] set computes the first-seen strings. *)
Lemma addSource_firstSeen srcs before (acc : list string) (seen : gset string) :
  (∀ k, k ∈ seen ↔ k ∈ normalise <$> before) →
  ∃ seen' : gset string,
    foldl addSource (acc, seen) srcs = (acc ++ firstSeen before srcs, seen')
    ∧ (∀ k, k ∈ seen' ↔ k ∈ normalise <$> (before ++ srcs)).
Proof.
  revert before acc seen.
  induction srcs as [|src rest IH]; intros before acc seen Hseen; simpl.
  - exists seen. by rewrite !app_nil_r.
  - destruct (decide (normalise src ∈ seen)) as [Hin|Hnin].
    + rewrite decide_True by (by apply Hseen).
      destruct (IH (before ++ [src]) acc seen) as (seen' & -> & Hseen').
      { intros k. rewrite Hseen, fmap_app, elem_of_app. set_solver. }
      exists seen'. split; [done|]. intros k.
      by rewrite Hseen', <- app_assoc.
    + rewrite decide_False by (by rewrite <- Hseen).
      destruct (IH (before ++ [src]) (acc ++ [src]) ({[normalise src]} ∪ seen))
        as (seen' & -> & Hseen').
      { intros k. rewrite elem_of_union, Hseen, fmap_app, elem_of_app.
        set_solver. }
      exists seen'. split; [by rewrite <- app_assoc|]. intros k.
      by rewrite Hseen', <- app_assoc.
Qed.

Lemma firstSeen_app before l tl :
  firstSeen before (l ++ tl) = firstSeen before l ++ firstSeen (before ++ l) tl.
Proof.
  revert before. induction l as [|s l IH]; intros before; simpl.
  - by rewrite app_nil_r.
  - case_decide; simpl; rewrite IH, <- app_assoc; done.
Qed.

Lemma collectSources_loop rs before (acc : list string) (seen : gset string) :
  (∀ k, k ∈ seen ↔ k ∈ normalise <$> before) →
  (foldl (fun st r => foldl addSource st (sources r)) (acc, seen) rs).1
  = acc ++ firstSeen before (citedSources rs).
Proof.
  revert before acc seen.
  induction rs as [|r rs IH]; intros before acc seen Hseen; simpl.
  - by rewrite app_nil_r.
  - destruct (addSource_firstSeen (sources r) before acc seen Hseen)
      as (seen' & -> & Hseen').
    rewrite (IH _ _ _ Hseen'), <- app_assoc. f_equal.
    unfold citedSources. simpl. by rewrite firstSeen_app.
Qed.

Lemma collectSources_firstSeen rs :
  collectSources rs = firstSeen [] (citedSources rs).
Proof.
  unfold collectSources. rewrite (collectSources_loop rs []); [done|].
  intros k. set_solver.
Qed.

Lemma collectSources_origin rs src :
  src ∈ collectSources rs → ∃ r, r ∈ rs ∧ src ∈ sources r.
Proof.
  rewrite collectSources_firstSeen.
  intros Hsrc. pose proof (firstSeen_sublist [] (citedSources rs)) as Hsub.
  apply (elem_of_sublist _ _ _ Hsrc) in Hsub.
  unfold citedSources in Hsub. clear Hsrc.
  induction rs as [|r rs IH]; simpl in Hsub; [by inversion Hsub|].
  apply elem_of_app in Hsub as [Hr|Hrs].
  - exists r. split; [left | done].
  - destruct (IH Hrs) as (r' & Hin & Hsrc). exists r'. split; [by right | done].
Qed.

(** C5 -- source deduplication.  In every value the orchestrator resolves
    with ([conductResearch] is [runResearch] at the table of the three
    clients) whose citations are within the ASCII range, [allSources] is
    the list of first-seen citations of the results
    taken in dispatch order: the literal strings, in the order they were
    met, no two with the same trimmed and lower-cased form; and for every
    cited string exactly one entry of [allSources] has its normal form,
    namely the first cited string that has it. *)
Theorem sources_collapse_to_first_seen providers timeoutMs w aggregated :
  runResearch providers timeoutMs w = Resolves aggregated →
  Forall (fun src => isAscii src = true) (citedSources (results aggregated)) →
  let cited := citedSources (results aggregated) in
  allSources aggregated = firstSeen [] cited
  ∧ sublist (allSources aggregated) cited
  ∧ NoDup (normalise <$> allSources aggregated)
  ∧ (∀ s, s ∈ cited →
       ∃ e, FirstWith cited (normalise s) e
            ∧ filter (fun x => normalise x = normalise s) (allSources aggregated)
              = [e]).
Proof.
  intros Hrun _ cited. apply runResearch_resolves_inv in Hrun.
  subst aggregated. cbn [results aggregate] in cited.
  cbn [allSources aggregate]. rewrite collectSources_firstSeen. fold cited.
  split_and!.
  - done.
  - apply firstSeen_sublist.
  - apply firstSeen_NoDup.
  - intros s Hs.
    destruct (firstSeen_covers [] cited s Hs) as (e & He & Hfirst).
    { simpl. by inversion 1. }
    exists e. split; [done|].
    destruct Hfirst as (pre & post & _ & Hk & _). rewrite <- Hk.
    apply filter_key_singleton; [apply firstSeen_NoDup | done].
Qed.

Lemma sources_collapse_witness :
  ∃ aggregated,
    conductResearch "Acme Corp." demoConfig None onlineWorld = Resolves aggregated
    ∧ citedSources (results aggregated)
      = ["https://example.com"; " HTTPS://Example.COM "; "https://b.example";
         "https://example.com"; " HTTPS://Example.COM "; "https://b.example"]
    ∧ allSources aggregated = ["https://example.com"; "https://b.example"]
    ∧ NoDup (normalise <$> allSources aggregated).
Proof.
  eexists. split; [vm_compute; reflexivity|].
  split; [reflexivity|]. split; [reflexivity|].
  eapply (sources_collapse_to_first_seen
            (providerTable demoConfig (generateQueries "Acme Corp." None))
            5000 onlineWorld).
  - vm_compute. reflexivity.
  - vm_compute. repeat constructor.
Defined.

(** ** Results and the tasks they answer *********************************)

Lemma perplexity_echoes apiKey : Echoes (PerplexityProvider.new apiKey).
Proof.
  intros q timeoutMs c r. simpl. run_search c; by intros [= <-].
Qed.

Lemma gemini_echoes apiKey : Echoes (GeminiProvider.new apiKey).
Proof.
  intros q timeoutMs c r. simpl. run_search c; by intros [= <-].
Qed.

Lemma grok_echoes apiKey : Echoes (GrokProvider.new apiKey).
Proof.
  intros q timeoutMs c r. simpl. run_search c; by intros [= <-].
Qed.

Lemma providerTable_echoes config queries :
  Forall (fun entry => Echoes entry.1) (providerTable config queries).
Proof.
  unfold providerTable.
  apply Forall_cons_2; [apply perplexity_echoes|].
  apply Forall_cons_2; [apply gemini_echoes|].
  apply Forall_cons_2; [apply grok_echoes|].
  apply Forall_nil_2.
Qed.

(** Over providers that echo, every result names its task's provider and
    repeats its task's query, a synthesized one included. *)
Lemma resultFor_echoes timeoutMs w i t :
  Echoes (taskProvider t) →
  provider (resultFor timeoutMs w i t) = name (taskProvider t)
  ∧ query (resultFor timeoutMs w i t) = taskQuery t.
Proof.
  intros Hecho. unfold resultFor.
  destruct (search _ _ _ _) as [v|reason] eqn:E; [|done].
  by apply Hecho in E.
Qed.

Lemma runResearch_echoes providers timeoutMs w aggregated :
  Forall (fun entry => Echoes entry.1) providers →
  runResearch providers timeoutMs w = Resolves aggregated →
  Forall2 (fun t r => provider r = name (taskProvider t) ∧ query r = taskQuery t)
          (buildTasks providers) (results aggregated).
Proof.
  intros Hecho ->%runResearch_resolves_inv. cbn [results aggregate].
  apply Forall2_same_length_lookup. split; [by rewrite resultsFor_length|].
  intros i t r Ht Hr. rewrite resultsFor_lookup, Ht in Hr. injection Hr as <-.
  apply resultFor_echoes.
  apply list_elem_of_lookup_2, buildTasks_provider in Ht as (entry & Hin & -> & _).
  rewrite Forall_forall in Hecho. by apply Hecho.
Qed.

Lemma rejectingProvider_echoes : Echoes rejectingProvider.
Proof. by intros q timeoutMs c r. Qed.

Lemma demoTable_echoes : Forall (fun entry => Echoes entry.1) demoTable.
Proof.
  unfold demoTable.
  apply Forall_cons_2; [apply rejectingProvider_echoes|].
  apply Forall_cons_2; [apply grok_echoes|].
  apply Forall_nil_2.
Qed.

(** C9 -- every result answers its task.  Each of the three clients, in
    its success branch and in its failure branches, returns a result whose
    [provider] is the client's name and whose [query] is the query it was
    given.  Over any table of providers whose results do so, in every
    value the orchestrator resolves with, the result at each position
    carries the provider name and the query of the task dispatched at
    that position, whether the task's promise was fulfilled or rejected:
    the result the orchestrator builds for a rejected promise is built
    from the task.  [conductResearch] is the case of the three clients. *)
Theorem results_carry_provider_and_query :
  (∀ apiKey, Echoes (PerplexityProvider.new apiKey))
  ∧ (∀ apiKey, Echoes (GeminiProvider.new apiKey))
  ∧ (∀ apiKey, Echoes (GrokProvider.new apiKey))
  ∧ (∀ providers timeoutMs w aggregated,
       Forall (fun entry => Echoes entry.1) providers →
       runResearch providers timeoutMs w = Resolves aggregated →
       Forall2 (fun t r => provider r = name (taskProvider t)
                           ∧ query r = taskQuery t)
         (buildTasks providers) (results aggregated))
  ∧ (∀ vendorName config servicesUsed w aggregated,
       conductResearch vendorName config servicesUsed w = Resolves aggregated →
       Forall2 (fun t r => provider r = name (taskProvider t)
                           ∧ query r = taskQuery t)
         (buildTasks (providerTable config
                        (generateQueries vendorName servicesUsed)))
         (results aggregated)).
Proof.
  split_and!.
  - apply perplexity_echoes.
  - apply gemini_echoes.
  - apply grok_echoes.
  - apply runResearch_echoes.
  - intros vendorName config servicesUsed w aggregated Hrun.
    eapply runResearch_echoes; [apply providerTable_echoes | exact Hrun].
Qed.

Lemma results_carry_witness :
  ∃ aggregated,
    runResearch demoTable 5000 offlineWorld = Resolves aggregated
    ∧ (∀ q, search rejectingProvider q (Some 5000%Z) (calls offlineWorld 0)
            = rejected (NonError "socket hang up"))
    ∧ (provider <$> results aggregated !! 0) = Some "Flaky"
    ∧ (query <$> results aggregated !! 0) = Some "first"
    ∧ Forall2 (fun t r => provider r = name (taskProvider t)
                          ∧ query r = taskQuery t)
        (buildTasks demoTable) (results aggregated).
Proof.
  eexists. split; [vm_compute; reflexivity|].
  split; [reflexivity|]. split; [reflexivity|]. split; [reflexivity|].
  destruct results_carry_provider_and_query as (_ & _ & _ & Hany & _).
  apply (Hany demoTable 5000%Z offlineWorld).
  - apply demoTable_echoes.
  - vm_compute. reflexivity.
Defined.

(** ** Where sources come from *******************************************)

Lemma gemini_sourceless apiKey : Sourceless (GeminiProvider.new apiKey).
Proof. intros q timeoutMs c. simpl. run_search c; by eexists. Qed.

Lemma grok_sourceless apiKey : Sourceless (GrokProvider.new apiKey).
Proof. intros q timeoutMs c. simpl. run_search c; by eexists. Qed.

Lemma perplexity_fulfils apiKey q timeoutMs c :
  ∃ r, PerplexityProvider.search apiKey q timeoutMs c = fulfilled r.
Proof. destruct (perplexity_never_raises apiKey q timeoutMs c) as (r & ? & _); eauto. Qed.

(** C10 -- only Perplexity results carry sources.  The Gemini and Grok
    clients return a result with an empty [sources] list in every branch;
    so every entry of [allSources] in a value [conductResearch] resolves
    with is a source of a result whose provider is Perplexity. *)
Theorem sources_come_from_perplexity :
  (∀ apiKey, Sourceless (GeminiProvider.new apiKey))
  ∧ (∀ apiKey, Sourceless (GrokProvider.new apiKey))
  ∧ (∀ vendorName config servicesUsed w aggregated,
       conductResearch vendorName config servicesUsed w = Resolves aggregated →
       ∀ src, src ∈ allSources aggregated →
         ∃ r, r ∈ results aggregated
              ∧ provider r = "Perplexity" ∧ src ∈ sources r).
Proof.
  split_and!; [apply gemini_sourceless | apply grok_sourceless |].
  intros vendorName config servicesUsed w aggregated Hrun src Hsrc.
  unfold conductResearch in Hrun.
  apply runResearch_resolves_inv in Hrun. subst aggregated.
  cbn [allSources results aggregate] in *.
  apply collectSources_origin in Hsrc as (r & Hr & Hsrc).
  exists r. split_and!; [done| |done].
  apply list_elem_of_lookup in Hr as (i & Hi).
  rewrite resultsFor_lookup in Hi.
  destruct (buildTasks _ !! i) as [t|] eqn:Et; [|done]. injection Hi as <-.
  apply list_elem_of_lookup_2, buildTasks_provider in Et
    as (entry & Hin & Hp & _).
  unfold providerTable in Hin. unfold resultFor in *. rewrite Hp in *.
  set (timeout := default 90000%Z (timeoutMs config)) in *.
  repeat (apply elem_of_cons in Hin as [->|Hin]); [| | |by inversion Hin];
    simpl in *.
  - destruct (perplexity_fulfils (perplexityApiKey config) (taskQuery t)
                (Some timeout) (calls w i)) as (r & Hr).
    rewrite Hr in *.
    by apply (perplexity_echoes (perplexityApiKey config)) in Hr as [? _].
  - destruct (gemini_sourceless (googleApiKey config) (taskQuery t)
                (Some timeout) (calls w i)) as (r & Hr & Hnil).
    simpl in Hr. rewrite Hr, Hnil in Hsrc. by inversion Hsrc.
  - destruct (grok_sourceless (xaiApiKey config) (taskQuery t)
                (Some timeout) (calls w i)) as (r & Hr & Hnil).
    simpl in Hr. rewrite Hr, Hnil in Hsrc. by inversion Hsrc.
Qed.

Lemma sources_come_from_perplexity_witness :
  ∃ aggregated,
    conductResearch "Acme Corp." demoConfig None onlineWorld = Resolves aggregated
    ∧ "https://b.example" ∈ allSources aggregated
    ∧ ∃ r, r ∈ results aggregated
           ∧ provider r = "Perplexity" ∧ "https://b.example" ∈ sources r.
Proof.
  eexists. split; [vm_compute; reflexivity|].
  assert ("https://b.example" ∈
          ["https://example.com"; "https://b.example"]) as Hin
    by (right; left).
  split; [exact Hin|].
  destruct sources_come_from_perplexity as (_ & _ & Hrun).
  apply (Hrun "Acme Corp." demoConfig None onlineWorld); [|exact Hin].
  vm_compute. reflexivity.
Defined.

(** ** The prompt formatter **********************************************)

Lemma push_sources (sections srcs : list string) :
  foldl (fun sections src => sections ++ ["- " +:+ src]) sections srcs
  = sections ++ map (fun src => "- " +:+ src) srcs.
Proof.
  revert sections. induction srcs as [|src srcs IH]; intros sections; simpl.
  - by rewrite app_nil_r.
  - by rewrite IH, <- app_assoc.
Qed.

(** The pushes made for one result are the lines [emittedFor] lists. *)
Lemma pushResult_emits sections r :
  pushResult sections r = sections ++ emittedFor r.
Proof.
  unfold pushResult, emittedFor.
  destruct (success r); simpl.
  - destruct (content r) as [|c s]; simpl; [by rewrite app_nil_r|].
    destruct (sources r) as [|src srcs]; simpl.
    + by rewrite <- !app_assoc.
    + rewrite push_sources, <- !app_assoc. done.
  - by rewrite <- app_assoc.
Qed.

Lemma pushResults_emit sections rs :
  foldl pushResult sections rs = sections ++ concat (map emittedFor rs).
Proof.
  revert sections. induction rs as [|r rs IH]; intros sections; simpl.
  - by rewrite app_nil_r.
  - by rewrite IH, pushResult_emits, <- app_assoc.
Qed.

Lemma pushProviders_emit sections groups :
  foldl pushProvider sections groups
  = sections ++ concat (map sectionFor groups).
Proof.
  revert sections. induction groups as [|[p rs] groups IH]; intros sections; simpl.
  - by rewrite app_nil_r.
  - rewrite IH, pushResults_emit. unfold sectionFor. simpl.
    by rewrite <- !app_assoc.
Qed.

(** *** The [Map] groups results by provider, in first-seen order *)

Lemma spreadSet_snoc xs x :
  spreadSet (xs ++ [x])
  = if decide (x ∈ spreadSet xs) then spreadSet xs else spreadSet xs ++ [x].
Proof. unfold spreadSet. by rewrite foldl_snoc. Qed.

Lemma elem_of_spreadSet xs x : x ∈ spreadSet xs ↔ x ∈ xs.
Proof.
  induction xs as [|y xs IH] using rev_ind; [done|].
  rewrite spreadSet_snoc. case_decide as Hin.
  - rewrite elem_of_app, list_elem_of_singleton, IH.
    split; [by left|]. intros [?| ->]; [done|]. by apply IH.
  - by rewrite !elem_of_app, IH.
Qed.

Lemma NoDup_spreadSet xs : NoDup (spreadSet xs).
Proof.
  induction xs as [|y xs IH] using rev_ind; [constructor|].
  rewrite spreadSet_snoc. case_decide as Hin; [done|].
  apply NoDup_app. split_and!; [done| |apply NoDup_singleton].
  intros z Hz Hy%list_elem_of_singleton. by subst z.
Qed.

Section MapOfGroups.
  Context {V : Type} (g : string → V).
  Implicit Types (ks : list string) (k : string) (v : V).

Lemma mapGet_groups ks k :
  mapGet (map (fun p => (p, g p)) ks) k
  = if decide (k ∈ ks) then Some (g k) else None.
Proof.
  induction ks as [|p ks IH]; cbn [map mapGet].
  - rewrite decide_False; [done | by inversion 1].
  - destruct (decide (p = k)) as [->|Hne].
    + rewrite decide_True; [done | left].
    + rewrite IH. repeat case_decide; try reflexivity; set_solver.
Qed.

Lemma mapSet_groups_new ks k v :
  k ∉ ks →
  mapSet (map (fun p => (p, g p)) ks) k v = map (fun p => (p, g p)) ks ++ [(k, v)].
Proof.
  induction ks as [|p ks IH]; cbn [map mapSet app]; [done|].
  rewrite not_elem_of_cons. intros [Hne Hnin].
  rewrite decide_False by done. by rewrite IH.
Qed.

Lemma mapSet_groups_old ks k v :
  NoDup ks → k ∈ ks →
  mapSet (map (fun p => (p, g p)) ks) k v
  = map (fun p => (p, if decide (p = k) then v else g p)) ks.
Proof.
  induction ks as [|p ks IH]; intros Hnd Hin; [by inversion Hin|].
  apply NoDup_cons in Hnd as [Hp Hnd]. cbn [map mapSet].
  destruct (decide (p = k)) as [->|Hne].
  - f_equal. apply map_ext_in. intros q Hq%list_elem_of_In.
    rewrite decide_False; [done|]. by intros ->.
  - f_equal. apply IH; [done|]. apply elem_of_cons in Hin as [->|?]; done.
Qed.

End MapOfGroups.

Lemma groupByProvider_snoc rs r :
  groupByProvider (rs ++ [r])
  = mapSet (groupByProvider rs) (provider r)
      (default [] (mapGet (groupByProvider rs) (provider r)) ++ [r]).
Proof. unfold groupByProvider. by rewrite foldl_snoc. Qed.

Lemma filter_provider_absent rs p :
  p ∉ map provider rs → filter (fun r => provider r = p) rs = [].
Proof.
  induction rs as [|r rs IH]; [done|]. simpl.
  rewrite not_elem_of_cons. intros [Hne Hnin].
  rewrite filter_cons_False by done. by apply IH.
Qed.

(** The [Map] the formatter builds holds the groups of [groupsOf]. *)
Lemma groupByProvider_groups rs : groupByProvider rs = groupsOf rs.
Proof.
  induction rs as [|r rs IH] using rev_ind; [done|].
  rewrite groupByProvider_snoc, IH. unfold groupsOf.
  rewrite map_app. simpl. rewrite spreadSet_snoc.
  rewrite (mapGet_groups (fun p => filter (fun r0 => provider r0 = p) rs)).
  case_decide as Hin.
  - simpl.
    rewrite (mapSet_groups_old (fun p => filter (fun r0 => provider r0 = p) rs))
      by (apply NoDup_spreadSet || done).
    apply map_ext_in. intros p _. f_equal.
    rewrite filter_app. case_decide as Hp.
    + subst p. by rewrite filter_cons_True, filter_nil.
    + rewrite filter_cons_False, filter_nil, app_nil_r; [done|congruence].
  - simpl.
    rewrite (mapSet_groups_new (fun p => filter (fun r0 => provider r0 = p) rs))
      by done.
    rewrite map_app. simpl. f_equal.
    + apply map_ext_in. intros p Hp%list_elem_of_In.
      f_equal. rewrite filter_app, filter_cons_False, filter_nil, app_nil_r; [done|].
      intros Heq. apply Hin. by rewrite Heq.
    + rewrite filter_app, filter_cons_True, filter_nil by done.
      rewrite filter_provider_absent; [done|].
      by rewrite <- elem_of_spreadSet.
Qed.

(** C8 -- what the formatter emits for a result.  The text is the join of
    the sections of the provider groups, each a header followed by what
    its results contribute in order.  A successful result with content
    contributes its query line, its content, the bulleted list of its
    sources under a heading when it has sources, and a separator; a failed
    result contributes its query line and a failure marker with the error
    text; a successful result with empty content contributes nothing. *)
Theorem formatter_emits_per_result :
  (∀ aggregated,
     formatResearchForPrompt aggregated
     = Js.join newline
         (concat (map sectionFor (groupsOf (results aggregated)))))
  ∧ (∀ sections r, pushResult sections r = sections ++ emittedFor r)
  ∧ (∀ r, success r = true → content r ≠ "" →
       emittedFor r
       = ["**Query:** " +:+ query r +:+ newline; content r]
           ++ sourcesBlock (sources r) ++ [""])
  ∧ (∀ srcs, srcs ≠ [] →
       sourcesBlock srcs
       = (newline +:+ "**Sources:**") :: map (fun src => "- " +:+ src) srcs)
  ∧ sourcesBlock [] = []
  ∧ (∀ r msg, success r = false → error r = Some msg →
       emittedFor r
       = ["**Query:** " +:+ query r; "*Failed: " +:+ msg +:+ "*" +:+ newline])
  ∧ (∀ r, success r = true → content r = "" → emittedFor r = []).
Proof.
  split_and!.
  - intros aggregated. unfold formatResearchForPrompt.
    by rewrite pushProviders_emit, groupByProvider_groups.
  - apply pushResult_emits.
  - intros r Hs Hc. unfold emittedFor. rewrite Hs. by destruct (content r).
  - intros srcs Hne. by destruct srcs.
  - done.
  - intros r msg Hs He. unfold emittedFor. by rewrite Hs, He.
  - intros r Hs Hc. unfold emittedFor. by rewrite Hs, Hc.
Qed.

Lemma formatter_emits_witness :
  emittedFor citedDemo
  = ["**Query:** test query 1" +:+ newline; "Found certifications";
     newline +:+ "**Sources:**"; "- https://example.com"; ""]
  ∧ emittedFor failedDemo
    = ["**Query:** test"; "*Failed: API timeout*" +:+ newline]
  ∧ emittedFor hollowDemo = []
  ∧ formatResearchForPrompt formatterDemo
    = Js.join newline
        ["### Perplexity (Web Search with Citations)" +:+ newline;
         "**Query:** test query 1" +:+ newline; "Found certifications";
         newline +:+ "**Sources:**"; "- https://example.com"; "";
         "**Query:** test"; "*Failed: API timeout*" +:+ newline;
         "### Gemini (Multi-Perspective Analysis)" +:+ newline].
Proof.
  destruct formatter_emits_per_result
    as (Htext & _ & Hcontent & Hsources & _ & Hfailed & Hhollow).
  split_and!.
  - rewrite (Hcontent citedDemo) by done.
    rewrite (Hsources (sources citedDemo)) by done. reflexivity.
  - apply (Hfailed failedDemo "API timeout"); reflexivity.
  - apply (Hhollow hollowDemo); reflexivity.
  - rewrite (Htext formatterDemo). vm_compute. reflexivity.
Defined.

(** ** Strings ***********************************************************)

Lemma string_app_cons (x : ascii) (a b : string) :
  String x a +:+ b = String x (a +:+ b).
Proof. reflexivity. Qed.

Lemma string_app_nil_l (b : string) : "" +:+ b = b.
Proof. reflexivity. Qed.

Lemma string_app_assoc (a b c : string) : (a +:+ b) +:+ c = a +:+ (b +:+ c).
Proof.
  induction a as [|x a IH]; [done|]. by rewrite !string_app_cons, IH.
Qed.

Lemma string_app_nil_r (a : string) : a +:+ "" = a.
Proof. induction a as [|x a IH]; [done|]. by rewrite string_app_cons, IH. Qed.

Lemma string_length_app (a b : string) :
  String.length (a +:+ b) = String.length a + String.length b.
Proof.
  induction a as [|x a IH]; [done|]. rewrite string_app_cons. simpl.
  by rewrite IH.
Qed.

Lemma string_app_longer (pre mid post : string) :
  mid ≠ "" → pre +:+ mid +:+ post ≠ pre +:+ post.
Proof.
  intros Hmid Heq. apply (f_equal String.length) in Heq.
  rewrite !string_length_app in Heq.
  destruct mid; [done|]. simpl in Heq. lia.
Qed.

Lemma string_app_nonempty (a b : string) : b ≠ "" → a +:+ b ≠ "".
Proof.
  intros Hb Heq. apply (f_equal String.length) in Heq.
  rewrite string_length_app in Heq. destruct b; [done|]. simpl in Heq. lia.
Qed.

(** ** The query generator ***********************************************)

Lemma serviceContextOf_given s : s ≠ "" → serviceContextOf (Some s) = " " +:+ s.
Proof. intros Hs. unfold serviceContextOf. by destruct s. Qed.

Ltac one_slot :=
  split_and!;
  [ intros servicesUsed; eexists; reflexivity
  | intros s Hs; cbn [generateQueries perplexity gemini grok];
    rewrite (serviceContextOf_given s Hs), ?string_app_assoc, ?string_app_nil_r;
    reflexivity
  | cbn [generateQueries perplexity gemini grok serviceContextOf];
    rewrite ?string_app_assoc, ?string_app_nil_r; reflexivity
  | intros s Hs; apply (string_app_longer _ (" " +:+ s)); by destruct s
  | by apply string_app_nonempty ].

(** C7 -- the services clause.  For every vendor name and each of the
    three providers, the first two queries do not depend on
    [servicesUsed]; the third is a fixed text that holds " " and the
    services text at one place when services are given, and is that same
    text with the clause left out when they are absent. *)
Theorem services_text_in_one_slot vendorName :
  ServicesInOneSlot perplexity vendorName
  ∧ ServicesInOneSlot gemini vendorName
  ∧ ServicesInOneSlot grok vendorName.
Proof.
  split_and!.
  - exists (shortNameOf vendorName +:+ " security certifications ISO 27001 SOC 2 Type II 2025 2026"),
           (shortNameOf vendorName +:+ " data breach incidents security vulnerabilities CVE history"),
           (shortNameOf vendorName +:+ " GDPR compliance data processing agreement privacy policy"),
           "".
    one_slot.
  - do 2 eexists.
    exists (shortNameOf vendorName +:+ " service availability SLA disaster recovery redundancy architecture"),
           ". Assess their availability guarantees, redundancy, and disaster recovery capabilities.".
    one_slot.
  - do 2 eexists.
    exists (shortNameOf vendorName +:+ " alternatives comparison security weaknesses limitations"),
           ". What are the known security weaknesses or limitations compared to alternatives?".
    one_slot.
Qed.

Lemma services_text_witness :
  "API Gateway, CDN" ≠ ""
  ∧ (gemini (generateQueries "TestVendor" (Some "API Gateway, CDN"))).1
    = (gemini (generateQueries "TestVendor" None)).1
  ∧ (gemini (generateQueries "TestVendor" (Some "API Gateway, CDN"))).2
    ≠ (gemini (generateQueries "TestVendor" None)).2.
Proof.
  assert ("API Gateway, CDN" ≠ "") as Hs by done.
  destruct (services_text_in_one_slot "TestVendor")
    as (_ & (q1 & q2 & pre & post & _ & Hgiven & Habsent & Hneq & _) & _).
  rewrite (Hgiven _ Hs), Habsent. simpl.
  split_and!; [done | done | by apply Hneq].
Defined.

(** *** Letter case *)

Lemma lowerChar_idem c : Js.lowerChar (Js.lowerChar c) = Js.lowerChar c.
Proof. by destruct c as [[] [] [] [] [] [] [] []]. Qed.

Lemma isSpace_lowerChar c : Js.isSpace (Js.lowerChar c) = Js.isSpace c.
Proof. by destruct c as [[] [] [] [] [] [] [] []]. Qed.

Lemma toLowerCase_app a b :
  Js.toLowerCase (a +:+ b) = Js.toLowerCase a +:+ Js.toLowerCase b.
Proof.
  induction a as [|x a IH]; [done|].
  rewrite string_app_cons. simpl. by rewrite IH.
Qed.

(** The [i] flag: a letter of the input matches in either case. *)
Lemma deriv_lowerChar a r : Regex.deriv (Js.lowerChar a) r = Regex.deriv a r.
Proof.
  induction r as [| |c| |r1 IH1 r2 IH2|r1 IH1 r2 IH2|r1 IH1|r1 IH1]; simpl;
    rewrite ?lowerChar_idem, ?isSpace_lowerChar, ?IH1, ?IH2; done.
Qed.

Lemma matchesToEnd_toLowerCase r s :
  Regex.matchesToEnd r (Js.toLowerCase s) = Regex.matchesToEnd r s.
Proof.
  revert r. induction s as [|a s IH]; intros r; simpl; [done|].
  by rewrite deriv_lowerChar, IH.
Qed.

(** *** The texts the alternation matches *)

Lemma nullable_wordsOf r :
  starFree r = true → Regex.nullable r = true → "" ∈ wordsOf r.
Proof.
  induction r as [| |c| |r1 IH1 r2 IH2|r1 IH1 r2 IH2|r1 IH1|r1 IH1];
    simpl; try done.
  - intros _ _. left.
  - intros [H1 H2]%andb_true_iff [N1 N2]%andb_true_iff.
    apply list_elem_of_bind. exists "". split; [|by apply IH1].
    apply list_elem_of_fmap. exists "". split; [done|]. by apply IH2.
  - intros [H1 H2]%andb_true_iff [N1|N2]%orb_true_iff;
      apply elem_of_app; [left|right]; auto.
  - intros _ _. left.
Qed.

Lemma starFree_deriv a r :
  starFree r = true → starFree (Regex.deriv a r) = true.
Proof.
  induction r as [| |c| |r1 IH1 r2 IH2|r1 IH1 r2 IH2|r1 IH1|r1 IH1];
    simpl; try done.
  - by case_decide.
  - by destruct (Js.isSpace a).
  - intros [H1 H2]%andb_true_iff.
    destruct (Regex.nullable r1); simpl; rewrite ?IH1, ?IH2, ?H2; done.
  - intros [H1 H2]%andb_true_iff. by rewrite IH1, IH2.
Qed.

Lemma isSpace_spaces a :
  Js.isSpace a = true → String (Js.lowerChar a) "" ∈ spaces.
Proof.
  destruct a as [[] [] [] [] [] [] [] []]; try done;
    intros _; vm_compute; repeat constructor.
Qed.

Lemma deriv_wordsOf a r x :
  starFree r = true → x ∈ wordsOf (Regex.deriv a r) →
  String (Js.lowerChar a) x ∈ wordsOf r.
Proof.
  revert x.
  induction r as [| |c| |r1 IH1 r2 IH2|r1 IH1 r2 IH2|r1 IH1|r1 IH1];
    intros x; simpl.
  - intros _ H. by inversion H.
  - intros _ H. by inversion H.
  - intros _. case_decide as Hc; simpl; [|by inversion 1].
    intros ->%list_elem_of_singleton. rewrite Hc. left.
  - intros _. destruct (Js.isSpace a) eqn:E; simpl; [|by inversion 1].
    intros ->%list_elem_of_singleton. by apply isSpace_spaces.
  - intros [H1 H2]%andb_true_iff Hx.
    assert (x ∈ wordsOf (Regex.Seq (Regex.deriv a r1) r2)
            ∨ (Regex.nullable r1 = true ∧ x ∈ wordsOf (Regex.deriv a r2)))
      as [Hl|[Hn Hr]].
    { destruct (Regex.nullable r1); simpl in Hx; [|by left].
      apply elem_of_app in Hx as [?|?]; [by left | by right]. }
    + simpl in Hl. apply list_elem_of_bind in Hl as (y & Hy & Hy1).
      apply list_elem_of_fmap in Hy as (z & -> & Hz).
      apply list_elem_of_bind. exists (String (Js.lowerChar a) y).
      split; [|by apply IH1].
      apply list_elem_of_fmap. exists z. done.
    + apply list_elem_of_bind. exists "". split; [|by apply nullable_wordsOf].
      apply list_elem_of_fmap. exists (String (Js.lowerChar a) x).
      split; [done|]. by apply IH2.
  - intros [H1 H2]%andb_true_iff [Hx|Hx]%elem_of_app;
      apply elem_of_app; [left|right]; auto.
  - intros H1 Hx. right. by apply IH1.
  - done.
Qed.

(** A text that a pattern without [*] matches is, in lower case, one of
    the words of the pattern. *)
Lemma matches_wordsOf r s :
  starFree r = true → Regex.matchesToEnd r s = true →
  Js.toLowerCase s ∈ wordsOf r.
Proof.
  revert r. induction s as [|a s IH]; intros r Hsf; simpl.
  - by apply nullable_wordsOf.
  - intros Hm. apply deriv_wordsOf; [done|].
    apply IH; [by apply starFree_deriv | done].
Qed.

(** The suffix texts are the listed suffixes in any letter case. *)
Lemma isSuffixText_listed tok :
  isSuffixText tok ↔ Js.toLowerCase tok ∈ suffixTokens.
Proof.
  unfold isSuffixText. split.
  - intros Hm. by apply (matches_wordsOf legalSuffix tok).
  - intros Htok. rewrite <- matchesToEnd_toLowerCase.
    generalize dependent (Js.toLowerCase tok). intros t Ht.
    unfold suffixTokens in Ht.
    repeat (apply elem_of_cons in Ht as [->|Ht]; [by vm_compute|]).
    by inversion Ht.
Qed.

(** Every suffix text, after a space, is a match of the suffix pattern. *)
Lemma suffixPattern_matches_listed tok :
  isSuffixText tok →
  Regex.matchesToEnd suffixPattern (" " +:+ tok) = true.
Proof.
  intros Htok%isSuffixText_listed.
  rewrite <- matchesToEnd_toLowerCase, toLowerCase_app.
  generalize dependent (Js.toLowerCase tok). intros t Ht.
  unfold suffixTokens in Ht.
  repeat (apply elem_of_cons in Ht as [->|Ht]; [by vm_compute|]).
  by inversion Ht.
Qed.

(** *** What [replace] removes *)

(** The name is what is kept followed by what is removed, and what is
    removed is nothing or one match of the pattern that ends the name. *)
Lemma replaceSuffix_split vendorName :
  ∃ removed,
    vendorName = replaceSuffix vendorName +:+ removed
    ∧ (removed = "" ∨ Regex.matchesToEnd suffixPattern removed = true).
Proof.
  induction vendorName as [|c rest IH].
  - exists "". split; [done | by left].
  - cbn [replaceSuffix].
    destruct (Regex.matchesToEnd suffixPattern (String c rest)) eqn:E.
    + exists (String c rest). split; [done | by right].
    + destruct IH as (removed & Hsplit & Hremoved).
      exists removed. split; [|done].
      rewrite string_app_cons. by f_equal.
Qed.

(** A name that ends with a match loses at least that match. *)
Lemma replaceSuffix_drops front m :
  Regex.matchesToEnd suffixPattern m = true →
  ∃ dropped, front = replaceSuffix (front +:+ m) +:+ dropped.
Proof.
  intros Hm. induction front as [|c front IH].
  - exists "". rewrite string_app_nil_l.
    destruct m as [|x m]; [done|]. cbn [replaceSuffix]. by rewrite Hm.
  - rewrite string_app_cons. cbn [replaceSuffix].
    destruct (Regex.matchesToEnd suffixPattern (String c (front +:+ m))).
    + by exists (String c front).
    + destruct IH as (dropped & Hd). exists dropped.
      rewrite string_app_cons. by f_equal.
Qed.

(** *** Occurrences of a text *)







Lemma suffixText_nonempty tok : isSuffixText tok → tok ≠ "".
Proof.
  by intros Htok ->.
Qed.









(** ** The scenarios of the repository's tests ***************************)

Example test_nine_queries :
  length (allQueries (generateQueries "JumpCloud, Inc."
                        (Some "Directory-as-a-Service, MDM"))) = 9.
Proof. reflexivity. Qed.

Example test_strips_suffix :
  let q := (perplexity (generateQueries "Acme Corp." (Some "SaaS Platform"))).1.1 in
  Js.includes "Acme" q = true ∧ Js.includes "Corp." q = false.
Proof. by vm_compute. Qed.

Example test_services_context :
  let queries := generateQueries "TestVendor" (Some "API Gateway, CDN") in
  Js.includes "API Gateway" (perplexity queries).2 = true
  ∧ Js.includes "API Gateway" (gemini queries).2 = true.
Proof. by vm_compute. Qed.

Example test_marks_failed :
  Js.includes "*Failed: API timeout*"
    (formatResearchForPrompt
       {| results := [failedDemo]; totalDurationMs := 5000;
          providersUsed := []; allSources := [];
          successCount := 0; failureCount := 1 |}) = true.
Proof. by vm_compute. Qed.

Example test_all_fail :
  ∃ aggregated,
    conductResearch "TestVendor" demoConfig None offlineWorld = Resolves aggregated
    ∧ length (results aggregated) = 9
    ∧ failureCount aggregated = 9 ∧ successCount aggregated = 0.
Proof. eexists. split; [vm_compute; reflexivity|]. done. Qed.

(** * Further properties of the orchestrator *)

(** ** providersUsed *****************************************************)

Lemma elem_of_filter_bool {A : Type} (f : A → bool) (l : list A) x :
  x ∈ List.filter f l ↔ x ∈ l ∧ f x = true.
Proof. rewrite !list_elem_of_In. apply filter_In. Qed.

Lemma spreadSet_sublist xs : sublist (spreadSet xs) xs.
Proof.
  induction xs as [|x xs IH] using rev_ind; [constructor|].
  rewrite spreadSet_snoc. case_decide.
  - etrans; [exact IH|]. apply sublist_inserts_r. done.
  - by apply sublist_app.
Qed.

Lemma spreadSet_length xs : length (spreadSet xs) ≤ length xs.
Proof. apply sublist_length, spreadSet_sublist. Qed.

(** X1 -- [providersUsed].  In every value the orchestrator resolves with,
    [providersUsed] holds each provider name once; a name is listed exactly
    when some result of that provider succeeded; the list is a
    subsequence of the provider names of the successful results, taken in
    the order of [results]; and there are at most as many names as
    successes. *)
Theorem providersUsed_lists_successful_providers
    providers timeoutMs w aggregated :
  runResearch providers timeoutMs w = Resolves aggregated →
  NoDup (providersUsed aggregated)
  ∧ (∀ p, p ∈ providersUsed aggregated
          ↔ ∃ r, r ∈ results aggregated ∧ success r = true ∧ provider r = p)
  ∧ sublist (providersUsed aggregated)
            (map provider (List.filter success (results aggregated)))
  ∧ length (providersUsed aggregated) ≤ successCount aggregated.
Proof.
  intros ->%runResearch_resolves_inv.
  cbn [results providersUsed successCount aggregate].
  set (rs := resultsFor timeoutMs w (buildTasks providers)).
  split_and!.
  - apply NoDup_spreadSet.
  - intros p. rewrite elem_of_spreadSet. split.
    + intros (r & -> & Hr)%list_elem_of_fmap.
      apply elem_of_filter_bool in Hr as [Hin Hs]. by exists r.
    + intros (r & Hin & Hs & <-). apply list_elem_of_fmap. exists r.
      split; [done|]. by apply elem_of_filter_bool.
  - apply spreadSet_sublist.
  - etrans; [apply spreadSet_length|]. by rewrite length_map.
Qed.

Lemma providersUsed_witness :
  ∃ aggregated,
    conductResearch "Acme Corp." demoConfig None onlineWorld = Resolves aggregated
    ∧ providersUsed aggregated = ["Perplexity"; "Gemini"; "Grok"]
    ∧ NoDup (providersUsed aggregated).
Proof.
  eexists. split; [vm_compute; reflexivity|]. split; [reflexivity|].
  eapply (providersUsed_lists_successful_providers
            (providerTable demoConfig (generateQueries "Acme Corp." None))
            5000 onlineWorld).
  vm_compute. reflexivity.
Defined.

(** ** Settlement ********************************************************)

Lemma mapM_id_None {A : Type} (slots : list (option A)) i :
  slots !! i = Some None → mapM id slots = None.
Proof.
  intros Hi. destruct (mapM id slots) as [xs|] eqn:E; [|done].
  apply mapM_Some_1 in E.
  destruct (Forall2_lookup_l _ _ _ i None E Hi) as (x & _ & Hx). done.
Qed.

Lemma allSettled_pending {A : Type} (promises : list (Settled A)) completion :
  ¬ everySettles (length promises) completion →
  allSettled promises completion = Pending.
Proof.
  intros Hnot. unfold everySettles in Hnot.
  apply not_Forall_Exists in Hnot; [|apply _].
  apply Exists_exists in Hnot as (i & Hi & Hnin).
  apply elem_of_seq in Hi as [_ Hi]. simpl in Hi.
  unfold allSettled. rewrite slotsAfter_nil, foldl_settleSlot, app_nil_r.
  destruct (lookup_lt_is_Some_2 promises i Hi) as [p Hp].
  rewrite (mapM_id_None _ i); [done|].
  rewrite slotsAfter_lookup, Hp. simpl.
  rewrite decide_False; [done|]. by rewrite elem_of_reverse.
Qed.

(** X2 -- no early completion.  The orchestrator resolves only when
    every dispatched task has settled, and it is pending exactly while
    one task has not: there is no deadline over the batch and no partial
    result. *)
Theorem resolves_only_when_all_tasks_settle providers timeoutMs w :
  let n := length (buildTasks providers) in
  (∀ aggregated,
     runResearch providers timeoutMs w = Resolves aggregated →
     everySettles n (completion w))
  ∧ (¬ everySettles n (completion w)
     ↔ runResearch providers timeoutMs w = Pending).
Proof.
  intros n. subst n.
  assert (¬ everySettles (length (buildTasks providers)) (completion w) →
          runResearch providers timeoutMs w = Pending) as Hpending.
  { intros Hnot. unfold runResearch. rewrite allSettled_pending; [done|].
    by unfold dispatch; rewrite length_imap. }
  split.
  - intros aggregated Hrun.
    destruct (decide (everySettles (length (buildTasks providers))
                        (completion w))) as [|Hnot]; [done|].
    rewrite (Hpending Hnot) in Hrun. done.
  - split; [exact Hpending|].
    intros Hrun Hall. by rewrite (runResearch_resolves _ _ _ Hall) in Hrun.
Qed.

Lemma resolves_only_when_all_tasks_settle_witness :
  ¬ everySettles (length (buildTasks demoTable)) [0; 1; 2]
  ∧ runResearch demoTable 5000 (withCompletion offlineWorld [0; 1; 2]) = Pending.
Proof.
  assert (¬ everySettles (length (buildTasks demoTable)) [0; 1; 2]) as Hnot.
  { intros Hall. unfold everySettles in Hall. rewrite Forall_forall in Hall.
    specialize (Hall 3). assert (3 ∈ [0; 1; 2]) as Hin.
    { apply Hall. vm_compute. repeat constructor. }
    apply list_elem_of_In in Hin. simpl in Hin. lia. }
  split; [exact Hnot|].
  by apply (resolves_only_when_all_tasks_settle demoTable 5000%Z
              (withCompletion offlineWorld [0; 1; 2])).
Defined.

(** ** The provider groups of the formatter ******************************)

Lemma filter_provider_sum (ks : list string) (rs : list ResearchResult) :
  NoDup ks → (∀ r, r ∈ rs → provider r ∈ ks) →
  sum_list (map (fun p => length (filter (fun r => provider r = p) rs)) ks)
  = length rs.
Proof.
  revert ks. induction rs as [|r rs IH]; intros ks Hnd Hin.
  - clear. induction ks as [|k ks IHk]; [done|]. exact IHk.
  - assert (provider r ∈ ks) as Hk by (apply Hin; left).
    specialize (IH ks Hnd (fun r' Hr' => Hin r' (list_elem_of_further _ _ _ Hr'))).
    cbn [length]. rewrite <- IH. clear IH Hin.
    induction ks as [|k ks IHk]; [by inversion Hk|].
    apply NoDup_cons in Hnd as [Hnk Hnd]. cbn [map sum_list].
    destruct (decide (provider r = k)) as [Heq|Hne].
    + rewrite filter_cons_True by done. cbn [length].
      assert (map (fun p => length (filter (fun r0 => provider r0 = p) (r :: rs))) ks
              = map (fun p => length (filter (fun r0 => provider r0 = p) rs)) ks)
        as ->; [|unfold id; lia].
      apply map_ext_in. intros p Hp%list_elem_of_In.
      rewrite filter_cons_False; [done|]. intros Hp'. apply Hnk. congruence.
    + rewrite filter_cons_False by done.
      apply elem_of_cons in Hk as [?|Hk]; [done|].
      rewrite (IHk Hnd Hk). unfold id. lia.
Qed.

(** X3 -- grouping by provider.  The [Map] the formatter builds has one
    entry per provider name occurring in the results, in the order the
    names first occur; the entry of a name holds exactly the results of
    that provider, in their original order, so it is never empty; every
    result is in the entry of its provider, and the entries together hold
    as many results as there are. *)
Theorem groups_partition_results (rs : list ResearchResult) :
  map fst (groupByProvider rs) = spreadSet (map provider rs)
  ∧ NoDup (map fst (groupByProvider rs))
  ∧ (∀ p group, (p, group) ∈ groupByProvider rs →
       group = filter (fun r => provider r = p) rs ∧ group ≠ [])
  ∧ (∀ r, r ∈ rs →
       ∃ group, (provider r, group) ∈ groupByProvider rs ∧ r ∈ group)
  ∧ sum_list (map (fun entry => length entry.2) (groupByProvider rs))
    = length rs.
Proof.
  rewrite groupByProvider_groups.
  assert (map fst (groupsOf rs) = spreadSet (map provider rs)) as Hkeys.
  { unfold groupsOf. rewrite map_map. simpl. apply map_id. }
  rewrite Hkeys. unfold groupsOf.
  split_and!.
  - done.
  - apply NoDup_spreadSet.
  - intros p group (k & [= -> ->] & Hk)%list_elem_of_fmap.
    split; [done|]. rewrite elem_of_spreadSet in Hk.
    apply list_elem_of_fmap in Hk as (r & -> & Hr).
    intros Hnil. assert (r ∈ filter (fun r0 => provider r0 = provider r) rs) as Hin
      by (by apply list_elem_of_filter).
    rewrite Hnil in Hin. by inversion Hin.
  - intros r Hr. exists (filter (fun r0 => provider r0 = provider r) rs).
    split; [|by apply list_elem_of_filter].
    apply list_elem_of_fmap. exists (provider r). split; [done|].
    apply elem_of_spreadSet, list_elem_of_fmap. by exists r.
  - rewrite map_map. simpl. apply filter_provider_sum; [apply NoDup_spreadSet|].
    intros r Hr. apply elem_of_spreadSet, list_elem_of_fmap. by exists r.
Qed.

Lemma groups_partition_witness :
  (hollowDemo ∈ [citedDemo; hollowDemo; failedDemo])
  ∧ ∃ group, (provider hollowDemo, group)
               ∈ groupByProvider [citedDemo; hollowDemo; failedDemo]
             ∧ hollowDemo ∈ group.
Proof.
  assert (hollowDemo ∈ [citedDemo; hollowDemo; failedDemo]) as Hin
    by (right; left).
  split; [exact Hin|].
  by apply (groups_partition_results [citedDemo; hollowDemo; failedDemo]).
Defined.

(** * Further properties of the query generator *)

(** ** The matcher decides the language of a pattern *********************)

Lemma string_app_eq_nil (a b : string) : a +:+ b = "" → a = "" ∧ b = "".
Proof. destruct a; [by rewrite string_app_nil_l|]. by rewrite string_app_cons. Qed.

Lemma nullable_Matches r : Regex.nullable r = true ↔ Matches r "".
Proof.
  split.
  - induction r as [| |c| |r1 IH1 r2 IH2|r1 IH1 r2 IH2|r1 IH1|r1 IH1];
      simpl; try done.
    + intros _. constructor.
    + intros [H1 H2]%andb_true_iff.
      change "" with ("" +:+ ""). constructor; auto.
    + intros [H1|H2]%orb_true_iff; [apply MatchesAltL | apply MatchesAltR]; auto.
    + intros _. constructor.
    + intros _. constructor.
  - intros Hm. remember "" as s eqn:Hs.
    induction Hm as [|c a Hc|a Ha|r1 r2 s1 s2 H1 IH1 H2 IH2|r1 r2 s H IH
                     |r1 r2 s H IH|r|r s H IH|r|r s1 s2 H1 IH1 H2 IH2];
      simpl; try done.
    + apply string_app_eq_nil in Hs as [-> ->]. by rewrite IH1, IH2.
    + by rewrite IH.
    + rewrite IH by done. apply orb_true_r.
Qed.

Lemma deriv_Matches_1 a r s :
  Matches (Regex.deriv a r) s → Matches r (String a s).
Proof.
  revert s.
  induction r as [| |c| |r1 IH1 r2 IH2|r1 IH1 r2 IH2|r1 IH1|r1 IH1];
    intros s; simpl.
  - inversion 1.
  - inversion 1.
  - case_decide as Hc; inversion 1. by constructor.
  - destruct (Js.isSpace a) eqn:Ha; inversion 1. by constructor.
  - assert (Matches (Regex.Seq (Regex.deriv a r1) r2) s →
            Matches (Regex.Seq r1 r2) (String a s)) as Hseq.
    { inversion 1 as [| | |? ? s1 s2 H1 H2| | | | | |]; subst.
      change (String a (s1 +:+ s2)) with (String a s1 +:+ s2).
      constructor; auto. }
    destruct (Regex.nullable r1) eqn:Hn; [|exact Hseq].
    inversion 1 as [| | | |? ? ? Hl|? ? ? Hr| | | |]; subst; [by apply Hseq|].
    change (String a s) with ("" +:+ String a s).
    constructor; [by apply nullable_Matches | by apply IH2].
  - inversion 1; subst; [apply MatchesAltL | apply MatchesAltR]; auto.
  - intros H. apply MatchesOptSome. auto.
  - inversion 1 as [| | |? ? s1 s2 H1 H2| | | | | |]; subst.
    change (String a (s1 +:+ s2)) with (String a s1 +:+ s2).
    constructor; auto.
Qed.

Lemma deriv_Matches_2 a r s :
  Matches r (String a s) → Matches (Regex.deriv a r) s.
Proof.
  intros Hm. remember (String a s) as t eqn:Ht. revert s Ht.
  induction Hm as [|c b Hc|b Hb|r1 r2 s1 s2 H1 IH1 H2 IH2|r1 r2 t H IH
                   |r1 r2 t H IH|r|r t H IH|r|r s1 s2 H1 IH1 H2 IH2];
    intros s Ht; simpl.
  - done.
  - injection Ht as -> <-. rewrite decide_True by done. constructor.
  - injection Ht as -> <-. rewrite Hb. constructor.
  - destruct s1 as [|b s1].
    + rewrite string_app_nil_l in Ht. subst s2.
      rewrite (proj2 (nullable_Matches r1) H1).
      apply MatchesAltR. by apply IH2.
    + rewrite string_app_cons in Ht. injection Ht as -> <-.
      assert (Matches (Regex.Seq (Regex.deriv a r1) r2) (s1 +:+ s2)) as Hseq
        by (constructor; auto).
      destruct (Regex.nullable r1); [by apply MatchesAltL | done].
  - apply MatchesAltL. auto.
  - apply MatchesAltR. auto.
  - done.
  - auto.
  - done.
  - destruct s1 as [|b s1].
    + rewrite string_app_nil_l in Ht. by apply IH2.
    + rewrite string_app_cons in Ht. injection Ht as -> <-.
      constructor; auto.
Qed.

(** The derivative matcher accepts exactly the texts of the pattern. *)
Lemma matchesToEnd_Matches r s :
  Regex.matchesToEnd r s = true ↔ Matches r s.
Proof.
  revert r. induction s as [|a s IH]; intros r; simpl.
  - apply nullable_Matches.
  - rewrite IH. split; [apply deriv_Matches_1 | apply deriv_Matches_2].
Qed.

(** ** What the suffix pattern removes ***********************************)

Lemma lowerChar_comma a : Js.lowerChar "," = Js.lowerChar a → a = ","%char.
Proof. by destruct a as [[] [] [] [] [] [] [] []]. Qed.

Lemma Matches_star_space s : Matches (Regex.Star Regex.Space) s ↔ allSpace s = true.
Proof.
  split.
  - intros Hm. remember (Regex.Star Regex.Space) as r eqn:Hr.
    induction Hm as [| | | | | | | | |r s1 s2 H1 IH1 H2 IH2]; try done.
    injection Hr as ->. inversion H1; subst. rewrite string_app_cons.
    simpl. rewrite string_app_nil_l. by rewrite IH2, andb_true_r.
  - induction s as [|a s IH]; simpl; [constructor|].
    intros [Ha Hs]%andb_true_iff.
    change (String a s) with (String a "" +:+ s).
    constructor; [by constructor | by apply IH].
Qed.

Lemma Matches_opt_comma s :
  Matches (Regex.Opt (Regex.Chr ",")) s ↔ s = "" ∨ s = ",".
Proof.
  split.
  - inversion 1 as [| | | | | |?|? ? Hc| |]; subst; [by left|].
    inversion Hc as [|? ? Heq| | | | | | | |]; subst.
    right. by rewrite (lowerChar_comma _ Heq).
  - intros [-> | ->]; [constructor|]. apply MatchesOptSome. by constructor.
Qed.

(** What the pattern matches: an optional comma, white space, and a
    suffix text. *)
Lemma suffixPattern_Matches m :
  Regex.matchesToEnd suffixPattern m = true
  ↔ ∃ comma ws tok,
      m = comma +:+ ws +:+ tok ∧ (comma = "" ∨ comma = ",")
      ∧ allSpace ws = true ∧ isSuffixText tok.
Proof.
  rewrite matchesToEnd_Matches. unfold suffixPattern, isSuffixText. split.
  - inversion 1 as [| | |? ? comma rest Hc Hrest| | | | | |]; subst.
    inversion Hrest as [| | |? ? ws tok Hws Htok| | | | | |]; subst.
    exists comma, ws, tok. split_and!; [done| | |].
    + by apply Matches_opt_comma.
    + by apply Matches_star_space.
    + by apply matchesToEnd_Matches.
  - intros (comma & ws & tok & -> & Hc & Hws & Htok).
    constructor; [by apply Matches_opt_comma|].
    constructor; [by apply Matches_star_space | by apply matchesToEnd_Matches].
Qed.

Lemma replaceSuffix_length_le v :
  String.length (replaceSuffix v) ≤ String.length v.
Proof.
  destruct (replaceSuffix_split v) as (removed & Hsplit & _).
  rewrite Hsplit at 2. rewrite string_length_app. lia.
Qed.

Lemma replaceSuffix_changed_iff vendorName :
  replaceSuffix vendorName ≠ vendorName
  ↔ ∃ front tok, isSuffixText tok ∧ vendorName = front +:+ tok.
Proof.
  destruct (replaceSuffix_split vendorName) as (removed & Hsplit & Hremoved).
  split.
  - intros Hne. destruct Hremoved as [->|Hm].
    + rewrite string_app_nil_r in Hsplit. by symmetry in Hsplit.
    + apply suffixPattern_Matches in Hm as (comma & ws & tok & -> & _ & _ & Htok).
      exists (replaceSuffix vendorName +:+ comma +:+ ws), tok.
      split; [done|]. by rewrite !string_app_assoc.
  - intros (front & tok & Htok & ->) Heq.
    assert (Regex.matchesToEnd suffixPattern tok = true) as Hm.
    { apply suffixPattern_Matches. exists "", "", tok. split_and!; auto. }
    destruct (replaceSuffix_drops front tok Hm) as (dropped & Hd).
    apply (f_equal String.length) in Heq, Hd.
    rewrite !string_length_app in *.
    pose proof (suffixText_nonempty tok Htok) as Hne.
    destruct tok; [done|]. simpl in *. lia.
Qed.

(** *** The leftmost match *)

Lemma lastChar_app (a b : string) :
  b ≠ "" → lastChar (a +:+ b) = lastChar b.
Proof.
  intros Hb. induction a as [|c a IH]; [done|].
  rewrite string_app_cons. simpl. rewrite IH.
  destruct b as [|d b]; [done|]. simpl. by destruct (lastChar b).
Qed.

Lemma lastChar_allSpace (ws : string) (c : ascii) :
  allSpace ws = true → lastChar ws = Some c → Js.isSpace c = true.
Proof.
  induction ws as [|d ws IH]; simpl; [done|].
  intros [Hd Hws]%andb_true_iff.
  destruct (lastChar ws) as [e|]; intros [= <-]; [by apply IH|done].
Qed.

Lemma string_app_inv_head (a b c : string) : a +:+ b = a +:+ c → b = c.
Proof.
  induction a as [|x a IH]; [done|]. rewrite !string_app_cons.
  intros [= H]. by apply IH.
Qed.

Lemma string_app_eq_app (a b c d : string) :
  a +:+ b = c +:+ d →
  ∃ x, (a = c +:+ x ∧ d = x +:+ b) ∨ (c = a +:+ x ∧ b = x +:+ d).
Proof.
  revert c. induction a as [|x a IH]; intros c H.
  - exists c. right. by rewrite !string_app_nil_l in *.
  - destruct c as [|y c].
    + exists (String x a). left. by rewrite !string_app_nil_l in *.
    + rewrite !string_app_cons in H. injection H as -> H.
      destruct (IH c H) as (z & [[-> ->]|[-> ->]]); exists z; [left|right];
        by rewrite ?string_app_cons.
Qed.

Lemma allSeparators_app a b :
  allSeparators (a +:+ b) = allSeparators a && allSeparators b.
Proof.
  induction a as [|x a IH]; [done|]. rewrite string_app_cons. simpl.
  by rewrite IH, andb_assoc.
Qed.

Lemma noSeparator_app a b :
  noSeparator (a +:+ b) = noSeparator a && noSeparator b.
Proof.
  induction a as [|x a IH]; [done|]. rewrite string_app_cons. simpl.
  by rewrite IH, andb_assoc.
Qed.

Lemma allSpace_allSeparators ws : allSpace ws = true → allSeparators ws = true.
Proof.
  induction ws as [|c ws IH]; [done|]. simpl.
  intros [Hc Hws]%andb_true_iff. unfold isSeparator. by rewrite Hc, IH.
Qed.

Lemma separators_only_empty x :
  allSeparators x = true → noSeparator x = true → x = "".
Proof. destruct x as [|c x]; [done|]. simpl. by destruct (isSeparator c). Qed.

Lemma lastChar_allSeparators s c :
  allSeparators s = true → lastChar s = Some c → isSeparator c = true.
Proof.
  induction s as [|d s IH]; simpl; [done|].
  intros [Hd Hs]%andb_true_iff.
  destruct (lastChar s) as [e|]; intros [= <-]; [by apply IH|done].
Qed.

Lemma isSeparator_lowerChar c : isSeparator (Js.lowerChar c) = isSeparator c.
Proof. by destruct c as [[] [] [] [] [] [] [] []]. Qed.

Lemma noSeparator_toLowerCase s : noSeparator (Js.toLowerCase s) = noSeparator s.
Proof.
  induction s as [|c s IH]; [done|]. simpl. by rewrite isSeparator_lowerChar, IH.
Qed.

Lemma suffixText_noSeparator tok : isSuffixText tok → noSeparator tok = true.
Proof.
  intros Htok%isSuffixText_listed. rewrite <- noSeparator_toLowerCase.
  generalize dependent (Js.toLowerCase tok). intros t Ht.
  unfold suffixTokens in Ht.
  repeat (apply elem_of_cons in Ht as [->|Ht]; [by vm_compute|]).
  by inversion Ht.
Qed.

Lemma toLowerCase_length s : String.length (Js.toLowerCase s) = String.length s.
Proof. induction s as [|c s IH]; [done|]. simpl. by rewrite IH. Qed.

(** No listed suffix ends with another. *)
Lemma suffixTokens_incomparable u t :
  t ∈ suffixTokens → u +:+ t ∈ suffixTokens → u = "".
Proof.
  unfold suffixTokens. intros Ht Hu.
  repeat (apply elem_of_cons in Ht as [->|Ht]); [..|by inversion Ht];
    repeat (apply elem_of_cons in Hu as [Hu|Hu]); try (by inversion Hu);
    pose proof (f_equal String.length Hu) as Hlen;
    rewrite string_length_app in Hlen; simpl in Hlen;
    destruct u as [|a [|b [|c u]]]; simpl in Hlen; try lia; try done;
    vm_compute in Hu; discriminate Hu.
Qed.

Lemma suffixText_incomparable x tok :
  isSuffixText tok → isSuffixText (x +:+ tok) → x = "".
Proof.
  intros Ht%isSuffixText_listed Hx%isSuffixText_listed.
  rewrite toLowerCase_app in Hx.
  pose proof (suffixTokens_incomparable _ _ Ht Hx) as Hnil.
  apply (f_equal String.length) in Hnil. rewrite toLowerCase_length in Hnil.
  by destruct x.
Qed.

Lemma allSpace_app a b : allSpace (a +:+ b) = allSpace a && allSpace b.
Proof.
  induction a as [|x a IH]; [done|]. rewrite string_app_cons. simpl.
  by rewrite IH, andb_assoc.
Qed.

(** The leftmost match: what is kept of a name that ends with an optional
    comma, white space and a suffix text is all that comes before these,
    provided the part before them is taken as short as the pattern
    allows. *)
Lemma replaceSuffix_pinned front comma ws tok :
  (comma = "" ∨ comma = ",") → allSpace ws = true → isSuffixText tok →
  (comma = "" → endsInWord front) →
  replaceSuffix (front +:+ comma +:+ ws +:+ tok) = front.
Proof.
  intros Hcomma Hws Htok Hword.
  set (m := comma +:+ ws +:+ tok).
  assert (Regex.matchesToEnd suffixPattern m = true) as Hm.
  { apply suffixPattern_Matches. by exists comma, ws, tok. }
  destruct (replaceSuffix_drops front m Hm) as (d & Hd).
  destruct (replaceSuffix_split (front +:+ m)) as (removed & Hsplit & Hremoved).
  set (kept := replaceSuffix (front +:+ m)) in *.
  assert (removed = d +:+ m) as ->.
  { rewrite Hd in Hsplit at 1. rewrite string_app_assoc in Hsplit.
    by apply string_app_inv_head in Hsplit. }
  destruct Hremoved as [Hnil|Hmatch].
  { apply string_app_eq_nil in Hnil as [_ Hnil]. unfold m in Hnil.
    apply string_app_eq_nil in Hnil as [_ Hnil].
    apply string_app_eq_nil in Hnil as [_ ->]. done. }
  apply suffixPattern_Matches in Hmatch
    as (comma' & ws' & tok' & Heq & Hcomma' & Hws' & Htok').
  assert (comma' +:+ ws' = d +:+ comma +:+ ws) as Hseps.
  { unfold m in Heq.
    replace (d +:+ comma +:+ ws +:+ tok) with ((d +:+ comma +:+ ws) +:+ tok)
      in Heq by (by rewrite !string_app_assoc).
    replace (comma' +:+ ws' +:+ tok') with ((comma' +:+ ws') +:+ tok')
      in Heq by (by rewrite !string_app_assoc).
    destruct (string_app_eq_app _ _ _ _ Heq) as (x & [[Ha Hb]|[Ha Hb]]).
    - subst tok'. apply suffixText_incomparable in Htok' as ->; [|done].
      by rewrite string_app_nil_r in Ha.
    - subst tok. apply suffixText_incomparable in Htok as ->; [|done].
      by rewrite string_app_nil_r in Ha. }
  assert (d = "") as ->.
  2:{ rewrite string_app_nil_r in Hd. symmetry. exact Hd. }
  assert (allSeparators (comma' +:+ ws') = true) as Hall.
  { rewrite allSeparators_app, (allSpace_allSeparators ws' Hws').
    by destruct Hcomma' as [-> | ->]. }
  destruct d as [|c0 d']; [done|exfalso].
  destruct Hcomma as [-> | ->].
  - rewrite string_app_nil_l in Hseps.
    specialize (Hword eq_refl). unfold endsInWord in Hword.
    rewrite Hd, lastChar_app in Hword by done.
    rewrite Hseps, allSeparators_app in Hall.
    apply andb_true_iff in Hall as [Hall _].
    destruct (lastChar (String c0 d')) as [e|] eqn:He;
      [|simpl in He; by destruct (lastChar d')].
    by rewrite (lastChar_allSeparators _ _ Hall He) in Hword.
  - assert (allSpace (d' +:+ "," +:+ ws) = true) as Hbad.
    { destruct Hcomma' as [-> | ->].
      + rewrite string_app_nil_l in Hseps. rewrite Hseps in Hws'.
        rewrite string_app_cons in Hws'. simpl in Hws'.
        by apply andb_true_iff in Hws' as [_ ?].
      + change ("," +:+ ws') with (String "," ws') in Hseps.
        rewrite (string_app_cons c0 d') in Hseps.
        injection Hseps as _ Hseps. by rewrite <- Hseps. }
    rewrite allSpace_app in Hbad. apply andb_true_iff in Hbad as [_ Hbad].
    rewrite string_app_cons in Hbad. simpl in Hbad. done.
Qed.




(** X4 -- when the vendor name is changed.  For a vendor name within
    the ASCII range, [replace] with the suffix pattern alters the name
    exactly when the name ends with a suffix text, whether or not a comma
    or white space comes before it (a suffix glued to the word before it
    is removed too); what it removes is then an optional comma, white
    space and a suffix text, up to the end of the name; and it removes
    all of these: of a name that ends with a comma, white space and a
    suffix text, or with white space and a suffix text after a word (or
    glued to it), exactly what comes before is kept. *)
Theorem replaceSuffix_changes_names_ending_in_suffix vendorName :
  isAscii vendorName = true →
  (replaceSuffix vendorName ≠ vendorName
   ↔ ∃ front tok, isSuffixText tok ∧ vendorName = front +:+ tok)
  ∧ (∃ removed,
      vendorName = replaceSuffix vendorName +:+ removed
      ∧ (removed = ""
         ∨ ∃ comma ws tok,
             removed = comma +:+ ws +:+ tok ∧ (comma = "" ∨ comma = ",")
             ∧ allSpace ws = true ∧ isSuffixText tok))
  ∧ (∀ front comma ws tok,
       (comma = "" ∨ comma = ",") → allSpace ws = true → isSuffixText tok →
       (comma = "" → endsInWord front) →
       vendorName = front +:+ comma +:+ ws +:+ tok →
       replaceSuffix vendorName = front).
Proof.
  intros _. split_and!; [apply replaceSuffix_changed_iff| |].
  - destruct (replaceSuffix_split vendorName) as (removed & Hsplit & Hremoved).
    exists removed. split; [done|].
    destruct Hremoved as [->|Hm]; [by left|right].
    by apply suffixPattern_Matches.
  - intros front comma ws tok Hcomma Hws Htok Hword ->.
    by apply replaceSuffix_pinned.
Qed.

Lemma replaceSuffix_changes_witness :
  isSuffixText "corp"
  ∧ "Microcorp" = "Micro" +:+ "corp"
  ∧ replaceSuffix "Microcorp" ≠ "Microcorp"
  ∧ replaceSuffix "Microcorp" = "Micro".
Proof.
  assert (isSuffixText "corp") as Htok by reflexivity.
  split; [exact Htok|]. split; [reflexivity|].
  destruct (replaceSuffix_changes_names_ending_in_suffix "Microcorp" eq_refl)
    as (Hchanged & _ & Hpin).
  split.
  - apply Hchanged. exists "Micro", "corp". done.
  - apply (Hpin "Micro" "" "" "corp"); try done. by left.
Defined.

(** ** The short name ****************************************************)

Lemma trimStart_suffix s : ∃ pre, s = pre +:+ Js.trimStart s.
Proof.
  induction s as [|c s [pre IH]]; simpl; [by exists ""|].
  destruct (Js.isSpace c).
  - exists (String c pre). rewrite string_app_cons. by f_equal.
  - by exists "".
Qed.

Lemma trimEnd_prefix s : ∃ post, s = Js.trimEnd s +:+ post.
Proof.
  induction s as [|c s [post IH]]; simpl; [by exists ""|].
  destruct (Js.trimEnd s) as [|d r] eqn:E.
  - rewrite string_app_nil_l in IH. subst post.
    destruct (Js.isSpace c); [by exists (String c s) | by exists s].
  - exists post. rewrite string_app_cons. by f_equal.
Qed.

Lemma trimStart_head s :
  match Js.trimStart s with
  | EmptyString => True
  | String c _ => Js.isSpace c = false
  end.
Proof.
  induction s as [|c s IH]; simpl; [done|].
  destruct (Js.isSpace c) eqn:E; [done|]. simpl. done.
Qed.

Lemma trimEnd_idem s : Js.trimEnd (Js.trimEnd s) = Js.trimEnd s.
Proof.
  induction s as [|c s IH]; simpl; [done|].
  destruct (Js.trimEnd s) as [|d r] eqn:E.
  - destruct (Js.isSpace c) eqn:Hc; simpl; [done|]. by rewrite Hc.
  - simpl. simpl in IH. by rewrite IH.
Qed.

Lemma trimStart_trimEnd_keeps s :
  Js.trimStart s = s → Js.trimStart (Js.trimEnd s) = Js.trimEnd s.
Proof.
  destruct s as [|c s]; [done|]. simpl.
  destruct (Js.isSpace c) eqn:Hc.
  - intros Heq. pose proof (trimStart_suffix s) as [pre Hpre].
    apply (f_equal String.length) in Heq, Hpre.
    rewrite string_length_app in Hpre. simpl in Heq. lia.
  - intros _. destruct (Js.trimEnd s); simpl; by rewrite Hc.
Qed.

Lemma trimStart_idem s : Js.trimStart (Js.trimStart s) = Js.trimStart s.
Proof.
  induction s as [|c s IH]; simpl; [done|].
  destruct (Js.isSpace c) eqn:Hc; [done|]. simpl. by rewrite Hc.
Qed.

Lemma trim_trimmed s :
  Js.trimStart (Js.trim s) = Js.trim s ∧ Js.trimEnd (Js.trim s) = Js.trim s.
Proof.
  unfold Js.trim. split; [|apply trimEnd_idem].
  apply trimStart_trimEnd_keeps, trimStart_idem.
Qed.

Lemma trim_idem s : Js.trim (Js.trim s) = Js.trim s.
Proof.
  destruct (trim_trimmed s) as [Hs He]. unfold Js.trim at 1. by rewrite Hs, He.
Qed.

Lemma trim_inside s : ∃ pre post, s = pre +:+ Js.trim s +:+ post.
Proof.
  destruct (trimStart_suffix s) as [pre Hpre].
  destruct (trimEnd_prefix (Js.trimStart s)) as [post Hpost].
  exists pre, post. unfold Js.trim. by rewrite <- Hpost.
Qed.

(** X5 -- the short name.  For a vendor name within the ASCII range, the
    name put into the queries is a piece of the vendor name as given, with
    no white space at its start or end; it is the trimmed vendor name
    itself when the name does not end with a suffix text. *)
Theorem shortName_is_trimmed_piece vendorName :
  isAscii vendorName = true →
  (∃ pre post, vendorName = pre +:+ shortNameOf vendorName +:+ post)
  ∧ Js.trimStart (shortNameOf vendorName) = shortNameOf vendorName
  ∧ Js.trimEnd (shortNameOf vendorName) = shortNameOf vendorName
  ∧ ((∀ front tok, isSuffixText tok → vendorName ≠ front +:+ tok) →
     shortNameOf vendorName = Js.trim vendorName).
Proof.
  intros _. unfold shortNameOf. split_and!.
  - destruct (replaceSuffix_split vendorName) as (removed & Hsplit & _).
    destruct (trim_inside (replaceSuffix vendorName)) as (pre & post & Hin).
    exists pre, (post +:+ removed).
    rewrite Hsplit at 1. rewrite Hin at 1. by rewrite !string_app_assoc.
  - apply trim_trimmed.
  - apply trim_trimmed.
  - intros Hnone. f_equal.
    destruct (decide (replaceSuffix vendorName = vendorName)) as [|Hne]; [done|].
    apply replaceSuffix_changed_iff in Hne as (front & tok & Htok & Heq).
    by destruct (Hnone front tok Htok).
Qed.

Lemma shortName_witness :
  (∀ front tok, isSuffixText tok → "  TestVendor " ≠ front +:+ tok)
  ∧ shortNameOf "  TestVendor " = "TestVendor".
Proof.
  assert (∀ front tok, isSuffixText tok → "  TestVendor " ≠ front +:+ tok)
    as Hnone.
  { intros front tok Htok Heq.
    assert (replaceSuffix "  TestVendor " ≠ "  TestVendor ") as Hne
      by (apply replaceSuffix_changed_iff; eauto).
    by apply Hne. }
  split; [exact Hnone|].
  destruct (shortName_is_trimmed_piece "  TestVendor " eq_refl)
    as (_ & _ & _ & Htrim).
  by rewrite (Htrim Hnone).
Defined.

(** * Further properties of the provider clients *)

Ltac first_choice data :=
  destruct (Api.choices data) as [[|choice rest]|] eqn:?; simpl; try done;
  destruct (Api.message choice) as [msg|] eqn:?; simpl; try done;
  destruct (Api.content msg) as [text|] eqn:?; simpl; try done;
  intros _; by exists choice, rest, msg.

Lemma perplexity_reads_first_choice : ReadsFirstChoice PerplexityProvider.search.
Proof.
  intros apiKey q timeoutMs c r _. run_search c; intros [= <-]; simpl.
  all: try (split; [split; [done|] | done]; intros Hok; exfalso; apply Hok).
  - by apply timedOut, Z.leb_le.
  - split; [split; [intros _; by eapply failureMode_ok | done]|].
    intros _. split_and!; [done..|]. exists response, data.
    split_and!; [done..|]. first_choice data.
  - by eapply nullBody.
  - by eapply malformedBody.
  - by eapply httpStatus.
  - by eapply httpStatus.
  - by eapply networkError.
Qed.

Lemma grok_reads_first_choice : ReadsFirstChoice GrokProvider.search.
Proof.
  intros apiKey q timeoutMs c r _. run_search c; intros [= <-]; simpl.
  all: try (split; [split; [done|] | done]; intros Hok; exfalso; apply Hok).
  - by apply timedOut, Z.leb_le.
  - split; [split; [intros _; by eapply failureMode_ok | done]|].
    intros _. split_and!; [done..|]. exists response, data.
    split_and!; [done..|]. first_choice data.
  - by eapply nullBody.
  - by eapply malformedBody.
  - by eapply httpStatus.
  - by eapply httpStatus.
  - by eapply networkError.
Qed.

(** X6 -- what a successful result holds.  For the Perplexity and Grok
    clients, called with a timeout [setTimeout] keeps as given (1 to
    2^31 - 1 ms), a result has [success = true] exactly when the call met
    no failure mode; it then has no error, its duration is the time between
    the two clock readings of the call, and its content is either empty or
    the content of the message of the first choice of the reply (later
    choices are never read).  A successful Perplexity result lists the
    [citations] of the reply as they are, or nothing when there are
    none. *)
Theorem successful_results_read_first_choice :
  ReadsFirstChoice PerplexityProvider.search
  ∧ ReadsFirstChoice GrokProvider.search
  ∧ (∀ apiKey q timeoutMs c r response data,
       timerDelay (defaultTimeout timeoutMs) →
       PerplexityProvider.search apiKey q timeoutMs c = fulfilled r →
       success r = true →
       Api.reply c = fulfilled response →
       Api.bodyJson response = fulfilled (Some data) →
       sources r = default [] (Api.citations data)).
Proof.
  split_and!;
    [apply perplexity_reads_first_choice | apply grok_reads_first_choice |].
  intros apiKey q timeoutMs c r resp dat _.
  run_search c; intros [= <-]; simpl; try done.
  intros _ [= <-]. congruence.
Qed.

Lemma successful_results_witness :
  ∃ r, PerplexityProvider.search "pplx-key" "Acme security" (Some 5000%Z) demoCall
       = fulfilled r
       ∧ success r = true
       ∧ content r = "Test research content"
       ∧ sources r = ["https://example.com"; " HTTPS://Example.COM ";
                      "https://b.example"]
       ∧ ¬ FailureMode 5000 demoCall.
Proof.
  eexists. split; [vm_compute; reflexivity|].
  split_and!; try reflexivity.
  destruct successful_results_read_first_choice as (Hp & _ & _).
  eapply (Hp "pplx-key" "Acme security" (Some 5000%Z) demoCall);
    [unfold timerDelay; simpl; lia | vm_compute; reflexivity | reflexivity].
Defined.

(** * Properties of the request handler *)

(** ** Reading fields ****************************************************)

Lemma truthy_length s : Js.truthy s = negb (String.length s =? 0)%nat.
Proof. by destruct s. Qed.

Lemma requireString_fulfilled obj key v :
  requireString obj key = fulfilled v →
  ∃ raw, property obj key = Some (JString raw) ∧ v = Js.trim raw ∧ v ≠ "".
Proof.
  unfold requireString.
  destruct (property obj key) as [[| | |raw| |]|]; try done.
  destruct (String.length (Js.trim raw) =? 0)%nat eqn:E; [done|].
  intros [= <-]. exists raw. split_and!; [done..|].
  intros Heq. by rewrite Heq in E.
Qed.

Lemma requireString_rejected obj key e :
  requireString obj key = rejected e →
  e = ErrorObject ("Missing or empty required field: " +:+ key).
Proof.
  unfold requireString.
  destruct (property obj key) as [[| | |raw| |]|]; try by intros [= <-].
  destruct (String.length (Js.trim raw) =? 0)%nat; by intros [= <-].
Qed.

Lemma demoBody_ascii : AsciiFields demoBody.
Proof.
  intros key raw. unfold property, demoBody. simpl.
  repeat case_decide; by intros [= <-].
Qed.

Lemma incompleteBody_ascii : AsciiFields incompleteBody.
Proof.
  intros key raw. unfold property, incompleteBody. simpl.
  repeat case_decide; by intros [= <-].
Qed.

(** X7 -- optional fields.  For a field whose text, if it is one, is
    within the ASCII range, [optionalString] gives the trimmed text of a
    string field that is not blank, and [null] in every other case: the
    field missing, [null], not a string, or white space only.  It never
    gives an empty text. *)
Theorem optionalString_trimmed_or_null obj key :
  (∀ raw, property obj key = Some (JString raw) → isAscii raw = true) →
  match optionalString obj key with
  | Some v =>
      v ≠ "" ∧ Js.trim v = v
      ∧ ∃ raw, property obj key = Some (JString raw) ∧ v = Js.trim raw
  | None =>
      ∀ raw, property obj key = Some (JString raw) → Js.trim raw = ""
  end.
Proof.
  intros _. unfold optionalString.
  destruct (property obj key) as [[| | |raw| |]|]; try done.
  destruct (Js.trim raw) as [|c r] eqn:E; simpl.
  - by intros ? [= <-].
  - split_and!; [done| |by exists raw]. rewrite <- E. apply trim_idem.
Qed.

Lemma optionalString_witness :
  property demoBody "additionalContext" = Some (JString "   ")
  ∧ optionalString demoBody "additionalContext" = None
  ∧ Js.trim "   " = "".
Proof.
  split; [reflexivity|]. split; [reflexivity|].
  pose proof (optionalString_trimmed_or_null demoBody "additionalContext"
                (demoBody_ascii "additionalContext")) as H.
  change (optionalString demoBody "additionalContext") with (@None string) in H.
  apply (H "   "). reflexivity.
Defined.

Lemma requireString_clean obj key v :
  requireString obj key = fulfilled v →
  Clean v ∧ ∃ raw, property obj key = Some (JString raw) ∧ v = Js.trim raw.
Proof.
  intros (raw & Hraw & -> & Hne)%requireString_fulfilled.
  split; [split; [done | apply trim_idem] | by exists raw].
Qed.

Lemma includesString_true arr x : includesString arr x = true ↔ x ∈ arr.
Proof. unfold includesString. apply bool_decide_eq_true. Qed.

(** The steps of [parseInput] once the body is there and parses. *)
Ltac parse_steps H :=
  repeat match type of H with
  | context [requireString ?obj ?k] =>
      let v := fresh "v" in let E := fresh "E" in
      destruct (requireString obj k) as [v|?] eqn:E; simpl in H; [|try done]
  | context [includesString ?arr ?x] =>
      let E := fresh "E" in
      destruct (includesString arr x) eqn:E; simpl in H; [|try done]
  end.

(** X8 -- what [parseInput] accepts.  For a request whose parsed body
    has its string fields within the ASCII range, an input [parseInput]
    returns has its six required fields not empty and free of surrounding white space, each
    the trimmed text of the string field of that name in the parsed body;
    its assessment type is one of new, annual-review, adhoc and its data
    role one of Processor, Controller, Joint Controller; and its two
    optional fields are what [optionalString] gives. *)
Theorem parseInput_accepts_clean_valid_input JSON_parse event input :
  (∀ text obj, body event = Some text →
               JSON_parse text = fulfilled (JObject obj) → AsciiFields obj) →
  parseInput JSON_parse event = fulfilled input →
  ∃ text obj,
    body event = Some text ∧ text ≠ ""
    ∧ JSON_parse text = fulfilled (JObject obj)
    ∧ requireString obj "vendorName" = fulfilled (Input.vendorName input)
    ∧ requireString obj "vendorDescription"
      = fulfilled (Input.vendorDescription input)
    ∧ requireString obj "clientName" = fulfilled (Input.clientName input)
    ∧ requireString obj "assessmentType"
      = fulfilled (Input.assessmentType input)
    ∧ requireString obj "servicesUsed" = fulfilled (Input.servicesUsed input)
    ∧ requireString obj "dataRole" = fulfilled (Input.dataRole input)
    ∧ Forall Clean
        [Input.vendorName input; Input.vendorDescription input;
         Input.clientName input; Input.assessmentType input;
         Input.servicesUsed input; Input.dataRole input]
    ∧ Input.assessmentType input ∈ VALID_ASSESSMENT_TYPES
    ∧ Input.dataRole input ∈ VALID_DATA_ROLES
    ∧ Input.supplierFormContent input = optionalString obj "supplierFormContent"
    ∧ Input.additionalContext input = optionalString obj "additionalContext".
Proof.
  intros _.
  unfold parseInput. destruct (body event) as [[|c text]|] eqn:Hbody; try done.
  unfold mbind, Settled_bind, await, tryCatch.
  destruct (JSON_parse (String c text)) as [parsed|?] eqn:Hparse; [|done].
  destruct parsed as [| | | | |obj]; simpl; try done.
  intros H. parse_steps H.
  - injection H as <-. simpl.
    exists (String c text), obj. split_and!; try done.
    + repeat constructor;
        match goal with
        | E : requireString _ _ = fulfilled ?v |- _ ≠ _ =>
            by apply requireString_clean in E as [[? ?] _]
        | |- Js.trim ?v = ?v =>
            match goal with
            | E : requireString _ _ = fulfilled v |- _ =>
                by apply requireString_clean in E as [[? ?] _]
            end
        end.
    + by apply includesString_true.
    + by apply includesString_true.
Qed.

Lemma parseInput_accepts_witness :
  ∃ input,
    parseInput demoParser (mkEvent (Some "{demo}")) = fulfilled input
    ∧ Input.vendorName input = "TestVendor, Inc."
    ∧ Input.additionalContext input = None
    ∧ Input.assessmentType input ∈ VALID_ASSESSMENT_TYPES.
Proof.
  eexists. split; [vm_compute; reflexivity|].
  split; [reflexivity|]. split; [reflexivity|].
  destruct (parseInput_accepts_clean_valid_input demoParser
              (mkEvent (Some "{demo}"))
              (Input.mk "TestVendor, Inc." "A test vendor" "TestClient, LLC"
                 "annual-review" "SaaS Platform" "Processor" None None))
    as (text & obj & H);
    [ intros text obj [= <-] [= <-]; apply demoBody_ascii
    | vm_compute; reflexivity | ].
  by destruct H as (_ & _ & _ & _ & _ & _ & _ & _ & _ & _ & Htype & _).
Defined.

Lemma requireString_cases obj key :
  (∃ v, requireString obj key = fulfilled v)
  ∨ requireString obj key
    = rejected (ErrorObject ("Missing or empty required field: " +:+ key)).
Proof.
  destruct (requireString obj key) as [v|e] eqn:E; [left; by exists v|right].
  by rewrite (requireString_rejected _ _ _ E).
Qed.

(** X9 -- what [parseInput] rejects, and with which message.  A missing or
    empty body is refused before anything is parsed; a body that does not
    parse gives "Invalid JSON in request body"; for a parsed body whose
    string fields are within the ASCII range, of the required fields the
    first one in reading order that is missing, not a string or blank is
    the one the error names, and the assessment type is checked before
    the data role; and every error thrown is an [Error] object. *)
Theorem parseInput_reports_first_failure JSON_parse event :
  (body event = None ∨ body event = Some "" →
   parseInput JSON_parse event
   = rejected (ErrorObject "Request body is required"))
  ∧ (∀ text e,
       body event = Some text → text ≠ "" → JSON_parse text = rejected e →
       parseInput JSON_parse event
       = rejected (ErrorObject "Invalid JSON in request body"))
  ∧ (∀ text obj pre k post,
       body event = Some text → text ≠ "" →
       JSON_parse text = fulfilled (JObject obj) → AsciiFields obj →
       requiredKeys = pre ++ k :: post →
       Forall (fun k' => ∃ v, requireString obj k' = fulfilled v) pre →
       (∀ v, requireString obj k ≠ fulfilled v) →
       parseInput JSON_parse event
       = rejected (ErrorObject ("Missing or empty required field: " +:+ k)))
  ∧ (∀ text obj assessmentType,
       body event = Some text → text ≠ "" →
       JSON_parse text = fulfilled (JObject obj) → AsciiFields obj →
       Forall (fun k' => ∃ v, requireString obj k' = fulfilled v) requiredKeys →
       requireString obj "assessmentType" = fulfilled assessmentType →
       assessmentType ∉ VALID_ASSESSMENT_TYPES →
       parseInput JSON_parse event
       = rejected (ErrorObject ("Invalid assessmentType: " +:+ assessmentType
                                +:+ ". Must be one of: new, annual-review, adhoc")))
  ∧ (∀ reason,
       parseInput JSON_parse event = rejected reason →
       ∃ msg, reason = ErrorObject msg).
Proof.
  split_and!.
  - unfold parseInput. by intros [-> | ->].
  - intros text e Hbody Hne Hparse. unfold parseInput. rewrite Hbody.
    destruct text; [done|]. by rewrite Hparse.
  - intros text obj pre k post Hbody Hne Hparse _ Hkeys Hpre Hk.
    unfold parseInput. rewrite Hbody. destruct text; [done|].
    rewrite Hparse. unfold mbind, Settled_bind, await, tryCatch. simpl.
    assert (requireString obj k
            = rejected (ErrorObject ("Missing or empty required field: " +:+ k)))
      as Hrej.
    { destruct (requireString_cases obj k) as [[v Hv]|?]; [|done].
      by destruct (Hk v). }
    unfold requiredKeys in Hkeys.
    repeat (destruct pre as [|? pre];
            [injection Hkeys as <- <-; by rewrite ?Hrej |
             injection Hkeys as <- Hkeys;
             apply Forall_cons in Hpre as [[? ->] Hpre]]).
    destruct pre; simpl in Hkeys; discriminate Hkeys.
  - intros text obj assessmentType Hbody Hne Hparse _ Hall Htype Hinvalid.
    unfold parseInput. rewrite Hbody. destruct text; [done|].
    rewrite Hparse. unfold mbind, Settled_bind, await, tryCatch. simpl.
    unfold requiredKeys in Hall.
    rewrite Forall_forall in Hall.
    assert (∀ k', k' ∈ ["vendorName"; "vendorDescription"; "clientName";
                        "servicesUsed"; "dataRole"] →
                  ∃ v, requireString obj k' = fulfilled v) as Hget.
    { intros k' Hk'. apply Hall. set_solver. }
    destruct (Hget "vendorName") as [? ->]; [set_solver|].
    destruct (Hget "vendorDescription") as [? ->]; [set_solver|].
    destruct (Hget "clientName") as [? ->]; [set_solver|].
    destruct (Hget "servicesUsed") as [? ->]; [set_solver|].
    destruct (Hget "dataRole") as [? ->]; [set_solver|].
    rewrite Htype.
    assert (includesString VALID_ASSESSMENT_TYPES assessmentType = false) as ->.
    { apply not_true_iff_false. by rewrite includesString_true. }
    reflexivity.
  - intros reason. unfold parseInput.
    destruct (body event) as [[|c text]|]; [intros [= <-]; eauto| |intros [= <-]; eauto].
    unfold mbind, Settled_bind, await, tryCatch.
    destruct (JSON_parse (String c text)) as [parsed|?]; [|intros [= <-]; eauto].
    destruct parsed as [| | | | |obj]; simpl; try (intros [= <-]; eauto).
    intros H. parse_steps H;
      repeat match goal with
             | E : requireString _ _ = rejected _ |- _ =>
                 apply requireString_rejected in E; subst
             end;
      simplify_eq; eauto.
Qed.

Lemma parseInput_reports_witness :
  parseInput demoParser (mkEvent None)
  = rejected (ErrorObject "Request body is required")
  ∧ parseInput incompleteParser (mkEvent (Some "{}"))
    = rejected (ErrorObject "Missing or empty required field: vendorDescription").
Proof.
  split.
  - apply (parseInput_reports_first_failure demoParser (mkEvent None)).
    by left.
  - destruct (parseInput_reports_first_failure incompleteParser
                (mkEvent (Some "{}"))) as (_ & _ & Hfield & _).
    apply (Hfield "{}" incompleteBody ["vendorName"] "vendorDescription"
             ["clientName"; "assessmentType"; "servicesUsed"; "dataRole"]);
      try done.
    + apply incompleteBody_ascii.
    + repeat constructor. by exists "TestVendor".
Defined.

(** ** The report file name **********************************************)

Lemma isAlnum_not_hyphen c : isAlnum c = true → c ≠ "-"%char.
Proof. by intros H ->. Qed.

Lemma hyphenateFrom_hyphenated inRun s :
  hyphenated inRun (hyphenateFrom inRun s) = true.
Proof.
  revert inRun. induction s as [|c s IH]; intros inRun; simpl; [done|].
  destruct (isAlnum c) eqn:Hc.
  - simpl. rewrite decide_False by (by apply isAlnum_not_hyphen).
    by rewrite Hc, IH.
  - destruct inRun; [apply IH|]. simpl. by rewrite IH.
Qed.

Lemma stripHyphens_slugShape afterHyphen s :
  hyphenated afterHyphen s = true → slugShape (stripHyphens s) = true.
Proof.
  revert afterHyphen. induction s as [|c s IH]; intros afterHyphen; simpl; [done|].
  destruct (decide (c = "-"%char)) as [->|Hc].
  - intros [_ Hs]%andb_true_iff. specialize (IH true Hs).
    destruct (stripHyphens s) as [|d r] eqn:E; [done|].
    cbn [slugShape]. rewrite decide_True by done.
    apply andb_true_iff. split; [|done].
    destruct s as [|e s']; [done|]. simpl in Hs.
    destruct (decide (e = "-"%char)); [done|].
    simpl in E.
    destruct (stripHyphens s'); [rewrite decide_False in E by done|];
      simplify_eq; by rewrite bool_decide_eq_false_2.
  - intros [Hc' Hs]%andb_true_iff. specialize (IH false Hs).
    destruct (stripHyphens s) as [|d r] eqn:E.
    + simpl. rewrite !decide_False by done. by rewrite Hc'.
    + cbn [slugShape]. rewrite decide_False by done. rewrite Hc'. exact IH.
Qed.

Lemma hyphenateFrom_alnum inRun s :
  forallb isAlnum (list_ascii_of_string s) = true →
  hyphenateFrom inRun s = s.
Proof.
  revert inRun. induction s as [|c s IH]; intros inRun; simpl; [done|].
  intros [Hc Hs]%andb_true_iff. by rewrite Hc, IH.
Qed.

Lemma stripHyphens_alnum s :
  forallb isAlnum (list_ascii_of_string s) = true → stripHyphens s = s.
Proof.
  induction s as [|c s IH]; simpl; [done|].
  intros [Hc Hs]%andb_true_iff. rewrite IH by done.
  destruct s; [|done]. rewrite decide_False; [done|].
  by apply isAlnum_not_hyphen.
Qed.

(** X10 -- the report file name.  Whatever the vendor name, the slug put
    into the file name holds only letters, digits and hyphens, never two
    hyphens in a row and never a hyphen at its end; when the short name is
    made of letters and digits only, the slug is the short name. *)
Theorem vendorSlug_is_safe vendorName :
  slugShape (vendorSlugOf vendorName) = true
  ∧ (forallb isAlnum (list_ascii_of_string (shortNameOf vendorName)) = true →
     vendorSlugOf vendorName = shortNameOf vendorName).
Proof.
  unfold vendorSlugOf, hyphenate, shortNameOf. split.
  - eapply stripHyphens_slugShape, hyphenateFrom_hyphenated.
  - intros Hal. by rewrite hyphenateFrom_alnum, stripHyphens_alnum.
Qed.

Lemma vendorSlug_witness :
  vendorSlugOf "TestVendor, Inc." = "TestVendor"
  ∧ vendorSlugOf "(Acme & Sons) -- Ltd." = "-Acme-Sons"
  ∧ reportFilenameOf "TestVendor, Inc." "2026-02-06"
    = "DPSIA-TestVendor-2026-02-06.docx".
Proof.
  split.
  - apply (vendorSlug_is_safe "TestVendor, Inc."). reflexivity.
  - split; reflexivity.
Defined.

(** ** Secrets and their cache *)

Lemma truthy_nonempty (s : string) : Js.truthy s = true ↔ s ≠ "".
Proof. destruct s; simpl; split; try done. Qed.

Lemma envValue_nonempty (e : gmap string string) (key v : string) :
  envValue e key = Some v → e !! key = Some v ∧ v ≠ "".
Proof.
  unfold envValue. destruct (e !! key) as [v'|]; [|done].
  destruct (Js.truthy v') eqn:E; [|done].
  intros [= ->]. split; [done|]. by apply truthy_nonempty.
Qed.

Lemma getFromEnv_complete (e : gmap string string) (s : DPSIASecrets) :
  getFromEnv e = Some s → Complete s.
Proof.
  unfold getFromEnv.
  destruct (envValue e "ANTHROPIC_API_KEY") as [a|] eqn:Ea; [|done].
  destruct (envValue e "PERPLEXITY_API_KEY") as [p|] eqn:Ep; [|done].
  destruct (envValue e "GOOGLE_API_KEY") as [g|] eqn:Eg; [|done].
  destruct (envValue e "XAI_API_KEY") as [x|] eqn:Ex; [|done].
  intros [= <-]. unfold Complete; simpl.
  apply envValue_nonempty in Ea, Ep, Eg, Ex. tauto.
Qed.

Lemma requireKey_fulfilled (obj : list (string * string)) (key v : string) :
  requireKey obj key = fulfilled v ↔ mapGet obj key = Some v ∧ v ≠ "".
Proof.
  unfold requireKey. destruct (mapGet obj key) as [v'|]; [|naive_solver].
  destruct (Js.truthy v') eqn:E.
  - apply truthy_nonempty in E. naive_solver.
  - split; [done|]. intros [[= ->] Hv]. apply truthy_nonempty in Hv. congruence.
Qed.

Lemma requireKey_cases (obj : list (string * string)) (key : string) :
  (∃ v, requireKey obj key = fulfilled v ∧ mapGet obj key = Some v ∧ v ≠ "")
  ∨ (requireKey obj key
       = rejected (ErrorObject ("Missing required secret: " +:+ key))
     ∧ ¬ present obj key).
Proof.
  unfold requireKey, present. destruct (mapGet obj key) as [v|].
  - destruct (Js.truthy v) eqn:E.
    + left. exists v. apply truthy_nonempty in E. done.
    + right. split; [done|]. intros (v' & [= <-] & Hv).
      apply truthy_nonempty in Hv. congruence.
  - right. split; [done|]. by intros (v' & ? & _).
Qed.

Lemma settle_resolves {A : Type} (outcome : Settled A) (v : A) :
  settle outcome = Resolves v ↔ outcome = fulfilled v.
Proof. destruct outcome; simpl; split; congruence. Qed.

Lemma settle_rejects {A : Type} (outcome : Settled A) (reason : Thrown) :
  settle outcome = Rejects reason ↔ outcome = rejected reason.
Proof. destruct outcome; simpl; split; congruence. Qed.

Lemma readSecret_complete (w : SecretsWorld) response (s : DPSIASecrets) :
  readSecret w response = fulfilled s → Complete s.
Proof.
  unfold readSecret; simpl.
  destruct response as [text|]; simpl; try done.
  destruct (Js.truthy text); simpl; [|done].
  destruct (parseSecret w text) as [[obj|]|]; simpl; try done.
  destruct (requireKey obj "ANTHROPIC_API_KEY") as [a|] eqn:Ea; simpl; [|done].
  destruct (requireKey obj "PERPLEXITY_API_KEY") as [p|] eqn:Ep; simpl; [|done].
  destruct (requireKey obj "GOOGLE_API_KEY") as [g|] eqn:Eg; simpl; [|done].
  destruct (requireKey obj "XAI_API_KEY") as [x|] eqn:Ex; simpl; [|done].
  intros [= <-]. unfold Complete; simpl.
  apply requireKey_fulfilled in Ea, Ep, Eg, Ex. tauto.
Qed.

Lemma fetchSecrets_complete (w : SecretsWorld) (s : DPSIASecrets) :
  fetchSecrets w = Resolves s → Complete s.
Proof.
  unfold fetchSecrets. destruct (secretString w) as [|response|]; try done.
  intros Hs%settle_resolves. by eapply readSecret_complete.
Qed.

(** What a call does when the cache is not used. *)
Lemma getSecrets_stale (st : SecretsCache) (w : SecretsWorld) :
  Stale st w →
  getSecrets st w =
    match getFromEnv (env w) with
    | Some fromEnv =>
        (Resolves fromEnv, mkCache (Some fromEnv) (nowStore w + CACHE_TTL_MS))
    | None =>
        match fetchSecrets w with
        | Resolves secrets =>
            (Resolves secrets,
             mkCache (Some secrets) (nowStore w + CACHE_TTL_MS))
        | Rejects reason => (Rejects reason, st)
        | Pending => (Pending, st)
        end
    end.
Proof.
  intros [Hnone|Hexp]; unfold getSecrets.
  - by rewrite Hnone.
  - destruct (cached st); [|done].
    destruct (Z.ltb_spec (nowCheck w) (cacheExpiry st)); [lia|done].
Qed.

Lemma getSecrets_fresh (st : SecretsCache) (w : SecretsWorld) (s : DPSIASecrets) :
  cached st = Some s → (nowCheck w < cacheExpiry st)%Z →
  getSecrets st w = (Resolves s, st).
Proof.
  intros Hs Hlt. unfold getSecrets. rewrite Hs.
  by destruct (Z.ltb_spec (nowCheck w) (cacheExpiry st)); [|lia].
Qed.

Lemma getSecrets_cases (st : SecretsCache) (w : SecretsWorld) :
  (∃ s, cached st = Some s ∧ (nowCheck w < cacheExpiry st)%Z)
  ∨ Stale st w.
Proof.
  unfold Stale. destruct (cached st) as [s|]; [|by right; left].
  destruct (Z.ltb_spec (nowCheck w) (cacheExpiry st)).
  - left. by exists s.
  - right. by right.
Qed.

Lemma getSecrets_keeps_CacheOk (st st' : SecretsCache) (w : SecretsWorld)
    (r : Promise DPSIASecrets) :
  CacheOk st → getSecrets st w = (r, st') →
  CacheOk st' ∧ ∀ s, r = Resolves s → Complete s.
Proof.
  intros Hok. destruct (getSecrets_cases st w) as [(s & Hs & Hlt)|Hstale].
  - rewrite (getSecrets_fresh st w s Hs Hlt). intros [= <- <-].
    split; [done|]. intros s' [= <-]. unfold CacheOk in Hok. by rewrite Hs in Hok.
  - rewrite (getSecrets_stale st w Hstale).
    destruct (getFromEnv (env w)) as [e|] eqn:Ee.
    + intros [= <- <-]. apply getFromEnv_complete in Ee.
      split; [done|]. by intros s' [= <-].
    + destruct (fetchSecrets w) as [|s|reason] eqn:Ef; intros [= <- <-].
      * split; [done|]. by intros s' [=].
      * apply fetchSecrets_complete in Ef. split; [done|]. by intros s' [= <-].
      * split; [done|]. by intros s' [=].
Qed.

(** X11 -- A call of [getSecrets] that returns secrets leaves them in the
    cache, and every later call whose clock reads less than the expiry it
    left returns the same secrets and leaves the state alone, whatever the
    environment and Secrets Manager hold by then.  When the call did not
    use the cache itself, that expiry is five minutes (300000 ms) after
    the clock reading at which it stored them. *)
Theorem secrets_served_from_cache_for_ttl
    (st st' : SecretsCache) (w : SecretsWorld) (s : DPSIASecrets) :
  getSecrets st w = (Resolves s, st') →
  cached st' = Some s
  ∧ (∀ w', (nowCheck w' < cacheExpiry st')%Z →
           getSecrets st' w' = (Resolves s, st'))
  ∧ (Stale st w → cacheExpiry st' = (nowStore w + 300000)%Z).
Proof.
  intros Hget.
  assert (cached st' = Some s) as Hc.
  { destruct (getSecrets_cases st w) as [(s0 & Hs & Hlt)|Hstale].
    - rewrite (getSecrets_fresh st w s0 Hs Hlt) in Hget. by simplify_eq.
    - rewrite (getSecrets_stale st w Hstale) in Hget.
      destruct (getFromEnv (env w)); [by simplify_eq|].
      destruct (fetchSecrets w); by simplify_eq. }
  split_and!; [done| |].
  - intros w' Hlt. by apply getSecrets_fresh.
  - intros Hstale. rewrite (getSecrets_stale st w Hstale) in Hget.
    destruct (getFromEnv (env w)); [by simplify_eq|].
    destruct (fetchSecrets w); by simplify_eq.
Qed.

Lemma secrets_served_from_cache_witness :
  cached (getSecrets emptyCache (lambdaWorld 1000)).2 = Some demoSecrets
  ∧ (∀ w', (nowCheck w' < cacheExpiry (getSecrets emptyCache (lambdaWorld 1000)).2)%Z →
           getSecrets (getSecrets emptyCache (lambdaWorld 1000)).2 w'
           = (Resolves demoSecrets, (getSecrets emptyCache (lambdaWorld 1000)).2))
  ∧ (Stale emptyCache (lambdaWorld 1000) →
     cacheExpiry (getSecrets emptyCache (lambdaWorld 1000)).2 = (1040 + 300000)%Z).
Proof.
  apply (secrets_served_from_cache_for_ttl emptyCache _ (lambdaWorld 1000) demoSecrets).
  reflexivity.
Defined.

(** X12 -- A call of [getSecrets] that rejects leaves the module state as
    it found it, and it rejects only when the cache was empty or expired,
    the environment lacked one of the four keys and the fetch from
    Secrets Manager failed with that very reason.  In particular secrets
    whose expiry has passed are not served when the refresh fails. *)
Theorem failed_refresh_keeps_cache
    (st st' : SecretsCache) (w : SecretsWorld) (reason : Thrown) :
  getSecrets st w = (Rejects reason, st') →
  st' = st ∧ Stale st w ∧ getFromEnv (env w) = None
  ∧ fetchSecrets w = Rejects reason.
Proof.
  intros Hget. destruct (getSecrets_cases st w) as [(s0 & Hs & Hlt)|Hstale].
  - rewrite (getSecrets_fresh st w s0 Hs Hlt) in Hget. by simplify_eq.
  - rewrite (getSecrets_stale st w Hstale) in Hget.
    destruct (getFromEnv (env w)); [by simplify_eq|].
    destruct (fetchSecrets w) eqn:Ef; by simplify_eq.
Qed.

Lemma failed_refresh_witness :
  (getSecrets (mkCache (Some demoSecrets) 500) (unreachableWorld 1000)).2
    = mkCache (Some demoSecrets) 500
  ∧ Stale (mkCache (Some demoSecrets) 500) (unreachableWorld 1000)
  ∧ getFromEnv (env (unreachableWorld 1000)) = None
  ∧ fetchSecrets (unreachableWorld 1000)
    = Rejects (ErrorObject "connect ETIMEDOUT").
Proof.
  apply (failed_refresh_keeps_cache (mkCache (Some demoSecrets) 500) _
           (unreachableWorld 1000) (ErrorObject "connect ETIMEDOUT")).
  reflexivity.
Defined.

(** X13 -- Over any sequence of calls in one container, starting from the
    empty cache, every call that returns secrets returns all four keys
    non-empty, and the cache at the end holds nothing or such secrets. *)
Theorem served_secrets_are_complete (ws : list SecretsWorld) :
  Forall (fun r => ∀ s, r = Resolves s → Complete s)
         (getSecretsRun emptyCache ws).1
  ∧ CacheOk (getSecretsRun emptyCache ws).2.
Proof.
  assert (∀ st, CacheOk st →
            Forall (fun r => ∀ s, r = Resolves s → Complete s)
                   (getSecretsRun st ws).1
            ∧ CacheOk (getSecretsRun st ws).2) as Hgen.
  { induction ws as [|w ws IH]; intros st Hok; simpl.
    - split; [constructor|done].
    - destruct (getSecrets st w) as [r st1] eqn:E1.
      destruct (getSecrets_keeps_CacheOk st st1 w r Hok E1) as [Hok1 Hr].
      destruct (getSecretsRun st1 ws) as [rs st2] eqn:E2.
      specialize (IH st1 Hok1). rewrite E2 in IH. destruct IH as [IH1 IH2].
      simpl. split; [by constructor|done]. }
  apply Hgen. done.
Qed.

(** X14 -- When the cache is not used, the four environment variables are
    taken together or not at all: with all four set and non-empty the
    call returns exactly them, whatever Secrets Manager would answer; with
    one of them unset or empty no environment value is used and the
    outcome is that of the fetch from Secrets Manager. *)
Theorem environment_keys_all_or_nothing (st : SecretsCache) (w : SecretsWorld) :
  Stale st w →
  (∀ a p g x,
     envValue (env w) "ANTHROPIC_API_KEY" = Some a →
     envValue (env w) "PERPLEXITY_API_KEY" = Some p →
     envValue (env w) "GOOGLE_API_KEY" = Some g →
     envValue (env w) "XAI_API_KEY" = Some x →
     (getSecrets st w).1 = Resolves (mkSecrets a p g x))
  ∧ (∀ key, key ∈ secretKeys → envValue (env w) key = None →
            (getSecrets st w).1 = fetchSecrets w).
Proof.
  intros Hstale. rewrite (getSecrets_stale st w Hstale). split.
  - intros a p g x Ha Hp Hg Hx. unfold getFromEnv. by rewrite Ha, Hp, Hg, Hx.
  - intros key Hin Hnone.
    assert (getFromEnv (env w) = None) as ->.
    { unfold getFromEnv, secretKeys in *.
      repeat (apply elem_of_cons in Hin as [-> |Hin];
              [rewrite Hnone; by repeat case_match|]).
      by apply elem_of_nil in Hin. }
    by destruct (fetchSecrets w).
Qed.

Lemma environment_keys_witness :
  (∀ a p g x,
     envValue (env (lambdaWorld 0)) "ANTHROPIC_API_KEY" = Some a →
     envValue (env (lambdaWorld 0)) "PERPLEXITY_API_KEY" = Some p →
     envValue (env (lambdaWorld 0)) "GOOGLE_API_KEY" = Some g →
     envValue (env (lambdaWorld 0)) "XAI_API_KEY" = Some x →
     (getSecrets emptyCache (lambdaWorld 0)).1 = Resolves (mkSecrets a p g x))
  ∧ (∀ key, key ∈ secretKeys → envValue (env (lambdaWorld 0)) key = None →
            (getSecrets emptyCache (lambdaWorld 0)).1 = fetchSecrets (lambdaWorld 0)).
Proof.
  apply (environment_keys_all_or_nothing emptyCache (lambdaWorld 0)).
  left. reflexivity.
Defined.

(** X15 -- Once Secrets Manager has answered with a non-empty string that
    parses to an object, the fetch fails exactly on the first of the four
    keys, in the order Anthropic, Perplexity, Google, xAI, that the
    object lacks or holds empty, with the message
    [Missing required secret: <key>]; with all four present it returns the
    four values of the object. *)
Theorem fetch_names_first_missing_key
    (w : SecretsWorld) (text : string) (obj : list (string * string)) :
  secretString w = Resolves (Some text) → text ≠ "" →
  parseSecret w text = fulfilled (Some obj) →
  (∀ pre key post, secretKeys = pre ++ key :: post →
     Forall (present obj) pre → ¬ present obj key →
     fetchSecrets w
     = Rejects (ErrorObject ("Missing required secret: " +:+ key)))
  ∧ (Forall (present obj) secretKeys →
     ∃ s, fetchSecrets w = Resolves s
          ∧ mapGet obj "ANTHROPIC_API_KEY" = Some (ANTHROPIC_API_KEY s)
          ∧ mapGet obj "PERPLEXITY_API_KEY" = Some (PERPLEXITY_API_KEY s)
          ∧ mapGet obj "GOOGLE_API_KEY" = Some (GOOGLE_API_KEY s)
          ∧ mapGet obj "XAI_API_KEY" = Some (XAI_API_KEY s)).
Proof.
  intros Hs Ht Hp.
  assert (∀ key, present obj key →
            ∃ v, requireKey obj key = fulfilled v ∧ mapGet obj key = Some v)
    as Hpres.
  { intros key (v & Hv & Hne). exists v. split; [|done].
    by apply requireKey_fulfilled. }
  assert (∀ key, ¬ present obj key →
            requireKey obj key
            = rejected (ErrorObject ("Missing required secret: " +:+ key)))
    as Habs.
  { intros key Hn. by destruct (requireKey_cases obj key) as [(v & _ & ? & ?)|[? _]];
      [destruct Hn; exists v|]. }
  apply truthy_nonempty in Ht.
  unfold fetchSecrets, readSecret. rewrite Hs. simpl. rewrite Ht. simpl.
  rewrite Hp. simpl.
  split.
  - intros pre key post Hkeys Hpre Hkey. unfold secretKeys in Hkeys.
    destruct pre as [|k1 pre]; simplify_eq/=.
    { by rewrite (Habs _ Hkey). }
    apply Forall_cons in Hpre as [(v1 & -> & _)%Hpres Hpre]. simpl.
    destruct pre as [|k2 pre]; simplify_eq/=.
    { by rewrite (Habs _ Hkey). }
    apply Forall_cons in Hpre as [(v2 & -> & _)%Hpres Hpre]. simpl.
    destruct pre as [|k3 pre]; simplify_eq/=.
    { by rewrite (Habs _ Hkey). }
    apply Forall_cons in Hpre as [(v3 & -> & _)%Hpres Hpre]. simpl.
    destruct pre as [|k4 pre]; simplify_eq/=.
    { by rewrite (Habs _ Hkey). }
    destruct pre; simplify_eq/=.
  - intros Hall. unfold secretKeys in Hall.
    apply Forall_cons in Hall as [(v1 & -> & ?)%Hpres Hall].
    apply Forall_cons in Hall as [(v2 & -> & ?)%Hpres Hall].
    apply Forall_cons in Hall as [(v3 & -> & ?)%Hpres Hall].
    apply Forall_cons in Hall as [(v4 & -> & ?)%Hpres Hall].
    simpl. eexists. split; [reflexivity|]. simpl. done.
Qed.

Lemma fetch_names_first_missing_witness :
  (∀ pre key post, secretKeys = pre ++ key :: post →
     Forall (present [("ANTHROPIC_API_KEY", "sk-ant"); ("GOOGLE_API_KEY", "g")]) pre →
     ¬ present [("ANTHROPIC_API_KEY", "sk-ant"); ("GOOGLE_API_KEY", "g")] key →
     fetchSecrets (mkSecretsWorld 0 0 ∅ (Resolves (Some "{}"))
                     (fun _ => fulfilled (Some [("ANTHROPIC_API_KEY", "sk-ant");
                                                ("GOOGLE_API_KEY", "g")])))
     = Rejects (ErrorObject ("Missing required secret: " +:+ key)))
  ∧ (Forall (present [("ANTHROPIC_API_KEY", "sk-ant"); ("GOOGLE_API_KEY", "g")])
            secretKeys →
     ∃ s, fetchSecrets (mkSecretsWorld 0 0 ∅ (Resolves (Some "{}"))
                     (fun _ => fulfilled (Some [("ANTHROPIC_API_KEY", "sk-ant");
                                                ("GOOGLE_API_KEY", "g")])))
          = Resolves s
          ∧ mapGet [("ANTHROPIC_API_KEY", "sk-ant"); ("GOOGLE_API_KEY", "g")]
                   "ANTHROPIC_API_KEY" = Some (ANTHROPIC_API_KEY s)
          ∧ mapGet [("ANTHROPIC_API_KEY", "sk-ant"); ("GOOGLE_API_KEY", "g")]
                   "PERPLEXITY_API_KEY" = Some (PERPLEXITY_API_KEY s)
          ∧ mapGet [("ANTHROPIC_API_KEY", "sk-ant"); ("GOOGLE_API_KEY", "g")]
                   "GOOGLE_API_KEY" = Some (GOOGLE_API_KEY s)
          ∧ mapGet [("ANTHROPIC_API_KEY", "sk-ant"); ("GOOGLE_API_KEY", "g")]
                   "XAI_API_KEY" = Some (XAI_API_KEY s)).
Proof.
  apply (fetch_names_first_missing_key
           (mkSecretsWorld 0 0 ∅ (Resolves (Some "{}"))
              (fun _ => fulfilled (Some [("ANTHROPIC_API_KEY", "sk-ant");
                                         ("GOOGLE_API_KEY", "g")])))
           "{}"
           [("ANTHROPIC_API_KEY", "sk-ant"); ("GOOGLE_API_KEY", "g")]).
  - reflexivity.
  - discriminate.
  - reflexivity.
Defined.

(** * Properties of the synthesis step *)

Lemma lowerChar_backtick a : Js.lowerChar "`" = Js.lowerChar a → a = "`"%char.
Proof. by destruct a as [[] [] [] [] [] [] [] []]. Qed.

Lemma lowerChar_lf a : Js.lowerChar "010" = Js.lowerChar a → a = "010"%char.
Proof. by destruct a as [[] [] [] [] [] [] [] []]. Qed.

Lemma Matches_backticks s : Matches (Regex.Lit "```") s ↔ s = "```".
Proof.
  split.
  - simpl. intros H.
    inversion H as [| | |? ? s1 r1 H1 Hr1| | | | | |]; subst.
    inversion H1 as [|? ? E1| | | | | | | |]; subst.
    inversion Hr1 as [| | |? ? s2 r2 H2 Hr2| | | | | |]; subst.
    inversion H2 as [|? ? E2| | | | | | | |]; subst.
    inversion Hr2 as [| | |? ? s3 r3 H3 Hr3| | | | | |]; subst.
    inversion H3 as [|? ? E3| | | | | | | |]; subst.
    inversion Hr3; subst.
    by rewrite (lowerChar_backtick _ E1), (lowerChar_backtick _ E2),
      (lowerChar_backtick _ E3).
  - intros ->. simpl.
    change "```" with ("`" +:+ ("`" +:+ ("`" +:+ ""))).
    repeat (constructor; [by constructor|]). constructor.
Qed.

(** What the closing pattern matches: an optional line feed, three
    backticks, white space. *)
Lemma closingFence_Matches s :
  Regex.matchesToEnd closingFence s = true
  ↔ ∃ nl ws, s = nl +:+ "```" +:+ ws ∧ (nl = "" ∨ nl = newline)
             ∧ allSpace ws = true.
Proof.
  rewrite matchesToEnd_Matches. unfold closingFence. split.
  - inversion 1 as [| | |? ? nl rest Hnl Hrest| | | | | |]; subst.
    inversion Hrest as [| | |? ? ticks ws Hticks Hws| | | | | |]; subst.
    apply Matches_backticks in Hticks as ->.
    exists nl, ws. split_and!; [done| |by apply Matches_star_space].
    inversion Hnl as [| | | | | |?|? ? Hc| |]; subst; [by left|].
    inversion Hc as [|? ? Heq| | | | | | | |]; subst.
    right. by rewrite (lowerChar_lf _ Heq).
  - intros (nl & ws & -> & Hnl & Hws).
    constructor.
    + destruct Hnl as [-> | ->]; [constructor|].
      apply MatchesOptSome. by constructor.
    + constructor; [by apply Matches_backticks | by apply Matches_star_space].
Qed.

(** A text that ends with a line feed and three backticks matches the
    closing pattern from its last four characters on, and from nowhere
    before. *)
Lemma closingFence_only_at_end (front : string) :
  Regex.matchesToEnd closingFence (front +:+ newline +:+ "```") = true →
  front = "".
Proof.
  intros (nl & ws & Heq & Hnl & Hws)%closingFence_Matches.
  assert (ws = "") as ->.
  { destruct ws as [|w ws]; [done|]. exfalso.
    apply (f_equal lastChar) in Heq.
    rewrite <- !string_app_assoc in Heq.
    rewrite (lastChar_app (front +:+ newline) "```") in Heq by done.
    rewrite (lastChar_app (nl +:+ "```") (String w ws)) in Heq by done.
    symmetry in Heq. by apply (lastChar_allSpace _ _ Hws) in Heq. }
  apply (f_equal String.length) in Heq.
  rewrite !string_length_app in Heq.
  destruct front; [done|].
  destruct Hnl as [-> | ->]; simpl in Heq; lia.
Qed.

Lemma stripClosingFence_end (front : string) :
  stripClosingFence (front +:+ newline +:+ "```") = front.
Proof.
  induction front as [|c front IH]; [done|].
  rewrite string_app_cons. cbn [stripClosingFence].
  destruct (Regex.matchesToEnd closingFence
              (String c (front +:+ newline +:+ "```"))) eqn:E.
  - change (String c (front +:+ newline +:+ "```"))
      with (String c front +:+ newline +:+ "```") in E.
    by apply closingFence_only_at_end in E.
  - by rewrite IH.
Qed.

Lemma trimStart_allSpace (ws rest : string) :
  allSpace ws = true → Js.trimStart (ws +:+ rest) = Js.trimStart rest.
Proof.
  induction ws as [|c ws IH]; [done|].
  rewrite string_app_cons. simpl. intros [Hc Hws]%andb_true_iff.
  rewrite Hc. by apply IH.
Qed.

Lemma trimEnd_allSpace (ws : string) : allSpace ws = true → Js.trimEnd ws = "".
Proof.
  induction ws as [|c ws IH]; [done|].
  simpl. intros [Hc Hws]%andb_true_iff. by rewrite IH, Hc.
Qed.

Lemma trimEnd_app_kept (a b : string) :
  Js.trimEnd b ≠ "" → Js.trimEnd (a +:+ b) = a +:+ Js.trimEnd b.
Proof.
  intros Hb. induction a as [|c a IH]; [done|].
  rewrite !string_app_cons. simpl. rewrite IH.
  destruct (Js.trimEnd b) as [|d r]; [done|].
  destruct a; by rewrite ?string_app_nil_l, ?string_app_cons.
Qed.

Lemma trimEnd_backtick_space (ws : string) :
  allSpace ws = true → Js.trimEnd ("`" +:+ ws) = "`".
Proof.
  intros Hws. change ("`" +:+ ws) with (String "`" ws). simpl.
  by rewrite (trimEnd_allSpace ws Hws).
Qed.

(** White space before a text that is not all white space is what
    [trimStart] removes from the two together. *)
Lemma trimStart_app_body (body rest : string) :
  (allSpace body = true ∧ Js.trimStart body = ""
   ∧ Js.trimStart (body +:+ rest) = Js.trimStart rest)
  ∨ Js.trimStart (body +:+ rest) = Js.trimStart body +:+ rest.
Proof.
  induction body as [|c body IH]; [left; done|].
  rewrite string_app_cons. simpl. destruct (Js.isSpace c) eqn:Hc.
  - destruct IH as [(? & ? & ?)|IH]; [left|right]; done.
  - right. by rewrite string_app_cons.
Qed.

(** X16 -- a fenced reply is unwrapped.  For a reply within the ASCII
    range that consists of a code fence, with or without the language tag
    [json], the body on lines of its own and the closing fence, with any
    white space around the whole, the text handed to [JSON.parse] is the
    body without its leading white space, whatever the body contains.  A
    reply within the ASCII range that does not start with three backticks
    once trimmed is handed over trimmed and otherwise untouched, closing
    fence included. *)
Theorem fenced_reply_is_unwrapped :
  (∀ pre lang body post,
     allSpace pre = true → allSpace post = true → lang ∈ [""; "json"] →
     isAscii body = true →
     extractJson (fenced pre lang body post) = Js.trimStart body)
  ∧ (∀ text, isAscii text = true →
             Js.startsWith "```" (Js.trim text) = false →
             extractJson text = Js.trim text).
Proof.
  split.
  - intros pre lang body post Hpre Hpost Hlang _.
    set (inner := lang +:+ newline +:+ body +:+ newline +:+ "``").
    assert (Js.trim (fenced pre lang body post) = "```" +:+ inner +:+ "`")
      as Htrim.
    { unfold Js.trim, fenced. rewrite (trimStart_allSpace pre _ Hpre).
      change (Js.trimStart ("```" +:+ ?x)) with ("```" +:+ x).
      replace ("```" +:+ lang +:+ newline +:+ body +:+ newline +:+ "```" +:+ post)
        with (("```" +:+ inner) +:+ ("`" +:+ post)).
      2:{ unfold inner. by rewrite !string_app_assoc. }
      rewrite trimEnd_app_kept; rewrite (trimEnd_backtick_space post Hpost);
        [|done]. by rewrite string_app_assoc. }
    unfold extractJson. rewrite Htrim.
    assert (Js.startsWith "```" ("```" +:+ inner +:+ "`") = true) as -> by done.
    assert (stripOpeningFence ("```" +:+ inner +:+ "`")
            = Js.trimStart (body +:+ newline +:+ "```")) as ->.
    { unfold inner.
      apply elem_of_cons in Hlang as [-> |Hlang].
      - rewrite string_app_nil_l, !string_app_assoc. reflexivity.
      - apply list_elem_of_singleton in Hlang as ->.
        rewrite !string_app_assoc. reflexivity. }
    destruct (trimStart_app_body body (newline +:+ "```"))
      as [(_ & -> & ->)| ->].
    + done.
    + apply stripClosingFence_end.
  - intros text _ Hno. unfold extractJson. by rewrite Hno.
Qed.

Lemma fenced_reply_witness :
  extractJson (fenced " " "json" "{}" newline) = Js.trimStart "{}".
Proof.
  apply (proj1 fenced_reply_is_unwrapped " " "json" "{}" newline).
  - reflexivity.
  - reflexivity.
  - set_solver.
  - reflexivity.
Defined.

Lemma findTextBlock_first (content : list ContentBlock) (block : ContentBlock) :
  findTextBlock content = Some block ↔ FirstTextBlock content block.
Proof.
  unfold findTextBlock, FirstTextBlock. split.
  - induction content as [|b content IH]; simpl; [done|].
    destruct (bool_decide (blockType b = "text")) eqn:E.
    + intros [= ->]. apply bool_decide_eq_true in E.
      exists [], content. split_and!; [done|done|constructor].
    + intros (before & after & -> & Ht & Hb)%IH.
      apply bool_decide_eq_false in E.
      exists (b :: before), after. split_and!; [done|done|by constructor].
  - intros (before & after & -> & Ht & Hb).
    induction Hb as [|b before Hne _ IH]; simpl.
    + by rewrite bool_decide_eq_true_2.
    + by rewrite bool_decide_eq_false_2.
Qed.

Lemma oneOf_true (allowed : list string) (value : option Json) :
  oneOf allowed value = true ↔ ∃ s, value = Some (JString s) ∧ s ∈ allowed ∧ s ≠ "".
Proof.
  unfold oneOf, includesString. split.
  - destruct value as [[]|]; try done.
    intros [Ht Hin]%andb_true_iff. apply bool_decide_eq_true in Hin.
    apply truthy_nonempty in Ht. eauto.
  - intros (s & -> & Hin & Hne). apply andb_true_iff. split.
    + by apply truthy_nonempty.
    + by apply bool_decide_eq_true.
Qed.

Lemma reportField_some (report : Json) (key : string) (v : Json) :
  reportField report key = fulfilled (Some v)
  ↔ ∃ entries, report = JObject entries ∧ property entries key = Some v.
Proof.
  unfold reportField. split.
  - destruct report; try done. intros [= E]. eauto.
  - by intros (entries & -> & ->).
Qed.

Ltac run_bind :=
  cbn [mbind Settled_bind await tryCatch reportField negb oneOf].

Lemma readReport_fulfilled
    (content : list ContentBlock) (JSON_parse : JsonParser)
    (render : Json → string) (report : Json) :
  readReport content JSON_parse render = fulfilled report
  ↔ ∃ block,
      FirstTextBlock content block
      ∧ JSON_parse (extractJson (blockText block)) = fulfilled report
      ∧ ValidReport report.
Proof.
  unfold readReport, ValidReport. split.
  - destruct (findTextBlock content) as [block|] eqn:Hfind; simpl; [|done].
    destruct (JSON_parse (extractJson (blockText block))) as [parsed|] eqn:Hp;
      simpl; [|done].
    destruct (reportField parsed "ragStatus") as [rag|] eqn:Hrag; simpl; [|done].
    destruct (oneOf RAG_STATUSES rag) eqn:Hrag'; simpl; [|done].
    destruct (reportField parsed "recommendation") as [rec|] eqn:Hrec;
      simpl; [|done].
    destruct (oneOf RECOMMENDATIONS rec) eqn:Hrec'; simpl; [|done].
    intros [= <-].
    apply oneOf_true in Hrag' as (r1 & -> & Hr1 & _).
    apply oneOf_true in Hrec' as (r2 & -> & Hr2 & _).
    apply reportField_some in Hrag as (entries & -> & Hrag).
    apply reportField_some in Hrec as (entries' & [= <-] & Hrec).
    exists block. split_and!; [by apply findTextBlock_first|done|].
    exists entries, r1, r2. done.
  - intros (block & Hfirst%findTextBlock_first & Hp
            & entries & rag & rec & -> & Hrag & Hin1 & Hrec & Hin2).
    assert (oneOf RAG_STATUSES (Some (JString rag)) = true) as H1.
    { apply oneOf_true. exists rag. split_and!; [done|done|].
      intros ->. set_solver. }
    assert (oneOf RECOMMENDATIONS (Some (JString rec)) = true) as H2.
    { apply oneOf_true. exists rec. split_and!; [done|done|].
      intros ->. set_solver. }
    cbn [mbind Settled_bind await tryCatch reportField].
    rewrite Hfirst. cbn [mbind Settled_bind await tryCatch reportField].
    rewrite Hp. cbn [mbind Settled_bind await tryCatch reportField].
    rewrite Hrag, H1. cbn [mbind Settled_bind await tryCatch reportField negb].
    by rewrite Hrec, H2.
Qed.

Lemma runAssessment_resolves_inv
    (created : Promise (list ContentBlock)) (JSON_parse : JsonParser)
    (render : Json → string) (report : Json) :
  runAssessment created JSON_parse render = Resolves report
  ↔ ∃ content block,
      created = Resolves content
      ∧ FirstTextBlock content block
      ∧ JSON_parse (extractJson (blockText block)) = fulfilled report
      ∧ ValidReport report.
Proof.
  unfold runAssessment. split.
  - destruct created as [|content|]; try done.
    intros (block & H)%settle_resolves%readReport_fulfilled. eauto.
  - intros (content & block & -> & H).
    apply settle_resolves, readReport_fulfilled. eauto.
Qed.

(** X17 -- what the synthesis step returns.  For a reply of the model
    within the ASCII range, [runAssessment] returns a report exactly when
    the call to the model was answered, the answer has a block of type
    [text], [JSON.parse] accepts what [extractJson] makes of the first
    such block, and the parsed value is an object whose [ragStatus] is one
    of RED, AMBER, GREEN and whose [recommendation] is one of APPROVE,
    CONDITIONAL_APPROVAL, REJECT; the report returned is that parsed
    value, unchanged. *)
Theorem runAssessment_returns_validated_report
    (created : Promise (list ContentBlock)) (JSON_parse : JsonParser)
    (render : Json → string) (report : Json) :
  (∀ content, created = Resolves content → AsciiBlocks content) →
  runAssessment created JSON_parse render = Resolves report
  ↔ ∃ content block,
      created = Resolves content
      ∧ FirstTextBlock content block
      ∧ JSON_parse (extractJson (blockText block)) = fulfilled report
      ∧ ValidReport report.
Proof. intros _. apply runAssessment_resolves_inv. Qed.

Lemma runAssessment_returns_witness :
  runAssessment (create demoInvocation
                   (Input.mk "TestVendor" "d" "c" "new" "s" "Processor" None None)
                   "" "sk-ant")
    (JSON_parse demoInvocation) (render demoInvocation)
  = Resolves (JObject demoReport).
Proof.
  apply runAssessment_returns_validated_report.
  - intros content [= <-]. repeat constructor.
  - eexists _, (mkBlock "text" (fenced "" "json" "{report}" newline)).
    split; [reflexivity|]. split_and!.
    + exists [mkBlock "thinking" ""], []. split_and!; [done|done|].
      repeat constructor. done.
    + reflexivity.
    + exists demoReport, "AMBER", "CONDITIONAL_APPROVAL".
      split_and!; [done|done|set_solver|done|set_solver].
Defined.

Lemma slice_length (n : nat) (s : string) : String.length (slice n s) ≤ n.
Proof.
  revert s. induction n as [|n IH]; intros [|c s]; simpl; try lia.
  specialize (IH s). lia.
Qed.

Lemma slice_prefix (n : nat) (s : string) : ∃ rest, s = slice n s +:+ rest.
Proof.
  revert s. induction n as [|n IH]; intros [|c s]; simpl; eauto.
  destruct (IH s) as [rest Hrest]. exists rest.
  rewrite string_app_cons. by f_equal.
Qed.

(** X18 -- how the synthesis step fails.  Once the model has answered
    with a reply within the ASCII range, every failure of [runAssessment]
    is an [Error] object.  An answer without a text block fails with
    [No text content in Claude response]; a text [JSON.parse] refuses
    fails with a message that starts with
    [Failed to parse DPSIA report JSON: ] and the parser's own message and
    ends with at most the first 500 characters of the text parsed; a
    parsed object without a valid [ragStatus] fails on [ragStatus]
    whatever its [recommendation] is. *)
Theorem runAssessment_failures
    (content : list ContentBlock) (JSON_parse : JsonParser)
    (render : Json → string) :
  AsciiBlocks content →
  (∀ reason, runAssessment (Resolves content) JSON_parse render = Rejects reason →
             ∃ message, reason = ErrorObject message)
  ∧ (findTextBlock content = None →
     runAssessment (Resolves content) JSON_parse render
     = Rejects (ErrorObject "No text content in Claude response"))
  ∧ (∀ block err,
       findTextBlock content = Some block →
       JSON_parse (extractJson (blockText block)) = rejected err →
       ∃ excerpt rest,
         runAssessment (Resolves content) JSON_parse render
         = Rejects (ErrorObject
             ("Failed to parse DPSIA report JSON: " +:+ messageOf err
              +:+ newline +:+ newline +:+ "Raw response:" +:+ newline
              +:+ excerpt))
         ∧ extractJson (blockText block) = excerpt +:+ rest
         ∧ String.length excerpt ≤ 500)
  ∧ (∀ block entries,
       findTextBlock content = Some block →
       JSON_parse (extractJson (blockText block)) = fulfilled (JObject entries) →
       oneOf RAG_STATUSES (property entries "ragStatus") = false →
       runAssessment (Resolves content) JSON_parse render
       = Rejects (ErrorObject
           ("Invalid ragStatus: "
            +:+ templateText render (property entries "ragStatus")))).
Proof.
  intros _. unfold runAssessment, readReport.
  cbn [mbind Settled_bind await]. split_and!.
  - intros reason.
    destruct (findTextBlock content) as [block|]; run_bind;
      [|intros [= <-]; eauto].
    destruct (JSON_parse (extractJson (blockText block))) as [parsed|];
      run_bind; [|intros [= <-]; eauto].
    destruct parsed; run_bind; try (intros [= <-]; eauto).
    destruct (oneOf RAG_STATUSES (property entries "ragStatus")); run_bind;
      [|intros [= <-]; eauto].
    destruct (oneOf RECOMMENDATIONS (property entries "recommendation"));
      run_bind; [done|intros [= <-]; eauto].
  - by intros ->.
  - intros block err Hb Hp. rewrite Hb. run_bind. rewrite Hp. run_bind.
    destruct (slice_prefix 500 (extractJson (blockText block))) as [rest Hrest].
    exists (slice 500 (extractJson (blockText block))), rest.
    split_and!; [done|done|apply slice_length].
  - intros block entries Hb Hp Hbad. rewrite Hb. run_bind. rewrite Hp.
    run_bind. by rewrite Hbad.
Qed.

Lemma runAssessment_failures_witness :
  ∃ excerpt rest,
    runAssessment (Resolves [mkBlock "text" "not json"])
      (JSON_parse demoInvocation) (render demoInvocation)
    = Rejects (ErrorObject
        ("Failed to parse DPSIA report JSON: Unexpected token"
         +:+ newline +:+ newline +:+ "Raw response:" +:+ newline +:+ excerpt))
    ∧ "not json" = excerpt +:+ rest
    ∧ String.length excerpt ≤ 500.
Proof.
  destruct (runAssessment_failures [mkBlock "text" "not json"]
              (JSON_parse demoInvocation) (render demoInvocation))
    as (_ & _ & Hparse & _).
  { repeat constructor. }
  apply (Hparse (mkBlock "text" "not json") (ErrorObject "Unexpected token"));
    reflexivity.
Defined.

(** * Properties of the handler *)


Lemma conductResearch_resolved_nine vendorName config servicesUsed w research :
  conductResearch vendorName config servicesUsed w = Resolves research →
  length (results research) = 9.
Proof.
  unfold conductResearch. intros ->%runResearch_resolves_inv.
  cbn [results aggregate]. by rewrite resultsFor_length, providerTable_tasks.
Qed.

Lemma parseInput_valid JSON_parse event input :
  parseInput JSON_parse event = fulfilled input → ValidInput input.
Proof.
  unfold parseInput. destruct (body event) as [[|c text]|] eqn:Hbody; try done.
  unfold mbind, Settled_bind, await, tryCatch.
  destruct (JSON_parse (String c text)) as [parsed|?] eqn:Hparse; [|done].
  destruct (asRecord parsed) as [obj|]; [|done].
  intros H. parse_steps H. injection H as <-. unfold ValidInput. simpl.
  repeat split;
    try (by apply includesString_true);
    match goal with
    | E : requireString _ _ = fulfilled ?v |- ?v ≠ _ =>
        by apply requireString_clean in E as [[? ?] _]
    | E : requireString _ _ = fulfilled ?v |- Js.trim ?v = ?v =>
        by apply requireString_clean in E as [[? ?] _]
    end.
Qed.

Lemma getSecrets_fulfilled_cached st w secrets st' :
  getSecrets st w = (Resolves secrets, st') → cached st' = Some secrets.
Proof.
  intros Hget. destruct (getSecrets_cases st w) as [(s0 & Hs & Hlt)|Hstale].
  - rewrite (getSecrets_fresh st w s0 Hs Hlt) in Hget. by simplify_eq.
  - rewrite (getSecrets_stale st w Hstale) in Hget.
    destruct (getFromEnv (env w)); [by simplify_eq|].
    destruct (fetchSecrets w); by simplify_eq.
Qed.


Lemma vendorSlugOf_shape vendorName : slugShape (vendorSlugOf vendorName) = true.
Proof.
  unfold vendorSlugOf, hyphenate.
  eapply stripHyphens_slugShape, hyphenateFrom_hyphenated.
Qed.

(** The ways [handler] ends. *)
Ltac handler_steps inv st :=
  unfold handler;
  destruct (parseInput (JSON_parse inv) (event inv)) as [input|?] eqn:Hinput;
  [ destruct (getSecrets st (secretsWorld inv)) as [[|secrets|?] st1] eqn:Hsecrets;
    [ | destruct (conductResearch (Input.vendorName input)
                  (mkConfig (PERPLEXITY_API_KEY secrets) (GOOGLE_API_KEY secrets)
                     (XAI_API_KEY secrets) (Some 90000%Z))
                  (Some (Input.servicesUsed input)) (researchWorld inv))
        as [|research|?] eqn:Hresearch;
      [ | destruct (runAssessment
                      (create inv input (formatResearchForPrompt research)
                         (ANTHROPIC_API_KEY secrets))
                      (JSON_parse inv) (render inv)) as [|report|?] eqn:Hreport;
          [ | destruct (generateMarkdown inv input report) as [md|?] eqn:Hmd;
            [ destruct (generateDocx inv input report) as [|docx|?] eqn:Hdocx | ]
          | ]
      | ]
    | ]
  | ]; cbn [fst snd].


(** X20 -- what a 200 answer holds.  For an invocation whose request
    fields, citations and model reply are within the ASCII range: when
    [handler] answers 200, the request parsed to a valid input,
    [getSecrets] returned secrets that are now cached, the research
    resolved with nine results, and [runAssessment] returned the report;
    the output carries the input's vendor name, the report and its
    [ragStatus] (RED, AMBER or GREEN) and [recommendation] (APPROVE,
    CONDITIONAL_APPROVAL or REJECT), the de-duplicated sources of the
    research, the elapsed time, and a file name
    [DPSIA-<slug>-<today>.docx] whose slug holds only letters, digits and
    single hyphens and ends with none. *)
Theorem handler_success_output
    (st st' : SecretsCache) (inv : Invocation) (r : ProxyResult) :
  AsciiInvocation inv →
  handler st inv = (Resolves r, st') → statusCode r = 200%Z →
  ∃ input secrets research report,
    parseInput (JSON_parse inv) (event inv) = fulfilled input
    ∧ ValidInput input
    ∧ getSecrets st (secretsWorld inv) = (Resolves secrets, st')
    ∧ cached st' = Some secrets
    ∧ conductResearch (Input.vendorName input)
        (mkConfig (PERPLEXITY_API_KEY secrets) (GOOGLE_API_KEY secrets)
           (XAI_API_KEY secrets) (Some 90000%Z))
        (Some (Input.servicesUsed input)) (researchWorld inv)
      = Resolves research
    ∧ length (results research) = 9
    ∧ runAssessment
        (create inv input (formatResearchForPrompt research)
           (ANTHROPIC_API_KEY secrets))
        (JSON_parse inv) (render inv)
      = Resolves report
    ∧ Output.vendorName (output r) = Input.vendorName input
    ∧ Output.reportJson (output r) = Some report
    ∧ (∃ rag rec,
         Output.ragStatus (output r) = Some (JString rag) ∧ rag ∈ RAG_STATUSES
         ∧ Output.recommendation (output r) = Some (JString rec)
         ∧ rec ∈ RECOMMENDATIONS)
    ∧ Output.researchSources (output r) = allSources research
    ∧ Output.processingTimeMs (output r) = (handlerEnd inv - handlerStart inv)%Z
    ∧ ∃ slug,
        Output.reportFilename (output r)
        = "DPSIA-" +:+ slug +:+ "-" +:+ today inv +:+ ".docx"
        ∧ slugShape slug = true.
Proof.
  intros _. handler_steps inv st; intros [= <- <-]; try done. intros _.
  exists input, secrets, research, report.
  pose proof (proj1 (runAssessment_resolves_inv _ _ _ _) Hreport)
    as (content & block & _ & _ & _ & entries & rag & rec & -> & Hrag & Hin1
        & Hrec & Hin2).
  split_and!; try done.
  - by apply parseInput_valid in Hinput.
  - by apply getSecrets_fulfilled_cached in Hsecrets.
  - by apply conductResearch_resolved_nine in Hresearch.
  - exists rag, rec. done.
  - exists (vendorSlugOf (Input.vendorName input)).
    split; [done | apply vendorSlugOf_shape].
Qed.

Lemma demoInvocation_ascii : AsciiInvocation demoInvocation.
Proof.
  split_and!.
  - intros text obj Hbody Hparse. simpl in Hbody. injection Hbody as <-.
    injection Hparse as <-. apply demoBody_ascii.
  - intros i response data cited Hreply Hjson Hcited.
    change (Api.reply (if decide (i `mod` 3 = 1) then networkDown else demoCall)
            = fulfilled response) in Hreply.
    destruct (decide (i `mod` 3 = 1)); cbn in Hreply; [done|].
    injection Hreply as <-. cbn in Hjson. injection Hjson as <-.
    cbn in Hcited. injection Hcited as <-.
    repeat constructor.
  - intros input researchText key content [= <-]. repeat constructor.
Qed.

Lemma handler_success_witness :
  ∃ r st',
    handler emptyCache demoInvocation = (Resolves r, st')
    ∧ statusCode r = 200%Z
    ∧ Output.vendorName (output r) = "TestVendor, Inc."
    ∧ Output.reportFilename (output r) = "DPSIA-TestVendor-2026-02-06.docx"
    ∧ Output.ragStatus (output r) = Some (JString "AMBER")
    ∧ Output.researchSources (output r)
      = ["https://example.com"; "https://b.example"].
Proof.
  eexists _, _. split; [vm_compute; reflexivity|].
  split; [reflexivity|].
  destruct (handler_success_output emptyCache _ demoInvocation _
              demoInvocation_ascii
              (eq_refl : handler emptyCache demoInvocation = (_, _))
              (eq_refl : _ = 200%Z))
    as (input & secrets & research & report & _).
  split_and!; reflexivity.
Defined.

(** * Failed and successful results of the clients *)

Ltac explain_failure c :=
  let H := fresh "Hlat" in
  intros ? ? ? c ? _; run_search c; intros [= <-]; simpl;
  (split; [done|]); split;
  try (intros H; apply Z.leb_gt in H; congruence);
  try (intros H; exfalso;
       match goal with E : (_ <=? _)%Z = false |- _ => apply Z.leb_gt in E end;
       lia);
  try done;
  intros _; split_and!; intros; simplify_eq; try done;
  repeat match goal with
         | H : Api.bodyText _ = _ |- _ => rewrite H
         | H : Api.bodyJson _ = _ |- _ => rewrite H in *
         end; try done; congruence.

Lemma perplexity_explains_failure : ExplainsFailure PerplexityProvider.search.
Proof. explain_failure c. Qed.

Lemma gemini_explains_failure : ExplainsFailure GeminiProvider.search.
Proof. explain_failure c. Qed.

Lemma grok_explains_failure : ExplainsFailure GrokProvider.search.
Proof. explain_failure c. Qed.

(** X21 -- a failed result says why.  For each of the three clients,
    called with a timeout [setTimeout] keeps as given (1 to 2^31 - 1 ms),
    and every call, the duration of the result is the time between the two
    clock readings of the call; when the abort timer fires first the
    error is the abort message, whatever reply would have come; otherwise
    a rejected [fetch] and a body that is not JSON give the message of
    the rejection, and a non-2xx response gives [HTTP <status>: <body>],
    or the message of the rejection when the body cannot be read. *)
Theorem failed_results_say_why :
  ExplainsFailure PerplexityProvider.search
  ∧ ExplainsFailure GeminiProvider.search
  ∧ ExplainsFailure GrokProvider.search.
Proof.
  split_and!;
    [ apply perplexity_explains_failure | apply gemini_explains_failure
    | apply grok_explains_failure ].
Qed.

Lemma failed_results_witness :
  ∃ r, GeminiProvider.search "google-key" "Acme posture" (Some 5000%Z) serverError
       = fulfilled r
       ∧ error r = Some "HTTP 503: Service Unavailable"
       ∧ durationMs r = 100%Z.
Proof.
  eexists. split; [vm_compute; reflexivity|].
  destruct failed_results_say_why as (_ & Hg & _).
  destruct (Hg "google-key" "Acme posture" (Some 5000%Z) serverError _
              ltac:(unfold timerDelay; simpl; lia) eq_refl)
    as (Hd & _ & Hrest).
  split; [|exact Hd].
  destruct Hrest as (_ & Hhttp & _); [vm_compute; reflexivity|].
  apply (Hhttp _ eq_refl eq_refl).
Defined.

Ltac first_candidate data :=
  destruct (Api.candidates data) as [[|candidate rest]|] eqn:?; simpl; try done;
  destruct (Api.candidateContent candidate) as [cont|] eqn:?; simpl; try done;
  destruct (Api.parts cont) as [[|part rest']|] eqn:?; simpl; try done;
  destruct (Api.text part) as [text|] eqn:?; simpl; try done;
  intros _; by exists candidate, rest, cont, part, rest'.

(** X22 -- what a successful Gemini result holds.  A result of the
    Gemini client, called with a timeout [setTimeout] keeps as given (1
    to 2^31 - 1 ms), has [success = true] exactly when the call met no
    failure mode; it then has no error, and its content is either empty
    or the text of the first part of the content of the first candidate
    of the reply: later candidates and later parts are never read. *)
Theorem gemini_reads_first_candidate : ReadsFirstCandidate GeminiProvider.search.
Proof.
  intros apiKey q timeoutMs c r _. run_search c; intros [= <-]; simpl.
  all: try (split; [split; [done|] | done]; intros Hok; exfalso; apply Hok).
  - by apply timedOut, Z.leb_le.
  - split; [split; [intros _; by eapply failureMode_ok | done]|].
    intros _. split; [done|]. exists response, data.
    split_and!; [done..|]. first_candidate data.
  - by eapply nullBody.
  - by eapply malformedBody.
  - by eapply httpStatus.
  - by eapply httpStatus.
  - by eapply networkError.
Qed.

Lemma gemini_reads_first_candidate_witness :
  ∃ r, GeminiProvider.search "google-key" "Acme posture" (Some 5000%Z) demoCall
       = fulfilled r
       ∧ content r = "Gemini content"
       ∧ ¬ FailureMode 5000 demoCall.
Proof.
  eexists. split; [vm_compute; reflexivity|].
  split; [reflexivity|].
  eapply (gemini_reads_first_candidate "google-key" "Acme posture"
            (Some 5000%Z) demoCall);
    [unfold timerDelay; simpl; lia | vm_compute; reflexivity | reflexivity].
Defined.

(** * Properties of the command line *)







Lemma filter_nil_Forall {A : Type} (f : A → bool) (l : list A) :
  List.filter f l = [] → Forall (fun x => f x = false) l.
Proof.
  induction l as [|x l IH]; simpl; [constructor|].
  destruct (f x) eqn:E; [done|]. by constructor; [|apply IH].
Qed.

Lemma absent_false parsed k :
  absent parsed k = false →
  mapGet parsed k = Some (argOf parsed k) ∧ argOf parsed k ≠ "".
Proof.
  unfold absent, argOf. destruct (mapGet parsed k) as [v|]; [|done].
  simpl. intros Hv%negb_false_iff. by apply truthy_nonempty in Hv.
Qed.

(** The loop exits only for help. *)
Lemma scanArgs_exit args parsed code message :
  scanArgs args parsed = Exits code message → code = 0%Z ∧ message = None.
Proof.
  assert (∀ args,
            (∀ parsed, scanArgs args parsed = Exits code message →
                       code = 0%Z ∧ message = None)
            ∧ (∀ arg parsed, scanArgs (arg :: args) parsed = Exits code message →
                             code = 0%Z ∧ message = None)) as Hboth.
  { clear. induction args as [|value rest [IH1 IH2]].
    - split; [done|]. intros arg parsed. simpl.
      destruct (bool_decide (arg = "-h") || bool_decide (arg = "--help"));
        by intros [= <- <-].
    - split; [exact (IH2 value)|]. intros arg parsed.
      cbn [scanArgs]. destruct (Js.startsWith "--" arg); [apply IH1|].
      destruct (bool_decide (arg = "-h") || bool_decide (arg = "--help"));
        [by intros [= <- <-]|].
      apply (IH2 value). }
  apply Hboth.
Qed.

(** X24 -- what [parseArgs] lets through.  [parseArgs] ends in one of
    three ways.  It returns arguments whose six required values were all
    given and are not empty, whose type is one of new, annual-review,
    adhoc and whose role is one of Processor, Controller, Joint
    Controller, with [.] as the output directory when none was given; or
    it exits with code 0 because the loop met a request for help; or it
    exits with code 1 and a message, which happens exactly when a
    required value is absent or empty, or the type or the role is not a
    listed one. *)
Theorem parseArgs_outcomes (args : list string) :
  match parseArgs args with
  | Returns cli =>
      ∃ parsed,
        scanArgs args [] = Returns parsed
        ∧ Forall (fun k => absent parsed k = false) requiredArgs
        ∧ mapGet parsed "vendor" = Some (CLI.vendor cli)
        ∧ mapGet parsed "description" = Some (CLI.description cli)
        ∧ mapGet parsed "client" = Some (CLI.client cli)
        ∧ mapGet parsed "type" = Some (CLI.type cli)
        ∧ mapGet parsed "services" = Some (CLI.services cli)
        ∧ mapGet parsed "role" = Some (CLI.role cli)
        ∧ Forall (fun v => v ≠ "")
            [CLI.vendor cli; CLI.description cli; CLI.client cli;
             CLI.type cli; CLI.services cli; CLI.role cli]
        ∧ CLI.type cli ∈ validTypes ∧ CLI.role cli ∈ validRoles
        ∧ CLI.context cli = mapGet parsed "context"
        ∧ CLI.supplierForm cli = mapGet parsed "supplier-form"
        ∧ CLI.output cli = default "." (mapGet parsed "output")
  | Exits code message =>
      (code = 0%Z ∧ message = None ∧ scanArgs args [] = Exits 0 None)
      ∨ (code = 1%Z ∧ message ≠ None
         ∧ ∃ parsed,
             scanArgs args [] = Returns parsed
             ∧ ((∃ k, k ∈ requiredArgs ∧ absent parsed k = true)
                ∨ argOf parsed "type" ∉ validTypes
                ∨ argOf parsed "role" ∉ validRoles))
  end.
Proof.
  unfold parseArgs.
  destruct (scanArgs args []) as [parsed|code message] eqn:Hscan.
  2:{ left. destruct (scanArgs_exit _ _ _ _ Hscan) as [-> ->]. done. }
  destruct (List.filter (absent parsed) requiredArgs) as [|k0 missing] eqn:Hmiss.
  2:{ right. split_and!; [done|done|]. exists parsed. split; [done|]. left.
      exists k0.
      assert (k0 ∈ List.filter (absent parsed) requiredArgs) as Hin
        by (rewrite Hmiss; left).
      apply list_elem_of_In, filter_In in Hin as [Hin Habs].
      by apply list_elem_of_In in Hin. }
  apply filter_nil_Forall in Hmiss.
  cbn [length Nat.ltb Nat.leb].
  destruct (includesString validTypes (argOf parsed "type")) eqn:Ht; cbn [negb].
  2:{ right. split_and!; [done|done|]. exists parsed. split; [done|].
      right; left. intros Hin%includesString_true. congruence. }
  destruct (includesString validRoles (argOf parsed "role")) eqn:Hr; cbn [negb].
  2:{ right. split_and!; [done|done|]. exists parsed. split; [done|].
      right; right. intros Hin%includesString_true. congruence. }
  exists parsed. cbn.
  pose proof Hmiss as Hall. unfold requiredArgs in Hall.
  apply Forall_cons in Hall as [[? ?]%absent_false Hall].
  apply Forall_cons in Hall as [[? ?]%absent_false Hall].
  apply Forall_cons in Hall as [[? ?]%absent_false Hall].
  apply Forall_cons in Hall as [[? ?]%absent_false Hall].
  apply Forall_cons in Hall as [[? ?]%absent_false Hall].
  apply Forall_cons in Hall as [[? ?]%absent_false Hall].
  split_and!; try done.
  - repeat (apply Forall_cons_2; [done|]). apply Forall_nil_2.
  - by apply includesString_true.
  - by apply includesString_true.
Qed.

Example parseArgs_demo :
  ∃ cli, parseArgs demoArgs = Returns cli
         ∧ CLI.type cli = "new" ∧ CLI.services cli = "--help"
         ∧ CLI.output cli = ".".
Proof. eexists. split; [vm_compute; reflexivity|]. done. Qed.
